(** * Attribute schemas of pkg/sql/schemachanger/rel

    A shallow embedding of [schema.go]: the ordinal registry
    ([maybeAddAttribute]), attribute type validation ([checkType]), the
    selector resolver ([getOffsetAndTypeFromSelector]), the field classifier
    ([makeFieldFlags]), the accessor generator ([addTypeAttrMapping]), the
    per-type builder ([maybeAddTypeMapping]), the canonical sort of entity
    types ([entityTypeSchemaSort] under [sort.Sort]) and the two entry points
    [NewSchema] and [MustSchema].

    Go's [reflect], [unsafe] and [sort] packages are modelled in their own
    modules, as far as the schema builder uses them. *)

From Stdlib Require Import ZArith Lia Ascii.
From stdpp Require Import base option list strings countable finite gmap sorting.

Local Open Scope string_scope.
Local Open Scope nat_scope.

(** ** Package reflect: runtime type descriptors *)

Module reflect.

Local Open Scope Z_scope.

(** [reflect.Kind]. *)
Inductive Kind : Set :=
| Invalid | Bool
| Int | Int8 | Int16 | Int32 | Int64
| Uint | Uint8 | Uint16 | Uint32 | Uint64 | Uintptr
| Float32 | Float64 | Complex64 | Complex128
| Array | Chan | Func | Interface | Map | Ptr | Slice | String | Struct
| UnsafePointer.

#[global] Instance Kind_eq_dec : EqDecision Kind.
Proof. solve_decision. Defined.

(** A type descriptor, what a [reflect.Type] handle denotes.  Two handles
    are [==] in Go exactly when they denote the same type, that is, here,
    when the descriptors are equal.

    - [Basic k name vm pm]: a predeclared or defined type of a kind whose
      structure the builder never inspects (numbers, strings, booleans,
      slices, maps, ...); [vm] are the names of the methods declared with
      a value receiver, [pm] those declared with a pointer receiver.
    - [InterfaceOf name ms]: an interface type with method names [ms];
      [InterfaceOf "interface {}" []] is the empty interface.
    - [PtrTo t]: the pointer type [*t], as [reflect.PtrTo] returns.
    - [StructOf name fs vm pm]: a struct type with its fields, each with
      the byte offset of the field within the struct. *)
Inductive rtype : Type :=
| Basic (k : Kind) (name : string) (valueMethods ptrMethods : list string)
| InterfaceOf (name : string) (methods : list string)
| PtrTo (elem : rtype)
| StructOf (name : string) (fields : fieldList)
           (valueMethods ptrMethods : list string)
with fieldList : Type :=
| FNil
| FCons (fname : string) (foffset : Z) (ftyp : rtype) (rest : fieldList).

Fixpoint rtype_eq_dec (a b : rtype) {struct a} : {a = b} + {a <> b}
with fieldList_eq_dec (a b : fieldList) {struct a} : {a = b} + {a <> b}.
Proof.
  - decide equality; try apply (list_eq_dec (A:=string));
      try apply String.string_dec; apply Kind_eq_dec.
  - decide equality; try apply String.string_dec; apply Z.eq_dec.
Defined.

#[global] Instance rtype_EqDecision : EqDecision rtype := rtype_eq_dec.

(** Type descriptors are keys of Go maps: they are countable, through an
    encoding as trees. *)
#[global] Program Instance Kind_finite : Finite Kind := {|
  enum := [Invalid; Bool; Int; Int8; Int16; Int32; Int64;
           Uint; Uint8; Uint16; Uint32; Uint64; Uintptr;
           Float32; Float64; Complex64; Complex128;
           Array; Chan; Func; Interface; Map; Ptr; Slice; String; Struct;
           UnsafePointer]
|}.
Next Obligation. by apply (bool_decide_unpack _). Qed.
Next Obligation. intros []; by apply (bool_decide_unpack _). Qed.

Definition leaf : Type := Kind + string + Z + list string.

Definition lk (k : Kind) : gen_tree leaf := GenLeaf (inl (inl (inl k))).
Definition ls (s : string) : gen_tree leaf := GenLeaf (inl (inl (inr s))).
Definition lz (z : Z) : gen_tree leaf := GenLeaf (inl (inr z)).
Definition ll (l : list string) : gen_tree leaf := GenLeaf (inr l).

Fixpoint rtype_enc (t : rtype) : gen_tree leaf :=
  match t with
  | Basic k name vm pm => GenNode 0 [lk k; ls name; ll vm; ll pm]
  | InterfaceOf name ms => GenNode 1 [ls name; ll ms]
  | PtrTo e => GenNode 2 [rtype_enc e]
  | StructOf name fs vm pm => GenNode 3 [ls name; fields_enc fs; ll vm; ll pm]
  end
with fields_enc (fs : fieldList) : gen_tree leaf :=
  match fs with
  | FNil => GenNode 4 []
  | FCons n off ty rest =>
      GenNode 5 [ls n; lz off; rtype_enc ty; fields_enc rest]
  end.

Fixpoint rtype_dec (t : gen_tree leaf) : option rtype :=
  match t with
  | GenNode 0 [GenLeaf (inl (inl (inl k))); GenLeaf (inl (inl (inr name)));
               GenLeaf (inr vm); GenLeaf (inr pm)] =>
      Some (Basic k name vm pm)
  | GenNode 1 [GenLeaf (inl (inl (inr name))); GenLeaf (inr ms)] =>
      Some (InterfaceOf name ms)
  | GenNode 2 [e] => PtrTo <$> rtype_dec e
  | GenNode 3 [GenLeaf (inl (inl (inr name))); fs;
               GenLeaf (inr vm); GenLeaf (inr pm)] =>
      (fun fs' => StructOf name fs' vm pm) <$> fields_dec fs
  | _ => None
  end
with fields_dec (t : gen_tree leaf) : option fieldList :=
  match t with
  | GenNode 4 [] => Some FNil
  | GenNode 5 [GenLeaf (inl (inl (inr n))); GenLeaf (inl (inr off)); ty; rest] =>
      match rtype_dec ty, fields_dec rest with
      | Some ty', Some rest' => Some (FCons n off ty' rest')
      | _, _ => None
      end
  | _ => None
  end.

Fixpoint rtype_dec_enc (t : rtype) : rtype_dec (rtype_enc t) = Some t
with fields_dec_enc (fs : fieldList) : fields_dec (fields_enc fs) = Some fs.
Proof.
  - destruct t as [k name vm pm|name ms|e|name fs vm pm]; simpl.
    + reflexivity.
    + reflexivity.
    + now rewrite (rtype_dec_enc e).
    + now rewrite (fields_dec_enc fs).
  - destruct fs as [|n off ty rest]; simpl.
    + reflexivity.
    + now rewrite (rtype_dec_enc ty), (fields_dec_enc rest).
Qed.

#[global] Instance rtype_Countable : Countable rtype :=
  inj_countable rtype_enc rtype_dec rtype_dec_enc.

(** [reflect.StructField], the part the builder reads. *)
Record StructField : Type := mkStructField {
  Name : string;
  Type_ : rtype;
  Offset : Z;
}.

(** What a call into the package does: it returns, or it panics with a
    message. *)
Inductive outcome (A : Type) : Type :=
| Val (a : A)
| RuntimePanic (msg : string).
Arguments Val {A} a.
Arguments RuntimePanic {A} msg.

Definition obind {A B} (o : outcome A) (k : A -> outcome B) : outcome B :=
  match o with
  | Val a => k a
  | RuntimePanic msg => RuntimePanic msg
  end.

(** [Type.Kind].  A [Basic] descriptor never stands for a pointer, a struct
    or an interface: those have their own constructors. *)
Definition kind (t : rtype) : Kind :=
  match t with
  | Basic k _ _ _ =>
      match k with
      | Ptr | Struct | Interface => Invalid
      | _ => k
      end
  | InterfaceOf _ _ => Interface
  | PtrTo _ => Ptr
  | StructOf _ _ _ _ => Struct
  end.

(** [Type.Elem], for the kinds modelled with an element type. *)
Definition Elem (t : rtype) : outcome rtype :=
  match t with
  | PtrTo e => Val e
  | _ => RuntimePanic "reflect: Elem of invalid type"
  end.

Fixpoint lookupField (fs : fieldList) (n : string) : option StructField :=
  match fs with
  | FNil => None
  | FCons fname foffset ftyp rest =>
      if String.eqb fname n
      then Some (mkStructField fname ftyp foffset)
      else lookupField rest n
  end.

(** [Type.FieldByName]: the field of that name and whether it was found.
    Fields promoted through embedded structs are not modelled: every field
    is found by its own name in the struct that declares it. *)
Definition FieldByName (t : rtype) (n : string)
  : outcome (option StructField) :=
  match t with
  | StructOf _ fs _ _ => Val (lookupField fs n)
  | _ => RuntimePanic "reflect: FieldByName of non-struct type"
  end.

(** The method set of a type: a defined type has its value-receiver
    methods, a pointer to a defined type has both sets, an interface its
    own methods. *)
Definition methodSet (t : rtype) : list string :=
  match t with
  | Basic _ _ vm _ => vm
  | InterfaceOf _ ms => ms
  | StructOf _ _ vm _ => vm
  | PtrTo (Basic _ _ vm pm) => vm ++ pm
  | PtrTo (StructOf _ _ vm pm) => vm ++ pm
  | PtrTo _ => []
  end.

(** [Type.Implements]: [t] implements the interface type [u] when every
    method of [u] is in the method set of [t]. *)
Definition Implements (t u : rtype) : outcome bool :=
  match u with
  | InterfaceOf _ ms =>
      Val (forallb (fun m => bool_decide (m ∈ methodSet t)) ms)
  | _ => RuntimePanic "reflect: non-interface type passed to Type.Implements"
  end.

(** *** Values in memory

    The accessors the builder generates read caller-owned memory through
    [reflect.NewAt].  Memory is what can be loaded at an address: the
    integer stored there, the string stored there, the pointer stored
    there.  Address [0] is the nil pointer; addresses and [uintptr] values
    are 64 bits wide. *)
Record memory : Type := mkMemory {
  load_int : Z -> Z;
  load_string : Z -> string;
  load_ptr : Z -> Z;
}.

Definition uintptr (z : Z) : Z := z mod 2 ^ 64.

Definition isSigned (k : Kind) : bool :=
  match k with
  | Int | Int8 | Int16 | Int32 | Int64 => true
  | _ => false
  end.

Definition isUnsigned (k : Kind) : bool :=
  match k with
  | Uint | Uint8 | Uint16 | Uint32 | Uint64 | Uintptr => true
  | _ => false
  end.

Definition bits (k : Kind) : Z :=
  match k with
  | Int8 | Uint8 => 8
  | Int16 | Uint16 => 16
  | Int32 | Uint32 => 32
  | _ => 64
  end.

(** The value of a [w]-bit two's complement integer with bit pattern [z]. *)
Definition signed (w z : Z) : Z :=
  let u := z mod 2 ^ w in
  if u <? 2 ^ (w - 1) then u else u - 2 ^ w.

Definition unsigned (w z : Z) : Z := z mod 2 ^ w.

(** A [reflect.Value]: the zero Value, a pointer held by the Value itself
    ([NewAt] returns one), or an addressable variable of type [typ] that
    lives at [addr]. *)
Inductive Value : Type :=
| ValueInvalid
| ValuePtr (typ : rtype) (p : Z)
| ValueAt (typ : rtype) (addr : Z).

(** An [interface{}]: nil, or a dynamic type with a value of that type.
    Go's [==] on two interface values holds when the dynamic types are
    identical and the values are equal; for pointers, when they hold the
    same address. *)
Inductive iface : Type :=
| nil
| IfInt (typ : rtype) (v : Z)
| IfString (typ : rtype) (s : string)
| IfPtr (typ : rtype) (p : Z)
| IfOther (typ : rtype) (addr : Z).

#[global] Instance iface_eq_dec : EqDecision iface.
Proof. solve_decision. Defined.

(** [reflect.NewAt(typ, p)]: a Value holding the pointer [p] as a [*typ]. *)
Definition NewAt (typ : rtype) (p : Z) : Value := ValuePtr (PtrTo typ) p.

(** [Value.Elem]: the variable a pointer points to; the zero Value for a
    nil pointer.  (Values of interface kind do not arise here.) *)
Definition Value_Elem (m : memory) (v : Value) : outcome Value :=
  match v with
  | ValuePtr (PtrTo t) p =>
      Val (if p =? 0 then ValueInvalid else ValueAt t p)
  | ValueAt (PtrTo t) a =>
      Val (if load_ptr m a =? 0 then ValueInvalid else ValueAt t (load_ptr m a))
  | _ => RuntimePanic "reflect: call of reflect.Value.Elem on non-pointer Value"
  end.

(** [Value.IsNil], for pointers. *)
Definition Value_IsNil (m : memory) (v : Value) : outcome bool :=
  match v with
  | ValuePtr (PtrTo _) p => Val (p =? 0)
  | ValueAt (PtrTo _) a => Val (load_ptr m a =? 0)
  | _ => RuntimePanic "reflect: call of reflect.Value.IsNil on non-pointer Value"
  end.

(** [Value.Interface]: the value, boxed with its type. *)
Definition Value_Interface (m : memory) (v : Value) : outcome iface :=
  match v with
  | ValueInvalid =>
      RuntimePanic "reflect: call of reflect.Value.Interface on zero Value"
  | ValuePtr t p => Val (IfPtr t p)
  | ValueAt t a =>
      Val (if isSigned (kind t) then IfInt t (signed (bits (kind t)) (load_int m a))
           else if isUnsigned (kind t) then IfInt t (unsigned (bits (kind t)) (load_int m a))
           else match kind t with
                | String => IfString t (load_string m a)
                | Ptr => IfPtr t (load_ptr m a)
                | _ => IfOther t a
                end)
  end.

(** [Value.Int]: the value of a signed integer, as an [int64]. *)
Definition Value_Int (m : memory) (v : Value) : outcome Z :=
  match v with
  | ValueAt t a =>
      if isSigned (kind t) then Val (signed (bits (kind t)) (load_int m a))
      else RuntimePanic "reflect: call of reflect.Value.Int on non-int Value"
  | _ => RuntimePanic "reflect: call of reflect.Value.Int on non-int Value"
  end.

(** [Value.Uint]: the value of an unsigned integer, as a [uint64]. *)
Definition Value_Uint (m : memory) (v : Value) : outcome Z :=
  match v with
  | ValueAt t a =>
      if isUnsigned (kind t) then Val (unsigned (bits (kind t)) (load_int m a))
      else RuntimePanic "reflect: call of reflect.Value.Uint on non-uint Value"
  | _ => RuntimePanic "reflect: call of reflect.Value.Uint on non-uint Value"
  end.

End reflect.

#[global] Instance outcome_bind : MBind reflect.outcome :=
  fun A B k o => reflect.obind o k.
#[global] Instance outcome_ret : MRet reflect.outcome := @reflect.Val.

(** ** Package sort *)

Module sort.

(** [sort.Interface]. *)
Class Interface (D : Type) : Type := {
  Len : D -> nat;
  Less : D -> nat -> nat -> bool;
  Swap : D -> nat -> nat -> D;
}.

Section Sort.
Context {D : Type} `{Interface D}.

(** The inner loop of [insertionSort]:
    [for j := i; j > a && data.Less(j, j-1); j-- { data.Swap(j, j-1) }]
    with [a = 0]. *)
Fixpoint insertDown (data : D) (j : nat) : D :=
  match j with
  | O => data
  | S j' => if Less data j j' then insertDown (Swap data j j') j' else data
  end.

(** [insertionSort(data, 0, n)]: [for i := 1; i < n; i++ { ... }]. *)
Definition insertionSort (data : D) (n : nat) : D :=
  foldl insertDown data (seq 1 (n - 1)).

(** [sort.Sort(data)].  Go runs exactly this insertion sort on inputs of
    fewer than 12 elements; on longer inputs it runs another in-place
    algorithm that also moves elements through [Swap] only and also
    leaves the first [Len] elements ordered by [Less]. *)
Definition Sort (data : D) : D := insertionSort data (Len data).
End Sort.

(** [sort.Slice(x, less)], the same insertion sort on a slice of values:
    each element sinks below the elements before it that it is [less]
    than.  [sink] works on the sorted prefix, last element first. *)
Fixpoint sink {A} (less : A -> A -> bool) (x : A) (prefix : list A) : list A :=
  match prefix with
  | y :: r => if less x y then y :: sink less x r else x :: y :: r
  | [] => [x]
  end.

Definition Slice {A} (less : A -> A -> bool) (x : list A) : list A :=
  rev (foldl (fun prefix e => sink less e prefix) [] x).

End sort.

(** ** Package rel: attributes, errors and panics *)

(** [Attr]: the two system attributes and the attributes the caller
    defines.  (Go's [Type] is spelled [Type_] here.) *)
Inductive Attr : Type :=
| Self
| Type_
| UserAttr (name : string).

#[global] Instance Attr_eq_dec : EqDecision Attr.
Proof. solve_decision. Defined.

#[global] Instance Attr_countable : Countable Attr :=
  inj_countable'
    (fun a => match a with
              | Self => inl true
              | Type_ => inl false
              | UserAttr n => inr n
              end)
    (fun x => match x with
              | inl true => Self
              | inl false => Type_
              | inr n => UserAttr n
              end)
    (fun a => match a with Self | Type_ | UserAttr _ => eq_refl end).

Abbreviation ordinal := nat.

(** The errors the package builds, one constructor per format string. *)
Inductive error : Type :=
| Errorf_too_many_attributes
    (* "too many attributes" *)
| Errorf_does_not_implement (typ exp : reflect.rtype)
    (* "%v does not implement %v" *)
| Errorf_is_not (typ exp : reflect.rtype)
    (* "%v is not %v" *)
| Wrapf_type_mismatch_for (cause : error) (a : Attr)
    (* "type mismatch for %v" *)
| Errorf_is_not_a_pointer_to_a_struct (t : reflect.rtype)
    (* "%v is not a pointer to a struct" *)
| Errorf_selector_has_unsupported_type (sel : string) (t cur : reflect.rtype)
    (* "selector %q of %v has unsupported type %v" *)
| Errorf_is_not_a_field (structPointer : reflect.rtype) (selector : string)
    (* "%v.%s is not a field" *)
| Errorf_unknown_attribute_in_schema (attribute : Attr) (name : string)
    (* "unknown attribute %s in schema %s" *)
| Wrap_failed_to_construct_schema (cause : error)
    (* "failed to construct schema" *)
| AssertionFailedf_failed_to_construct_schema (r : string)
    (* "failed to construct schema: %v" *)
| runtime_Error (msg : string).
    (* a run-time panic of the language, such as an index out of range *)

(** What [panic] was called with: an [error], or any other value (the
    [reflect] package panics with strings). *)
Inductive panicValue : Type :=
| panic_error (e : error)
| panic_other (v : string).

(** A call returns, or it panics. *)
Inductive result (A : Type) : Type :=
| Returned (a : A)
| Panicked (r : panicValue).
Arguments Returned {A} a.
Arguments Panicked {A} r.

#[global] Instance result_bind : MBind result :=
  fun A B k r =>
    match r with
    | Returned a => k a
    | Panicked v => Panicked v
    end.
#[global] Instance result_ret : MRet result := @Returned.

Definition panic {A} (e : error) : result A := Panicked (panic_error e).

(** A panic inside [reflect] unwinds through the caller. *)
Definition call {A} (o : reflect.outcome A) : result A :=
  match o with
  | reflect.Val a => Returned a
  | reflect.RuntimePanic msg => Panicked (panic_other msg)
  end.

(** ** Package rel: the schema *)

(** [fieldFlags], an [int8] used as a bit set. *)
Abbreviation fieldFlags := Z.

Definition intField : fieldFlags := Z.shiftl 1 0.
Definition uintField : fieldFlags := Z.shiftl 1 1.
Definition stringField : fieldFlags := Z.shiftl 1 2.
Definition structField : fieldFlags := Z.shiftl 1 3.
Definition pointerField : fieldFlags := Z.shiftl 1 4.

Definition isPtr (f : fieldFlags) : bool := negb (Z.land f pointerField =? 0)%Z.
Definition isScalar (f : fieldFlags) : bool :=
  negb (Z.land f (Z.lor (Z.lor intField stringField) uintField) =? 0)%Z.
Definition isStruct (f : fieldFlags) : bool := negb (Z.land f structField =? 0)%Z.
Definition isInt (f : fieldFlags) : bool := negb (Z.land f intField =? 0)%Z.
Definition isUint (f : fieldFlags) : bool := negb (Z.land f uintField =? 0)%Z.
Definition isIntLike (f : fieldFlags) : bool :=
  negb (Z.land f (Z.lor intField uintField) =? 0)%Z.
Definition isString (f : fieldFlags) : bool := negb (Z.land f stringField =? 0)%Z.

(** An accessor takes the memory and the [unsafe.Pointer] to the entity. *)
Definition accessor (A : Type) : Type :=
  reflect.memory -> Z -> reflect.outcome A.

(** [fieldInfo]; [flags] is the embedded [fieldFlags]. *)
Record fieldInfo : Type := mkFieldInfo {
  path : string;
  f_typ : reflect.rtype;
  attr : ordinal;
  comparableValue : accessor reflect.iface;
  value : accessor reflect.iface;
  inline : accessor (Z * bool);
  flags : fieldFlags;
}.

(** [entityTypeSchema]. *)
Record entityTypeSchema : Type := mkEntityTypeSchema {
  typ : reflect.rtype;
  fields : list fieldInfo;
  attrFields : gmap nat (list fieldInfo);
  typID : nat;
}.

Definition set_typID (id : nat) (ts : entityTypeSchema) : entityTypeSchema :=
  mkEntityTypeSchema (typ ts) (fields ts) (attrFields ts) id.

(** [Schema].  The slice [entityTypes] and the map [entityTypeSchemas] hold
    pointers to the same [entityTypeSchema] objects, and [Swap] writes
    through them: [objects] is the store of these objects and a
    [*entityTypeSchema] is an index into it.  The fields [stringAttrs],
    [rules] and [rulesByName] are never written by this file and are left
    out. *)
Record Schema : Type := mkSchema {
  name : string;
  attrs : list Attr;
  attrTypes : list reflect.rtype;
  attrToOrdinal : gmap Attr nat;
  objects : list entityTypeSchema;
  entityTypes : list nat;
  entityTypeSchemas : gmap reflect.rtype nat;
  typeOrdinal : ordinal;
  selfOrdinal : ordinal;
}.

(** [e.entityTypes[i]], dereferenced. *)
Definition entityTypeAt (e : Schema) (i : nat) : option entityTypeSchema :=
  p ← entityTypes e !! i; objects e !! p.

(** The entity type schema the map has for a record type. *)
Definition entityTypeSchemaOf (e : Schema) (t : reflect.rtype)
  : option entityTypeSchema :=
  p ← entityTypeSchemas e !! t; objects e !! p.

(** Modelled from the spec: the declarations of the configuration types are
    not in this file; they are reconstructed from the fields [buildSchema]
    and [maybeAddTypeMapping] read ([t.a], [t.typ], [tm.typ],
    [tm.attrMappings], [am.a], [am.selectors]) and from the spec's "ordered
    list of configuration options of two kinds — explicit attribute-type
    declarations, and per-record-type attribute-to-selector mappings". *)
Record attrType : Type := mkAttrType {
  at_a : Attr;
  at_typ : reflect.rtype;
}.

Record attrMapping : Type := mkAttrMapping {
  am_a : Attr;
  am_selectors : list string;
}.

Record entityMapping : Type := mkEntityMapping {
  em_typ : reflect.rtype;
  em_attrMappings : list attrMapping;
}.

Record schemaMappings : Type := mkSchemaMappings {
  m_attrTypes : list attrType;
  m_entityMappings : list entityMapping;
}.

Inductive SchemaOption : Type :=
| AttrType (a : Attr) (typ : reflect.rtype)
| EntityMapping (typ : reflect.rtype) (attrMappings : list attrMapping).

Definition apply (opt : SchemaOption) (m : schemaMappings) : schemaMappings :=
  match opt with
  | AttrType a t =>
      mkSchemaMappings (m_attrTypes m ++ [mkAttrType a t]) (m_entityMappings m)
  | EntityMapping t ams =>
      mkSchemaMappings (m_attrTypes m) (m_entityMappings m ++ [mkEntityMapping t ams])
  end.

(** Modelled from the spec: the package variables [emptyInterfaceType] and
    [reflectTypeType] are declared outside this file.  [Self]'s "declared
    type is an unconstrained/'any' capability", [Type]'s is "the record's
    runtime type descriptor", the interface [reflect.Type]. *)
Definition emptyInterfaceType : reflect.rtype :=
  reflect.InterfaceOf "interface {}" [].

Definition reflectTypeType : reflect.rtype :=
  reflect.InterfaceOf "reflect.Type"
    ["Align"; "Elem"; "Field"; "FieldByName"; "Implements"; "Kind"; "Name";
     "NumField"; "PkgPath"; "Size"; "String"].

(** Modelled from the spec: [isIntKind] and [isUintKind] are declared outside
    this file; the classifier's kinds are "signed integer, unsigned integer,
    string, reference-to-struct". *)
Definition isIntKind (k : reflect.Kind) : bool :=
  match k with
  | reflect.Int | reflect.Int8 | reflect.Int16 | reflect.Int32
  | reflect.Int64 => true
  | _ => false
  end.

Definition isUintKind (k : reflect.Kind) : bool :=
  match k with
  | reflect.Uint | reflect.Uint8 | reflect.Uint16 | reflect.Uint32
  | reflect.Uint64 => true
  | _ => false
  end.

(** [strings.Split(s, ".")]. *)
Fixpoint splitDot (s : string) : list string :=
  match s with
  | EmptyString => [""]
  | String c r =>
      if Ascii.eqb c "."%char then "" :: splitDot r
      else match splitDot r with
           | h :: t => String c h :: t
           | [] => [String c ""]
           end
  end.

(** [checkType]: [None] is Go's nil error. *)
Definition checkType (typ exp : reflect.rtype) : result (option error) :=
  match reflect.kind exp with
  | reflect.Interface =>
      ok ← call (reflect.Implements typ exp);
      if negb ok then mret (Some (Errorf_does_not_implement typ exp))
      else mret None
  | _ =>
      if bool_decide (typ ≠ exp) then mret (Some (Errorf_is_not typ exp))
      else mret None
  end.

(** [getOffsetAndTypeFromSelector]: the loop over the names, then the
    function. *)
Fixpoint walkSelector (structPointer : reflect.rtype) (selector : string)
    (names : list string) (offset : Z) (cur : reflect.rtype)
  : result (Z * reflect.rtype) :=
  match names with
  | [] => mret (offset, cur)
  | n :: names' =>
      sf ← call (reflect.FieldByName cur n);
      match sf with
      | None => panic (Errorf_is_not_a_field structPointer selector)
      | Some sf =>
          walkSelector structPointer selector names'
            (reflect.uintptr (offset + reflect.Offset sf)) (reflect.Type_ sf)
      end
  end.

Definition getOffsetAndTypeFromSelector (structPointer : reflect.rtype)
    (selector : string) : result (Z * reflect.rtype) :=
  let names := splitDot selector in
  cur ← call (reflect.Elem structPointer);
  walkSelector structPointer selector names 0%Z cur.

(** [t.Elem()] where [t.Kind() == reflect.Ptr] has been tested. *)
Definition elemOf (t : reflect.rtype) : reflect.rtype :=
  match t with
  | reflect.PtrTo e => e
  | _ => t
  end.

(** [makeFieldFlags]. *)
Definition makeFieldFlags (t : reflect.rtype) : fieldFlags * bool :=
  let f := 0%Z in
  let '(f, t) :=
    if bool_decide (reflect.kind t = reflect.Ptr)
    then (Z.lor f pointerField, elemOf t)
    else (f, t) in
  let kind := reflect.kind t in
  if bool_decide (kind = reflect.Struct) && isPtr f then (Z.lor f structField, true)
  else if bool_decide (kind = reflect.String) then (Z.lor f stringField, true)
  else if isIntKind kind then (Z.lor f intField, true)
  else if isUintKind kind then (Z.lor f uintField, true)
  else (0%Z, false).

(** *** Accessors

    [makeValueGetter] and [getPtrValue] are the two closures
    [addTypeAttrMapping] declares; the three accessors of a field follow. *)

Definition makeValueGetter (t : reflect.rtype) (offset : Z) : Z -> reflect.Value :=
  fun u => reflect.NewAt t (reflect.uintptr (u + offset)).

Definition getPtrValue (vg : Z -> reflect.Value) : accessor reflect.iface :=
  fun m u =>
    let got := vg u in
    ge ← reflect.Value_Elem m got;
    isNil ← reflect.Value_IsNil m ge;
    if isNil : bool then mret reflect.nil
    else reflect.Value_Interface m ge.

(** The [value] accessor (the first block of [addTypeAttrMapping]). *)
Definition makeValue (f : fieldFlags) (cur : reflect.rtype) (offset : Z)
  : accessor reflect.iface :=
  let vg := makeValueGetter cur offset in
  if isPtr f && isStruct f then getPtrValue vg
  else if isPtr f && isScalar f then
    fun m u =>
      let got := vg u in
      ge ← reflect.Value_Elem m got;
      isNil ← reflect.Value_IsNil m ge;
      if isNil : bool then mret reflect.nil
      else (e ← reflect.Value_Elem m ge; reflect.Value_Interface m e)
  else
    fun m u => e ← reflect.Value_Elem m (vg u); reflect.Value_Interface m e.

(** The [inline] accessor (the [switch] of the first block).  When no case
    applies the field is left nil, and calling it panics. *)
Definition makeInline (f : fieldFlags) (cur : reflect.rtype) (offset : Z)
  : accessor (Z * bool) :=
  let vg := makeValueGetter cur offset in
  if isPtr f && isInt f then
    fun m u =>
      let got := vg u in
      ge ← reflect.Value_Elem m got;
      isNil ← reflect.Value_IsNil m ge;
      if isNil : bool then mret (0%Z, false)
      else (e ← reflect.Value_Elem m ge;
            i ← reflect.Value_Int m e;
            mret (reflect.uintptr i, true))
  else if isPtr f && isUint f then
    fun m u =>
      let got := vg u in
      ge ← reflect.Value_Elem m got;
      isNil ← reflect.Value_IsNil m ge;
      if isNil : bool then mret (0%Z, false)
      else (e ← reflect.Value_Elem m ge;
            i ← reflect.Value_Uint m e;
            mret (reflect.uintptr i, true))
  else if isInt f then
    fun m u =>
      e ← reflect.Value_Elem m (vg u);
      i ← reflect.Value_Int m e;
      mret (reflect.uintptr i, true)
  else if isUint f then
    fun m u =>
      e ← reflect.Value_Elem m (vg u);
      i ← reflect.Value_Uint m e;
      mret (reflect.uintptr i, true)
  else if isString f || isStruct f then
    fun m u => mret (0%Z, false)
  else
    fun m u => reflect.RuntimePanic "invalid memory address or nil pointer dereference".

(** The [comparableValue] accessor (the second block). *)
Definition makeComparableValue (getComparableType : reflect.rtype -> reflect.rtype)
    (f : fieldFlags) (cur typ : reflect.rtype) (offset : Z)
  : accessor reflect.iface :=
  if isStruct f then getPtrValue (makeValueGetter cur offset)
  else
    let compType := getComparableType typ in
    let compType :=
      if isPtr f && isScalar f then reflect.PtrTo compType else compType in
    let vg := makeValueGetter compType offset in
    if isPtr f && isScalar f then getPtrValue vg
    else fun m u => reflect.Value_Interface m (vg u).

(** *** The builder

    The methods of [schemaBuilder] read and write the [Schema] it embeds;
    they return or panic. *)
Definition builder (A : Type) : Type := Schema -> result (A * Schema).

#[global] Instance builder_bind : MBind builder :=
  fun A B k c sb =>
    match c sb with
    | Returned (a, sb') => k a sb'
    | Panicked r => Panicked r
    end.
#[global] Instance builder_ret : MRet builder := fun A a sb => Returned (a, sb).

Notation "'let!' x ':=' c 'in' k" :=
  (@mbind builder builder_bind _ _ (fun x => k) c)
  (at level 10, x name, c at level 100, k at level 200, only parsing).

Definition lift {A} (r : result A) : builder A :=
  fun sb =>
    match r with
    | Returned a => Returned (a, sb)
    | Panicked v => Panicked v
    end.

(** [getOrdinal]. *)
Definition getOrdinal (sc : Schema) (attribute : Attr) : ordinal * option error :=
  match attrToOrdinal sc !! attribute with
  | None => (0, Some (Errorf_unknown_attribute_in_schema attribute (name sc)))
  | Some ord => (ord, None)
  end.

(** [mustGetOrdinal]. *)
Definition mustGetOrdinal (sc : Schema) (attribute : Attr) : result ordinal :=
  let '(ord, err) := getOrdinal sc attribute in
  match err with
  | Some err => panic err
  | None => mret ord
  end.

Definition isStructPointer (tt : reflect.rtype) : bool :=
  bool_decide (reflect.kind tt = reflect.Ptr)
  && bool_decide (reflect.kind (elemOf tt) = reflect.Struct).

(** The inner loop of the grouping in [maybeAddTypeMapping]: the elements
    after index [i] that carry the same ordinal, up to the first that does
    not. *)
Fixpoint sameAttrRun (cur : ordinal) (l : list fieldInfo) : list fieldInfo :=
  match l with
  | f :: r => if attr f =? cur then f :: sameAttrRun cur r else []
  | [] => []
  end.

(** The second loop of [maybeAddTypeMapping]: each run of equal [attr] in
    the sorted slice becomes the entry of that ordinal.  [fieldInfos] is the
    part of the slice from index [i] on; every iteration consumes at least
    one element, so the length of the slice is fuel enough. *)
Fixpoint groupByAttr (fuel : nat) (fieldInfos : list fieldInfo)
    (attributeFields : gmap nat (list fieldInfo)) : gmap nat (list fieldInfo) :=
  match fuel, fieldInfos with
  | S fuel', fi :: rest =>
      let cur := attr fi in
      let run := sameAttrRun cur rest in
      groupByAttr fuel' (drop (length run) rest)
        (<[cur := fi :: run]> attributeFields)
  | _, _ => attributeFields
  end.

Section Builder.

(** The constant [maxUserAttribute] and the functions [compareTypes] and
    [getComparableType] are declared outside this file. *)
Variable maxUserAttribute : ordinal.
Variable compareTypes : reflect.rtype -> reflect.rtype -> bool * bool.
Variable getComparableType : reflect.rtype -> reflect.rtype.

(** [entityTypeSchemaSort]: [Len] counts the entries of the map, [Less] and
    [Swap] index the slice.  An index past the end of the slice makes Go
    panic; [sort.Sort] only passes indices below [Len], which is at most
    the length of the slice, and here such an index compares as not less
    and is not swapped. *)
#[local] Instance entityTypeSchemaSort : sort.Interface Schema := {|
  sort.Len e := size (entityTypeSchemas e);
  sort.Less e i j :=
    match entityTypeAt e i, entityTypeAt e j with
    | Some a, Some b => fst (compareTypes (typ a) (typ b))
    | _, _ => false
    end;
  sort.Swap e i j :=
    match entityTypes e !! i, entityTypes e !! j with
    | Some p, Some q =>
        let objs := alter (set_typID j) p (objects e) in
        let objs := alter (set_typID i) q objs in
        mkSchema (name e) (attrs e) (attrTypes e) (attrToOrdinal e)
          objs (<[j := p]> (<[i := q]> (entityTypes e)))
          (entityTypeSchemas e) (typeOrdinal e) (selfOrdinal e)
    | _, _ => e
    end;
|}.

(** [maybeAddAttribute]. *)
Definition maybeAddAttribute (a : Attr) (typ : reflect.rtype) : builder ordinal :=
  fun sb =>
    match attrToOrdinal sb !! a with
    | None =>
        let ord := length (attrs sb) in
        if maxUserAttribute <=? ord then panic Errorf_too_many_attributes
        else
          Returned (ord,
            mkSchema (name sb) (attrs sb ++ [a]) (attrTypes sb ++ [typ])
              (<[a := ord]> (attrToOrdinal sb)) (objects sb) (entityTypes sb)
              (entityTypeSchemas sb) (typeOrdinal sb) (selfOrdinal sb))
    | Some ord =>
        match attrTypes sb !! ord with
        | None => panic (runtime_Error "index out of range")
        | Some prev =>
            err ← checkType typ prev;
            match err with
            | Some err => panic (Wrapf_type_mismatch_for err a)
            | None => Returned (ord, sb)
            end
        end
    end.

(** [addTypeAttrMapping]. *)
Definition addTypeAttrMapping (a : Attr) (t : reflect.rtype) (sel : string)
  : builder fieldInfo :=
  let! r := lift (getOffsetAndTypeFromSelector t sel) in
  let '(offset, cur) := r in
  let '(flags, ok) := makeFieldFlags cur in
  if negb ok then
    lift (panic (Errorf_selector_has_unsupported_type sel t cur))
  else
    let typ := if isPtr flags && isScalar flags then elemOf cur else cur in
    let! ord := maybeAddAttribute a typ in
    mret (M:=builder) {| flags := flags;
            path := sel;
            attr := ord;
            f_typ := typ;
            value := makeValue flags cur offset;
            inline := makeInline flags cur offset;
            comparableValue :=
              makeComparableValue getComparableType flags cur typ offset |}.

(** The two nested loops of [maybeAddTypeMapping] that collect the field
    infos. *)
Fixpoint forSelectors (a : Attr) (t : reflect.rtype) (selectors : list string)
    (fieldInfos : list fieldInfo) : builder (list fieldInfo) :=
  match selectors with
  | [] => mret fieldInfos
  | sel :: selectors' =>
      let! fi := addTypeAttrMapping a t sel in
      forSelectors a t selectors' (fieldInfos ++ [fi])
  end.

Fixpoint forAttrMappings (t : reflect.rtype) (attributeMappings : list attrMapping)
    (fieldInfos : list fieldInfo) : builder (list fieldInfo) :=
  match attributeMappings with
  | [] => mret fieldInfos
  | am :: attributeMappings' =>
      let! fieldInfos' := forSelectors (am_a am) t (am_selectors am) fieldInfos in
      forAttrMappings t attributeMappings' fieldInfos'
  end.

(** [maybeAddTypeMapping]. *)
Definition maybeAddTypeMapping (t : reflect.rtype)
    (attributeMappings : list attrMapping) : builder unit :=
  if negb (isStructPointer t) then
    lift (panic (Errorf_is_not_a_pointer_to_a_struct t))
  else
    let! fieldInfos := forAttrMappings t attributeMappings [] in
    let fieldInfos := sort.Slice (fun x y => attr x <? attr y) fieldInfos in
    let attributeFields := groupByAttr (length fieldInfos) fieldInfos ∅ in
    fun sb =>
      let ts := {| typ := t;
                   fields := fieldInfos;
                   attrFields := attributeFields;
                   typID := length (entityTypes sb) |} in
      let p := length (objects sb) in
      Returned (tt,
        mkSchema (name sb) (attrs sb) (attrTypes sb) (attrToOrdinal sb)
          (objects sb ++ [ts]) (entityTypes sb ++ [p])
          (<[t := p]> (entityTypeSchemas sb))
          (typeOrdinal sb) (selfOrdinal sb)).

(** The loops of [buildSchema]. *)
Fixpoint forAttrTypes (l : list attrType) : builder unit :=
  match l with
  | [] => mret tt
  | t :: l' => let! _ := maybeAddAttribute (at_a t) (at_typ t) in forAttrTypes l'
  end.

Fixpoint forEntityMappings (l : list entityMapping) : builder unit :=
  match l with
  | [] => mret tt
  | tm :: l' =>
      let! _ := maybeAddTypeMapping (em_typ tm) (em_attrMappings tm) in
      forEntityMappings l'
  end.

Definition set_selfOrdinal : builder unit :=
  fun sb =>
    ord ← mustGetOrdinal sb Self;
    Returned (tt,
      mkSchema (name sb) (attrs sb) (attrTypes sb) (attrToOrdinal sb)
        (objects sb) (entityTypes sb) (entityTypeSchemas sb)
        (typeOrdinal sb) ord).

Definition set_typeOrdinal : builder unit :=
  fun sb =>
    ord ← mustGetOrdinal sb Type_;
    Returned (tt,
      mkSchema (name sb) (attrs sb) (attrTypes sb) (attrToOrdinal sb)
        (objects sb) (entityTypes sb) (entityTypeSchemas sb)
        ord (selfOrdinal sb)).

(** [buildSchema]. *)
Definition buildSchema (name : string) (opts : list SchemaOption) : result Schema :=
  let m := foldl (fun m opt => apply opt m) (mkSchemaMappings [] []) opts in
  let sb := mkSchema name [] [] ∅ [] [] ∅ 0 0 in
  let body : builder unit :=
    let! _ := forAttrTypes (m_attrTypes m) in
    let! _ := forEntityMappings (m_entityMappings m) in
    let! _ := maybeAddAttribute Self emptyInterfaceType in
    let! _ := set_selfOrdinal in
    let! _ := maybeAddAttribute Type_ reflectTypeType in
    let! _ := set_typeOrdinal in
    fun sb => Returned (tt, sort.Sort sb) in
  r ← body sb;
  mret (snd r).

(** [NewSchema]: the deferred function recovers whatever [buildSchema]
    panicked with and turns it into the error result; the schema result
    is then the zero value, nil. *)
Definition NewSchema (name : string) (opts : list SchemaOption)
  : option Schema * option error :=
  match buildSchema name opts with
  | Returned sc => (Some sc, None)
  | Panicked (panic_error r) => (None, Some (Wrap_failed_to_construct_schema r))
  | Panicked (panic_other r) =>
      (None, Some (AssertionFailedf_failed_to_construct_schema r))
  end.

(** [MustSchema]: the panic reaches the caller. *)
Definition MustSchema (name : string) (opts : list SchemaOption) : result Schema :=
  buildSchema name opts.

End Builder.

(** ** Specification vocabulary *)

(** Registering an attribute: a new one goes to the end, a known one changes
    nothing. *)
Definition registerAttr (l : list Attr) (a : Attr) : list Attr :=
  if decide (a ∈ l) then l else l ++ [a].

(** The attributes of a sequence of registrations, each at its first
    occurrence. *)
Definition firstOccurrences (l : list Attr) : list Attr := foldl registerAttr [] l.

(** The attributes a type mapping registers: one registration per selector. *)
Definition mappingAttrs (ams : list attrMapping) : list Attr :=
  ams ≫= (fun am => (fun _ => am_a am) <$> am_selectors am).

Definition mappingsOf (opts : list SchemaOption) : schemaMappings :=
  foldl (fun m opt => apply opt m) (mkSchemaMappings [] []) opts.

(** The attributes the caller's options register, in the order in which
    [buildSchema] registers them. *)
Definition userRegistrations (opts : list SchemaOption) : list Attr :=
  (at_a <$> m_attrTypes (mappingsOf opts))
  ++ (m_entityMappings (mappingsOf opts) ≫= (fun tm => mappingAttrs (em_attrMappings tm))).

(** All registrations of a build: the caller's, then [Self], then [Type]. *)
Definition registrations (opts : list SchemaOption) : list Attr :=
  userRegistrations opts ++ [Self; Type_].

(** The attribute table is consistent: the two slices have the same length
    and the map sends an attribute to the index at which the slice has it. *)
Definition attrs_inv (sb : Schema) : Prop :=
  length (attrs sb) = length (attrTypes sb)
  ∧ ∀ a i, attrToOrdinal sb !! a = Some i ↔ attrs sb !! i = Some a.

(** What an operation on the attribute table leaves alone. *)
Definition same_entities (sb sb' : Schema) : Prop :=
  name sb' = name sb ∧ objects sb' = objects sb
  ∧ entityTypes sb' = entityTypes sb
  ∧ entityTypeSchemas sb' = entityTypeSchemas sb.

Definition same_attrs (sb sb' : Schema) : Prop :=
  name sb' = name sb ∧ attrs sb' = attrs sb ∧ attrTypes sb' = attrTypes sb
  ∧ attrToOrdinal sb' = attrToOrdinal sb.

(** The builder went from [sb] to [sb'] registering the attributes [tr]: the
    attributes are those of [sb] followed by the new ones at their first
    occurrence, and no recorded type changed. *)
Definition registered (tr : list Attr) (sb sb' : Schema) : Prop :=
  attrs sb' = foldl registerAttr (attrs sb) tr
  ∧ attrTypes sb `prefix_of` attrTypes sb'.

(** Every field of an entity type names a registered attribute. *)
Definition fields_ok (sb : Schema) (fs : list fieldInfo) : Prop :=
  Forall (fun f => attr f < length (attrs sb)) fs.

Definition object_ok (sb : Schema) (ts : entityTypeSchema) : Prop :=
  isStructPointer (typ ts) = true ∧ fields_ok sb (fields ts).

(** The entity types are consistent: the slice holds each object once, the
    object at index [i] has [typID] [i], the map sends a type to an object of
    that type, and every object is well formed. *)
Definition heap_inv (sb : Schema) : Prop :=
  length (entityTypes sb) = length (objects sb)
  ∧ NoDup (entityTypes sb)
  ∧ (∀ i p, entityTypes sb !! i = Some p →
       ∃ ts, objects sb !! p = Some ts ∧ typID ts = i)
  ∧ (∀ t p, entityTypeSchemas sb !! t = Some p →
       ∃ ts, objects sb !! p = Some ts ∧ typ ts = t)
  ∧ size (entityTypeSchemas sb) ≤ length (entityTypes sb)
  ∧ Forall (object_ok sb) (objects sb).

(** The invariant of the builder, for a maximum [M] of attributes. *)
Definition builder_inv (M : ordinal) (sb : Schema) : Prop :=
  attrs_inv sb ∧ length (attrs sb) ≤ M ∧ heap_inv sb.

(** A valid schema: the builder's invariant, and the two reserved attributes
    resolve to the ordinals the schema records for them. *)
Definition Schema_valid (M : ordinal) (sc : Schema) : Prop :=
  builder_inv M sc
  ∧ attrToOrdinal sc !! Self = Some (selfOrdinal sc)
  ∧ attrToOrdinal sc !! Type_ = Some (typeOrdinal sc).

(** Where the element that [Swap(i, j)] leaves at index [k] came from. *)
Definition swapIndex (i j k : nat) : nat :=
  if decide (k = j) then i else if decide (k = i) then j else k.

(** One or more builder steps from [sb] to [sb'] that registered [tr]. *)
Definition advance (M : ordinal) (tr : list Attr) (sb sb' : Schema) : Prop :=
  builder_inv M sb' ∧ registered tr sb sb' ∧ name sb' = name sb.

(** A step that succeeded under the maximum [M1] did not lose attributes,
    and succeeds in the same way under any maximum [M2] that its result
    respects. *)
Definition bound_irrelevant_between (M1 M2 : ordinal) {A}
    (op : ordinal → builder A) : Prop :=
  ∀ sb x sb', op M1 sb = Returned (x, sb') →
    length (attrs sb) ≤ length (attrs sb')
    ∧ (length (attrs sb') ≤ M2 → op M2 sb = Returned (x, sb')).

(** The claim that the reserved attributes have the highest ordinals:
    every other attribute of the schema has a smaller ordinal than both. *)
Definition reserved_highest (sc : Schema) : Prop :=
  ∀ a i, attrToOrdinal sc !! a = Some i → a ≠ Self → a ≠ Type_ →
         i < selfOrdinal sc ∧ i < typeOrdinal sc.

(** Attribute type validation in the words of the spec: a later use of an
    attribute is accepted when its type is exactly the type fixed at the
    first use, or when the fixed type is an interface that the new type
    implements. *)
Definition typeAccepted (typ prev : reflect.rtype) : bool :=
  bool_decide (typ = prev)
  || (bool_decide (reflect.kind prev = reflect.Interface)
      && match reflect.Implements typ prev with
         | reflect.Val b => b
         | reflect.RuntimePanic _ => false
         end).

(** The error of a rejected use: it names the attribute, the new type and
    the fixed type. *)
Definition typeMismatch (a : Attr) (typ prev : reflect.rtype) : error :=
  Wrapf_type_mismatch_for
    (if bool_decide (reflect.kind prev = reflect.Interface)
     then Errorf_does_not_implement typ prev
     else Errorf_is_not typ prev)
    a.

(** A field name: it has no dot in it. *)
Fixpoint noDot (s : string) : bool :=
  match s with
  | EmptyString => true
  | String c r => negb (Ascii.eqb c "."%char) && noDot r
  end.

(** The rank of a record type in a schema: the [typID] of the entity type
    schema the schema has for it. *)
Definition typeRank (sc : Schema) (t : reflect.rtype) : option nat :=
  typID <$> entityTypeSchemaOf sc t.

(** The record types the options map, in registration order. *)
Definition mappedTypes (opts : list SchemaOption) : list reflect.rtype :=
  em_typ <$> m_entityMappings (mappingsOf opts).

(** The type of the object a pointer points to, and the slice of entity
    types read as the types of its elements. *)
Definition typeOf (e : Schema) (p : nat) : reflect.rtype :=
  from_option typ emptyInterfaceType (objects e !! p).

Definition sliceTypes (e : Schema) : list reflect.rtype :=
  typeOf e <$> entityTypes e.

(** [a] is less than [b], both being types of [ts]. *)
Definition lessOn (compareTypes : reflect.rtype -> reflect.rtype -> bool * bool)
    (ts : list reflect.rtype) (a b : reflect.rtype) : Prop :=
  a ∈ ts ∧ b ∈ ts ∧ fst (compareTypes a b) = true.

(** The comparison is a strict total order on the types of [ts]. *)
Definition strictTotalOn (compareTypes : reflect.rtype -> reflect.rtype -> bool * bool)
    (ts : list reflect.rtype) : Prop :=
  (∀ a, a ∈ ts → fst (compareTypes a a) = false)
  ∧ (∀ a b c, a ∈ ts → b ∈ ts → c ∈ ts →
       fst (compareTypes a b) = true → fst (compareTypes b c) = true →
       fst (compareTypes a c) = true)
  ∧ (∀ a b, a ∈ ts → b ∈ ts → a ≠ b →
       fst (compareTypes a b) = true ∨ fst (compareTypes b a) = true).

(** The entity types of a builder are the record types [ts], each mapped
    once, in registration order and not yet sorted. *)
Definition entities_inv (ts : list reflect.rtype) (sb : Schema) : Prop :=
  entityTypes sb = seq 0 (length ts)
  ∧ typ <$> objects sb = ts
  ∧ size (entityTypeSchemas sb) = length ts
  ∧ ∀ t p, entityTypeSchemas sb !! t = Some p ↔ ts !! p = Some t.

(** *** The entity type schemas of a built schema *)

(** The field info [fi] is what [addTypeAttrMapping] makes of its own path
    on the record type [t]: the selector resolves to an offset and a type
    that the classifier supports, and the three accessors are the ones
    built for them. *)
Definition field_resolved (getComparableType : reflect.rtype -> reflect.rtype)
    (t : reflect.rtype) (fi : fieldInfo) : Prop :=
  ∃ offset cur,
    getOffsetAndTypeFromSelector t (path fi) = Returned (offset, cur)
    ∧ makeFieldFlags cur = (flags fi, true)
    ∧ f_typ fi = (if isPtr (flags fi) && isScalar (flags fi)
                  then elemOf cur else cur)
    ∧ value fi = makeValue (flags fi) cur offset
    ∧ inline fi = makeInline (flags fi) cur offset
    ∧ comparableValue fi
      = makeComparableValue getComparableType (flags fi) cur (f_typ fi) offset.

(** The type of the field is accepted by the type the schema records for
    the attribute of the field. *)
Definition field_typed (sb : Schema) (fi : fieldInfo) : Prop :=
  ∃ prev, attrTypes sb !! attr fi = Some prev
          ∧ typeAccepted (f_typ fi) prev = true.

(** The field info made for the selector [sel], mapped to the attribute
    [a], of the record type [t]. *)
Definition field_of (getComparableType : reflect.rtype -> reflect.rtype)
    (sb : Schema) (t : reflect.rtype) (a : Attr) (sel : string)
    (fi : fieldInfo) : Prop :=
  path fi = sel ∧ attrs sb !! attr fi = Some a
  ∧ field_resolved getComparableType t fi ∧ field_typed sb fi.

(** The pairs of an attribute and a selector that a type mapping lists, in
    the order in which [maybeAddTypeMapping] visits them. *)
Definition mappingSelectors (ams : list attrMapping) : list (Attr * string) :=
  ams ≫= (fun am => (fun sel => (am_a am, sel)) <$> am_selectors am).

Definition sortedByAttr (fs : list fieldInfo) : Prop :=
  StronglySorted (fun x y => attr x ≤ attr y) fs.

(** The fields that carry the ordinal [o]. *)
Definition fieldsOf (o : ordinal) (fs : list fieldInfo) : list fieldInfo :=
  filter (fun f => attr f = o) fs.

(** [attrFields] has, for every ordinal that some field carries, the fields
    that carry it, and no other entry. *)
Definition grouped (fs : list fieldInfo) (m : gmap nat (list fieldInfo)) : Prop :=
  ∀ o, m !! o = match fieldsOf o fs with
                | [] => None
                | l => Some l
                end.

(** The entity type schema [ts] is the one built for the type mapping
    [tm]: one field for each selector, the fields sorted by ordinal and
    grouped in [attrFields]. *)
Definition object_of (getComparableType : reflect.rtype -> reflect.rtype)
    (sb : Schema) (tm : entityMapping) (ts : entityTypeSchema) : Prop :=
  typ ts = em_typ tm
  ∧ (∃ made,
       Forall2 (fun p fi => field_of getComparableType sb (em_typ tm) p.1 p.2 fi)
         (mappingSelectors (em_attrMappings tm)) made
       ∧ fields ts ≡ₚ made)
  ∧ sortedByAttr (fields ts)
  ∧ grouped (fields ts) (attrFields ts).

(** The last type mapping of the record type [t] among [l]. *)
Definition lastMapping (t : reflect.rtype) (l : list entityMapping)
  : option entityMapping :=
  last (filter (fun tm => em_typ tm = t) l).

(** The builder has processed the type mappings [l]: the store has one
    entity type schema for each, in order, and the map has, for a record
    type, the schema of its last mapping. *)
Definition mappings_inv (getComparableType : reflect.rtype -> reflect.rtype)
    (l : list entityMapping) (sb : Schema) : Prop :=
  Forall2 (object_of getComparableType sb) l (objects sb)
  ∧ ∀ t, match lastMapping t l with
         | None => entityTypeSchemas sb !! t = None
         | Some tm =>
             ∃ p ts, entityTypeSchemas sb !! t = Some p
                     ∧ objects sb !! p = Some ts
                     ∧ object_of getComparableType sb tm ts
         end.

(** [b] is [a] with, possibly, another [typID]. *)
Definition renumbered (a b : entityTypeSchema) : Prop :=
  typ b = typ a ∧ fields b = fields a ∧ attrFields b = attrFields a.

(** No use of the attribute [a] has fixed a type of interface kind. *)
Definition fixed_by_field (a : Attr) (sb : Schema) : Prop :=
  ∀ i ty, attrs sb !! i = Some a → attrTypes sb !! i = Some ty →
          reflect.kind ty ≠ reflect.Interface.

(** The error [NewSchema] returns for what the build panicked with. *)
Definition recovered (r : panicValue) : error :=
  match r with
  | panic_error e => Wrap_failed_to_construct_schema e
  | panic_other v => AssertionFailedf_failed_to_construct_schema v
  end.

(** ** Example types and configurations *)

Module Example.

Definition int64 : reflect.rtype := reflect.Basic reflect.Int64 "int64" [] [].
Definition string_ : reflect.rtype := reflect.Basic reflect.String "string" [] [].
Definition float64 : reflect.rtype := reflect.Basic reflect.Float64 "float64" [] [].

(** [Type.String]. *)
Fixpoint typeString (t : reflect.rtype) : string :=
  match t with
  | reflect.Basic _ n _ _ => n
  | reflect.InterfaceOf n _ => n
  | reflect.PtrTo e => "*" ++ typeString e
  | reflect.StructOf n _ _ _ => n
  end.

(** Modelled from the spec: [compareTypes] is declared outside this file.
    It is "a deterministic total order over type identity — a primary key
    derived from the type's fully qualified name, with a structural
    tiebreak if names collide"; it returns whether the first type is less
    and whether the two are equal. *)
Definition compareTypes (a b : reflect.rtype) : bool * bool :=
  if decide (a = b) then (false, true)
  else if String.ltb (typeString a) (typeString b) then (true, false)
  else if String.ltb (typeString b) (typeString a) then (false, false)
  else (Pos.ltb (encode a) (encode b), false).

(** Modelled from the spec: [getComparableType] is declared outside this
    file; it gives the "canonicalized comparable form" of a scalar type,
    the predeclared type of its kind. *)
Definition getComparableType (t : reflect.rtype) : reflect.rtype :=
  match reflect.kind t with
  | reflect.String => string_
  | reflect.Int64 => int64
  | k => reflect.Basic k "" [] []
  end.

Definition maxUserAttribute : ordinal := 8.

Definition build (M : ordinal) (opts : list SchemaOption) : result Schema :=
  buildSchema M compareTypes getComparableType "example" opts.

Definition isReturned {A} (r : result A) : bool :=
  match r with
  | Returned _ => true
  | Panicked _ => false
  end.

(** What a build returned; the empty schema stands for a panic. *)
Definition built (M : ordinal) (opts : list SchemaOption) : Schema :=
  match build M opts with
  | Returned sc => sc
  | Panicked _ => mkSchema "" [] [] ∅ [] [] ∅ 0 0
  end.

(** [type Inner struct { B int64 }], [type Node struct { ID int64; A Inner;
    Name *string; Count *int64; Next *Node' }] and two record types [A]
    and [B] with one field each. *)
Definition Inner : reflect.rtype :=
  reflect.StructOf "Inner" (reflect.FCons "B" 0 int64 reflect.FNil) [] [].

Definition Leaf : reflect.rtype :=
  reflect.StructOf "Leaf" (reflect.FCons "ID" 0 int64 reflect.FNil) [] [].

Definition Node : reflect.rtype :=
  reflect.StructOf "Node"
    (reflect.FCons "ID" 0 int64
    (reflect.FCons "A" 8 Inner
    (reflect.FCons "Name" 16 (reflect.PtrTo string_)
    (reflect.FCons "Count" 24 (reflect.PtrTo int64)
    (reflect.FCons "Next" 32 (reflect.PtrTo Leaf)
    (reflect.FCons "Weight" 40 float64 reflect.FNil))))))
    [] [].

Definition A : reflect.rtype :=
  reflect.StructOf "A" (reflect.FCons "X" 0 int64 reflect.FNil) [] [].

Definition B : reflect.rtype :=
  reflect.StructOf "B" (reflect.FCons "X" 0 int64 reflect.FNil) [] [].

Definition mapA : SchemaOption := EntityMapping (reflect.PtrTo A) [].
Definition mapB : SchemaOption := EntityMapping (reflect.PtrTo B) [].

(** A configuration with one declared attribute, and one that declares
    the reserved attribute [Self] itself, before an attribute of its
    own. *)
Definition oneAttr : list SchemaOption := [AttrType (UserAttr "x") int64].

Definition selfFirst : list SchemaOption :=
  [AttrType Self emptyInterfaceType; AttrType (UserAttr "x") int64].

Definition nodeMapping : list SchemaOption :=
  [EntityMapping (reflect.PtrTo Node)
     [mkAttrMapping (UserAttr "id") ["ID"];
      mkAttrMapping (UserAttr "b") ["A.B"];
      mkAttrMapping (UserAttr "name") ["Name"];
      mkAttrMapping (UserAttr "count") ["Count"];
      mkAttrMapping (UserAttr "next") ["Next"]]].

(** Single field mappings of [*Node], from the empty builder. *)
Definition init : Schema := mkSchema "example" [] [] ∅ [] [] ∅ 0 0.

Definition mapField (a : string) (sel : string) : result (fieldInfo * Schema) :=
  addTypeAttrMapping maxUserAttribute getComparableType (UserAttr a)
    (reflect.PtrTo Node) sel init.

(** The fields of the entity type schema of [*Node], sorted by ordinal:
    "ID", "A.B", "Name", "Count", "Next". *)
Definition nodeFields : list fieldInfo :=
  match objects (built maxUserAttribute nodeMapping) with
  | ts :: _ => fields ts
  | [] => []
  end.

(** [struct { F T }] and [struct { G *T }], for a type [T]. *)
Definition plainOf (T : reflect.rtype) : reflect.rtype :=
  reflect.StructOf "Plain" (reflect.FCons "F" 0 T reflect.FNil) [] [].

Definition optionalOf (T : reflect.rtype) : reflect.rtype :=
  reflect.StructOf "Optional"
    (reflect.FCons "G" 0 (reflect.PtrTo T) reflect.FNil) [] [].

Definition mapPlain (a : Attr) (T : reflect.rtype) : SchemaOption :=
  EntityMapping (reflect.PtrTo (plainOf T)) [mkAttrMapping a ["F"]].

Definition mapOptional (a : Attr) (T : reflect.rtype) : SchemaOption :=
  EntityMapping (reflect.PtrTo (optionalOf T)) [mkAttrMapping a ["G"]].

(** A memory with two [Node] entities, at 1000 and at 2000.  Both have
    [ID] 42.  The first has [Count] pointing at 5000, where a 7 is stored,
    and [Next] pointing at 7000; the second has neither set.  Two [Leaf]
    entities, at 7000 and 7100, both have [ID] 0: they are field-wise
    equal.  A third [Node], at 3000, has [Next] pointing at 7100. *)
Definition memory : reflect.memory :=
  reflect.mkMemory
    (fun a => match a with
              | 1000 | 2000 => 42
              | 5000 => 7
              | _ => 0
              end)%Z
    (fun a => "")
    (fun a => match a with
              | 1024 => 5000
              | 1032 => 7000
              | 3032 => 7100
              | _ => 0
              end)%Z.

(** A memory that holds -1 at every address, and no pointer. *)
Definition minusOne : reflect.memory :=
  reflect.mkMemory (fun a => (-1)%Z) (fun a => "") (fun a => 0%Z).

(** A configuration that maps the reserved attribute [Self] to a field, and
    one that maps the record type [*B] twice. *)
Definition selfMapped : list SchemaOption :=
  [EntityMapping (reflect.PtrTo Node) [mkAttrMapping Self ["ID"]]].

Definition duplicates : list SchemaOption := [mapA; mapB; mapB].

End Example.

(** ** The ordinal registry *)

Section Registry.

Variable maxUserAttribute : ordinal.

Lemma registerAttr_In l a : a ∈ registerAttr l a.
Proof.
  unfold registerAttr. case_decide; [done|].
  apply elem_of_app. right. by apply list_elem_of_singleton.
Qed.

Lemma foldl_registerAttr_app l tr1 tr2 :
  foldl registerAttr l (tr1 ++ tr2) = foldl registerAttr (foldl registerAttr l tr1) tr2.
Proof. apply foldl_app. Qed.

Lemma foldl_registerAttr_prefix tr l : l `prefix_of` foldl registerAttr l tr.
Proof.
  revert l. induction tr as [|a tr IH]; intros l; simpl; [done|].
  etrans; [|apply IH]. unfold registerAttr. case_decide; [done|].
  by apply prefix_app_r.
Qed.

Lemma registered_refl sb : registered [] sb sb.
Proof. split; done. Qed.

Lemma registered_trans tr1 tr2 sb1 sb2 sb3 :
  registered tr1 sb1 sb2 → registered tr2 sb2 sb3 →
  registered (tr1 ++ tr2) sb1 sb3.
Proof.
  intros [H1 P1] [H2 P2]. split.
  - by rewrite foldl_registerAttr_app, <- H1.
  - by etrans.
Qed.

Lemma attrs_inv_In sb a :
  attrs_inv sb → (a ∈ attrs sb ↔ is_Some (attrToOrdinal sb !! a)).
Proof.
  intros [_ H]. rewrite list_elem_of_lookup. split.
  - intros [i Hi]. exists i. by apply H.
  - intros [i Hi]. exists i. by apply H.
Qed.

Lemma attrs_inv_NoDup sb : attrs_inv sb → NoDup (attrs sb).
Proof.
  intros [_ H]. apply NoDup_alt. intros i j a Hi Hj.
  apply H in Hi, Hj. congruence.
Qed.

Lemma attrs_inv_lt sb a i :
  attrs_inv sb → attrToOrdinal sb !! a = Some i → i < length (attrs sb).
Proof. intros [_ H] Hi. apply H in Hi. by eapply lookup_lt_Some. Qed.

(** What a successful [maybeAddAttribute] did. *)
Lemma maybeAddAttribute_Returned a typ sb ord sb' :
  attrs_inv sb →
  maybeAddAttribute maxUserAttribute a typ sb = Returned (ord, sb') →
  attrs_inv sb' ∧ registered [a] sb sb' ∧ same_entities sb sb'
  ∧ typeOrdinal sb' = typeOrdinal sb ∧ selfOrdinal sb' = selfOrdinal sb
  ∧ attrToOrdinal sb' !! a = Some ord
  ∧ (length (attrs sb) ≤ maxUserAttribute → length (attrs sb') ≤ maxUserAttribute).
Proof.
  intros Hinv. pose proof Hinv as [Hlen Hmap]. unfold maybeAddAttribute.
  destruct (attrToOrdinal sb !! a) as [o|] eqn:Ha.
  - destruct (attrTypes sb !! o) as [prev|]; [|discriminate].
    destruct (checkType typ prev) as [[err|]|]; simpl; try discriminate.
    intros [= <- <-]. split_and!; try done.
    split; [|done]. simpl. unfold registerAttr. rewrite decide_True; [done|].
    apply attrs_inv_In; eauto.
  - destruct (maxUserAttribute <=? length (attrs sb)) eqn:Hmax; [discriminate|].
    apply Nat.leb_gt in Hmax.
    intros [= <- <-]. simpl.
    assert (a ∉ attrs sb) as Hnotin.
    { rewrite attrs_inv_In by done. rewrite Ha. by intros [? ?]. }
    split_and!; simpl; try done.
    + split; simpl.
      * rewrite !length_app. simpl. lia.
      * intros a0 i. split; intros Hi.
        -- destruct (decide (a0 = a)) as [->|Hne].
           ++ rewrite lookup_insert_eq in Hi. injection Hi as <-.
              rewrite lookup_app_r by lia. by rewrite Nat.sub_diag.
           ++ rewrite lookup_insert_ne in Hi by done.
              apply Hmap in Hi. by apply lookup_app_l_Some.
        -- destruct (decide (a0 = a)) as [->|Hne].
           ++ rewrite lookup_insert_eq. f_equal.
              apply lookup_app_Some in Hi as [Hi|[Hge Hi]].
              ** exfalso. apply Hnotin. by eapply list_elem_of_lookup_2.
              ** apply list_lookup_singleton_Some in Hi as [Hi _]. lia.
           ++ rewrite lookup_insert_ne by done. apply Hmap.
              apply lookup_app_Some in Hi as [Hi|[Hge Hi]]; [done|].
              apply list_lookup_singleton_Some in Hi as [_ Hi]. congruence.
    + split; simpl.
      * unfold registerAttr. by rewrite decide_False.
      * by apply prefix_app_r.
    + by rewrite lookup_insert_eq.
    + rewrite length_app. simpl. lia.
Qed.

End Registry.

(** ** Entity types and the canonical sort *)

Section EntityTypes.

Variable compareTypes : reflect.rtype -> reflect.rtype -> bool * bool.

Local Abbreviation Swap := (@sort.Swap Schema (entityTypeSchemaSort compareTypes)).
Local Abbreviation Sort := (@sort.Sort Schema (entityTypeSchemaSort compareTypes)).

Lemma Swap_same_attrs e i j :
  same_attrs e (Swap e i j)
  ∧ typeOrdinal (Swap e i j) = typeOrdinal e
  ∧ selfOrdinal (Swap e i j) = selfOrdinal e
  ∧ entityTypeSchemas (Swap e i j) = entityTypeSchemas e.
Proof.
  simpl. destruct (entityTypes e !! i), (entityTypes e !! j); by repeat split.
Qed.

Lemma Swap_lookup e i j p q k :
  entityTypes e !! i = Some p → entityTypes e !! j = Some q →
  entityTypes (Swap e i j) !! k = entityTypes e !! swapIndex i j k.
Proof.
  intros Hi Hj. simpl. rewrite Hi, Hj. simpl. unfold swapIndex.
  apply lookup_lt_Some in Hi as Hilt. apply lookup_lt_Some in Hj as Hjlt.
  rewrite list_lookup_insert, length_insert.
  destruct (decide (k = j)) as [->|Hkj].
  - rewrite decide_True; done.
  - rewrite decide_False by (intros [? _]; congruence).
    rewrite list_lookup_insert.
    destruct (decide (k = i)) as [->|Hki].
    + rewrite decide_True; done.
    + rewrite decide_False; [done|]. intros [? _]; congruence.
Qed.

Lemma swapIndex_inj i j k1 k2 : swapIndex i j k1 = swapIndex i j k2 → k1 = k2.
Proof. unfold swapIndex. repeat case_decide; congruence. Qed.

Lemma Swap_heap_inv e i j : heap_inv e → heap_inv (Swap e i j).
Proof.
  intros Hinv.
  destruct (entityTypes e !! i) as [p|] eqn:Hi; [|by simpl; rewrite Hi].
  destruct (entityTypes e !! j) as [q|] eqn:Hj; [|by simpl; rewrite Hi, Hj].
  pose proof (Swap_lookup e i j p q) as Hlk.
  specialize (fun k => Hlk k Hi Hj).
  destruct Hinv as (Hlen & Hnd & Hid & Hmap & Hsize & Hobj).
  assert (objects (Swap e i j)
          = alter (set_typID i) q (alter (set_typID j) p (objects e))) as Hobjs.
  { simpl. by rewrite Hi, Hj. }
  assert (length (entityTypes (Swap e i j)) = length (entityTypes e)) as Hlen'.
  { simpl. rewrite Hi, Hj. simpl. by rewrite !length_insert. }
  assert (entityTypeSchemas (Swap e i j) = entityTypeSchemas e) as Hm'.
  { apply Swap_same_attrs. }
  assert (attrs (Swap e i j) = attrs e) as Hattrs.
  { apply Swap_same_attrs. }
  assert (∀ r ts, objects e !! r = Some ts →
            ∃ ts', objects (Swap e i j) !! r = Some ts'
                   ∧ typ ts' = typ ts ∧ fields ts' = fields ts
                   ∧ typID ts' = if decide (r = q) then i
                                 else if decide (r = p) then j
                                 else typID ts) as Hobj'.
  { intros r ts Hr. rewrite Hobjs.
    destruct (decide (r = q)) as [->|Hq].
    - rewrite list_lookup_alter_eq. destruct (decide (q = p)) as [->|Hp].
      + rewrite list_lookup_alter_eq, Hr. simpl. by eexists.
      + rewrite list_lookup_alter_ne by done. rewrite Hr. simpl. by eexists.
    - rewrite list_lookup_alter_ne by done.
      destruct (decide (r = p)) as [->|Hp].
      + rewrite list_lookup_alter_eq, Hr. simpl. by eexists.
      + rewrite list_lookup_alter_ne by done. by eexists. }
  rewrite NoDup_alt in Hnd.
  split_and!.
  - rewrite Hlen', Hobjs. by rewrite !length_alter.
  - apply NoDup_alt. intros k1 k2 x. rewrite !Hlk. intros H1 H2.
    eapply swapIndex_inj, Hnd; eauto.
  - intros k r. rewrite Hlk. intros Hr.
    destruct (Hid _ _ Hr) as (ts & Hts & Hk).
    destruct (Hobj' _ _ Hts) as (ts' & Hts' & _ & _ & Hid').
    exists ts'. split; [done|]. rewrite Hid'. clear Hid' Hobj'.
    unfold swapIndex in *.
    destruct (decide (k = j)) as [->|Hkj].
    + assert (r = p) as -> by congruence.
      destruct (decide (p = q)) as [->|Hpq]; [|by rewrite decide_True].
      by eapply Hnd.
    + destruct (decide (k = i)) as [->|Hki].
      * assert (r = q) as -> by congruence. by rewrite decide_True.
      * rewrite !decide_False; [done| |].
        -- intros ->. apply Hki. by eapply Hnd.
        -- intros ->. apply Hkj. by eapply Hnd.
  - intros t r. rewrite Hm'. intros Hr.
    destruct (Hmap _ _ Hr) as (ts & Hts & Ht).
    destruct (Hobj' _ _ Hts) as (ts' & Hts' & Ht' & _).
    exists ts'. split; [done|]. congruence.
  - by rewrite Hm', Hlen'.
  - apply Forall_lookup. intros r ts' Hr.
    assert (is_Some (objects e !! r)) as [ts Hts].
    { apply lookup_lt_is_Some. apply lookup_lt_Some in Hr.
      rewrite Hobjs, !length_alter in Hr. done. }
    rewrite Forall_lookup in Hobj. specialize (Hobj _ _ Hts).
    destruct (Hobj' _ _ Hts) as (ts'' & Hts'' & Ht' & Hf' & _).
    simplify_eq. destruct Hobj as [Hsp Hf]. split.
    + by rewrite Ht'.
    + unfold fields_ok. by rewrite Hf', Hattrs.
Qed.

(** Whatever [Swap] preserves, [sort.Sort] preserves. *)
Lemma Sort_preserves (P : Schema → Prop) :
  (∀ e i j, P e → P (Swap e i j)) → ∀ e, P e → P (Sort e).
Proof.
  intros HP e. unfold sort.Sort, sort.insertionSort.
  generalize (seq 1 (@sort.Len _ (entityTypeSchemaSort compareTypes) e - 1)).
  intros l. revert e.
  induction l as [|k l IH]; intros e He; simpl; [done|].
  apply IH. clear IH l. revert e He.
  induction k as [|k IH]; intros e He; simpl; [done|].
  destruct (match entityTypeAt e (S k) with
            | Some a => match entityTypeAt e k with
                        | Some b => fst (compareTypes (typ a) (typ b))
                        | None => false
                        end
            | None => false
            end); [|done].
  apply IH. by apply HP.
Qed.

Lemma Sort_heap_inv e : heap_inv e → heap_inv (Sort e).
Proof. apply Sort_preserves. intros. by apply Swap_heap_inv. Qed.

Lemma Sort_same_attrs e :
  same_attrs e (Sort e)
  ∧ typeOrdinal (Sort e) = typeOrdinal e
  ∧ selfOrdinal (Sort e) = selfOrdinal e
  ∧ entityTypeSchemas (Sort e) = entityTypeSchemas e.
Proof.
  apply (Sort_preserves (fun e' =>
    same_attrs e e' ∧ typeOrdinal e' = typeOrdinal e
    ∧ selfOrdinal e' = selfOrdinal e
    ∧ entityTypeSchemas e' = entityTypeSchemas e)).
  - intros e' i j ((?&?&?&?)&?&?&?).
    destruct (Swap_same_attrs e' i j) as ((?&?&?&?)&?&?&?).
    unfold same_attrs. split_and!; congruence.
  - by repeat split.
Qed.

End EntityTypes.

(** ** The builder keeps its invariant *)

Lemma builder_bind_Returned {A B} (c : builder A) (k : A → builder B) sb r :
  mbind (M:=builder) k c sb = Returned r →
  ∃ a sb1, c sb = Returned (a, sb1) ∧ k a sb1 = Returned r.
Proof.
  unfold mbind, builder_bind. destruct (c sb) as [[a sb1]|]; [|done]. eauto.
Qed.

Lemma builder_bind_eq {A B} (c : builder A) (k : A → builder B) sb a sb1 :
  c sb = Returned (a, sb1) → mbind (M:=builder) k c sb = k a sb1.
Proof. intros H. unfold mbind, builder_bind. by rewrite H. Qed.

Lemma lift_Returned {A} (r : result A) sb a sb' :
  lift r sb = Returned (a, sb') → r = Returned a ∧ sb' = sb.
Proof. unfold lift. destruct r; [|done]. by intros [= -> ->]. Qed.

Ltac bind_inv H :=
  let a := fresh "x" in
  let sb1 := fresh "sb" in
  let H1 := fresh "Hstep" in
  apply builder_bind_Returned in H as (a & sb1 & H1 & H).

Lemma sink_Forall {A} (P : A → Prop) less x l :
  P x → Forall P l → Forall P (sort.sink less x l).
Proof.
  intros Hx. induction 1 as [|y l Hy Hl IH]; simpl.
  - by constructor.
  - destruct (less x y); repeat constructor; done.
Qed.

Lemma Slice_Forall {A} (P : A → Prop) less (l : list A) :
  Forall P l → Forall P (sort.Slice less l).
Proof.
  intros Hl. unfold sort.Slice. apply Forall_rev.
  assert (Forall P (@nil A)) as Hacc by constructor.
  revert Hacc. generalize (@nil A) as acc.
  induction Hl as [|x l Hx Hl IH]; intros acc Hacc; simpl; [done|].
  apply IH. by apply sink_Forall.
Qed.

Section Build.

Variable M : ordinal.
Variable compareTypes : reflect.rtype -> reflect.rtype -> bool * bool.
Variable getComparableType : reflect.rtype -> reflect.rtype.

Lemma registered_length tr sb sb' :
  registered tr sb sb' → length (attrs sb) ≤ length (attrs sb').
Proof.
  intros [-> _]. apply prefix_length, foldl_registerAttr_prefix.
Qed.

Lemma registered_lookup tr sb sb' a i :
  attrs_inv sb → attrs_inv sb' → registered tr sb sb' →
  attrToOrdinal sb !! a = Some i → attrToOrdinal sb' !! a = Some i.
Proof.
  intros [_ H] [_ H'] [Hattrs _] Hi. apply H'. apply H in Hi.
  rewrite Hattrs. eapply prefix_lookup_Some; [done|].
  apply foldl_registerAttr_prefix.
Qed.

Lemma fields_ok_grow sb sb' fs :
  length (attrs sb) ≤ length (attrs sb') → fields_ok sb fs → fields_ok sb' fs.
Proof.
  intros Hle Hfs. eapply Forall_impl; [done|]. simpl. intros f Hf. lia.
Qed.

Lemma heap_inv_grow sb sb' :
  heap_inv sb → same_entities sb sb' →
  length (attrs sb) ≤ length (attrs sb') → heap_inv sb'.
Proof.
  intros (Hlen & Hnd & Hid & Hmap & Hsize & Hobj) (_ & Ho & He & Hm) Hle.
  unfold heap_inv. rewrite Ho, He, Hm. split_and!; try done.
  eapply Forall_impl; [done|]. intros ts [? ?]. split; [done|].
  by eapply fields_ok_grow.
Qed.

Lemma advance_refl sb : builder_inv M sb → advance M [] sb sb.
Proof. intros. split_and!; done || apply registered_refl. Qed.

Lemma advance_trans tr1 tr2 sb1 sb2 sb3 :
  advance M tr1 sb1 sb2 → advance M tr2 sb2 sb3 →
  advance M (tr1 ++ tr2) sb1 sb3.
Proof.
  intros (_ & R1 & N1) (I3 & R2 & N2). split_and!; [done| |congruence].
  by eapply registered_trans.
Qed.

Lemma maybeAddAttribute_advance a typ sb ord sb' :
  builder_inv M sb →
  maybeAddAttribute M a typ sb = Returned (ord, sb') →
  advance M [a] sb sb' ∧ same_entities sb sb'
  ∧ typeOrdinal sb' = typeOrdinal sb ∧ selfOrdinal sb' = selfOrdinal sb
  ∧ attrToOrdinal sb' !! a = Some ord.
Proof.
  intros (Ha & Hle & Hh) Hrun.
  destruct (maybeAddAttribute_Returned M a typ sb ord sb' Ha Hrun)
    as (Ha' & Hreg & Hsame & Ht & Hs & Hord & Hmax).
  split_and!; try done.
  split_and!; try done.
  - split_and!; [done|by apply Hmax|].
    eapply heap_inv_grow; [done..|]. by eapply registered_length.
  - apply Hsame.
Qed.

Lemma addTypeAttrMapping_advance a t sel sb fi sb' :
  builder_inv M sb →
  addTypeAttrMapping M getComparableType a t sel sb = Returned (fi, sb') →
  advance M [a] sb sb' ∧ same_entities sb sb'
  ∧ attr fi < length (attrs sb').
Proof.
  intros Hinv Hrun. unfold addTypeAttrMapping in Hrun.
  bind_inv Hrun. destruct x as [offset cur].
  apply lift_Returned in Hstep as [_ ->].
  destruct (makeFieldFlags cur) as [flags ok]. destruct ok; simpl in Hrun.
  - bind_inv Hrun.
    destruct (maybeAddAttribute_advance _ _ _ _ _ Hinv Hstep)
      as (Hadv & Hsame & _ & _ & Hord).
    injection Hrun as <- <-. simpl. split_and!; try done.
    destruct Hadv as ((Ha & _) & _). by eapply attrs_inv_lt.
  - discriminate.
Qed.

Lemma same_entities_trans sb1 sb2 sb3 :
  same_entities sb1 sb2 → same_entities sb2 sb3 → same_entities sb1 sb3.
Proof. intros (?&?&?&?) (?&?&?&?). unfold same_entities. split_and!; congruence. Qed.

Lemma same_entities_refl sb : same_entities sb sb.
Proof. by repeat split. Qed.

Lemma forSelectors_advance a t sels : ∀ acc sb fis sb',
  builder_inv M sb → fields_ok sb acc →
  forSelectors M getComparableType a t sels acc sb = Returned (fis, sb') →
  advance M ((fun _ => a) <$> sels) sb sb' ∧ same_entities sb sb'
  ∧ fields_ok sb' fis.
Proof.
  induction sels as [|sel sels IH]; intros acc sb fis sb' Hinv Hacc Hrun; simpl in *.
  - injection Hrun as <- <-. split_and!; [by apply advance_refl|apply same_entities_refl|done].
  - bind_inv Hrun.
    destruct (addTypeAttrMapping_advance _ _ _ _ _ _ Hinv Hstep)
      as (Hadv & Hsame & Hattr).
    pose proof Hadv as (Hinv1 & Hreg1 & _).
    eapply IH in Hrun as (Hadv' & Hsame' & Hok); [|done|].
    + split_and!; [|by eapply same_entities_trans|done].
      by eapply (advance_trans [a]).
    + apply Forall_app. split.
      * eapply fields_ok_grow; [|done]. by eapply registered_length.
      * by repeat constructor.
Qed.

Lemma forAttrMappings_advance t ams : ∀ acc sb fis sb',
  builder_inv M sb → fields_ok sb acc →
  forAttrMappings M getComparableType t ams acc sb = Returned (fis, sb') →
  advance M (mappingAttrs ams) sb sb' ∧ same_entities sb sb'
  ∧ fields_ok sb' fis.
Proof.
  induction ams as [|am ams IH]; intros acc sb fis sb' Hinv Hacc Hrun; simpl in *.
  - injection Hrun as <- <-. split_and!; [by apply advance_refl|apply same_entities_refl|done].
  - bind_inv Hrun.
    apply forSelectors_advance in Hstep as (Hadv & Hsame & Hok); [|done..].
    pose proof Hadv as (Hinv1 & _).
    eapply IH in Hrun as (Hadv' & Hsame' & Hok'); [|done..].
    split_and!; [|by eapply same_entities_trans|done].
    by eapply advance_trans.
Qed.

Lemma addTypeAttrMapping_ordinals a t sel sb fi sb' :
  builder_inv M sb →
  addTypeAttrMapping M getComparableType a t sel sb = Returned (fi, sb') →
  typeOrdinal sb' = typeOrdinal sb ∧ selfOrdinal sb' = selfOrdinal sb.
Proof.
  intros Hinv Hrun. unfold addTypeAttrMapping in Hrun.
  bind_inv Hrun. destruct x as [offset cur].
  apply lift_Returned in Hstep as [_ ->].
  destruct (makeFieldFlags cur) as [flags ok]. destruct ok; simpl in Hrun;
    [|discriminate].
  bind_inv Hrun.
  destruct (maybeAddAttribute_advance _ _ _ _ _ Hinv Hstep)
    as (_ & _ & ? & ? & _).
  by injection Hrun as <- <-.
Qed.

Lemma forSelectors_ordinals a t sels : ∀ acc sb fis sb',
  builder_inv M sb →
  forSelectors M getComparableType a t sels acc sb = Returned (fis, sb') →
  typeOrdinal sb' = typeOrdinal sb ∧ selfOrdinal sb' = selfOrdinal sb.
Proof.
  induction sels as [|sel sels IH]; intros acc sb fis sb' Hinv Hrun; simpl in *.
  - by injection Hrun as <- <-.
  - bind_inv Hrun.
    destruct (addTypeAttrMapping_ordinals _ _ _ _ _ _ Hinv Hstep) as [<- <-].
    eapply IH; [|done].
    by eapply addTypeAttrMapping_advance.
Qed.

Lemma forAttrMappings_ordinals t ams : ∀ acc sb fis sb',
  builder_inv M sb → fields_ok sb acc →
  forAttrMappings M getComparableType t ams acc sb = Returned (fis, sb') →
  typeOrdinal sb' = typeOrdinal sb ∧ selfOrdinal sb' = selfOrdinal sb.
Proof.
  induction ams as [|am ams IH]; intros acc sb fis sb' Hinv Hacc Hrun; simpl in *.
  - by injection Hrun as <- <-.
  - bind_inv Hrun.
    destruct (forSelectors_ordinals _ _ _ _ _ _ _ Hinv Hstep) as [<- <-].
    apply forSelectors_advance in Hstep as ((? & _) & _ & ?); [|done..].
    by eapply IH.
Qed.

Lemma maybeAddTypeMapping_advance t ams sb u sb' :
  builder_inv M sb →
  maybeAddTypeMapping M getComparableType t ams sb = Returned (u, sb') →
  advance M (mappingAttrs ams) sb sb'
  ∧ typeOrdinal sb' = typeOrdinal sb ∧ selfOrdinal sb' = selfOrdinal sb.
Proof.
  intros Hinv Hrun. unfold maybeAddTypeMapping in Hrun.
  destruct (isStructPointer t) eqn:Hsp; simpl in Hrun; [|discriminate].
  bind_inv Hrun. pose proof Hstep as Hstep'.
  apply forAttrMappings_advance in Hstep as (Hadv & Hsame & Hok);
    [|done|by constructor].
  injection Hrun as <- <-.
  destruct Hadv as ((Ha & Hle & Hh) & Hreg & Hname).
  destruct Hh as (Hlen & Hnd & Hid & Hmap & Hsize & Hobj).
  assert (∀ q, q ∈ entityTypes sb0 → q < length (objects sb0)) as Hlt.
  { intros q [i Hi]%list_elem_of_lookup.
    destruct (Hid _ _ Hi) as (ts & Hts & _). by eapply lookup_lt_Some. }
  assert (∀ q, objects sb0 !! q = None → q ∉ entityTypes sb0) as Hfresh.
  { intros q Hq Hin. apply Hlt in Hin. apply lookup_ge_None in Hq. lia. }
  split; [split; [split; [|split]|split]|split].
  - done.
  - done.
  - unfold heap_inv; simpl. split_and!.
    + rewrite !length_app. simpl. lia.
    + apply NoDup_app. split_and!; [done| |apply NoDup_singleton].
      intros q Hq ->%list_elem_of_singleton. apply Hlt in Hq. lia.
    + intros i q Hi. apply lookup_app_Some in Hi as [Hi|[Hge Hi]].
      * destruct (Hid _ _ Hi) as (ts & Hts & Hty). exists ts.
        split; [by apply lookup_app_l_Some|done].
      * apply list_lookup_singleton_Some in Hi as [Hi <-].
        eexists. split.
        -- rewrite lookup_app_r by lia. rewrite Nat.sub_diag. done.
        -- simpl. lia.
    + intros t' q Hq. destruct (decide (t = t')) as [<-|Hne].
      * rewrite lookup_insert_eq in Hq. injection Hq as <-.
        eexists. split.
        -- rewrite lookup_app_r by lia. rewrite Nat.sub_diag. done.
        -- done.
      * rewrite lookup_insert_ne in Hq by done.
        destruct (Hmap _ _ Hq) as (ts & Hts & Hty). exists ts.
        split; [by apply lookup_app_l_Some|done].
    + rewrite map_size_insert, length_app. simpl.
      destruct (entityTypeSchemas sb0 !! t); simpl; lia.
    + apply Forall_app. split.
      * eapply Forall_impl; [done|]. by intros ts [? ?].
      * repeat constructor; simpl; [done|].
        apply Slice_Forall, Hok.
  - by destruct Hreg.
  - simpl. by destruct Hsame.
  - simpl. eapply forAttrMappings_ordinals; [done| |done]. constructor.
  - simpl. eapply forAttrMappings_ordinals; [done| |done]. constructor.
Qed.

Lemma forAttrTypes_advance l : ∀ sb u sb',
  builder_inv M sb →
  forAttrTypes M l sb = Returned (u, sb') →
  advance M (at_a <$> l) sb sb'.
Proof.
  induction l as [|t l IH]; intros sb u sb' Hinv Hrun; simpl in *.
  - injection Hrun as _ <-. by apply advance_refl.
  - bind_inv Hrun.
    destruct (maybeAddAttribute_advance _ _ _ _ _ Hinv Hstep) as (Hadv & _).
    eapply (advance_trans [at_a t]); [done|].
    eapply IH; [|done]. apply Hadv.
Qed.

Lemma forEntityMappings_advance l : ∀ sb u sb',
  builder_inv M sb →
  forEntityMappings M getComparableType l sb = Returned (u, sb') →
  advance M (l ≫= (fun tm => mappingAttrs (em_attrMappings tm))) sb sb'.
Proof.
  induction l as [|tm l IH]; intros sb u sb' Hinv Hrun; simpl in *.
  - injection Hrun as _ <-. by apply advance_refl.
  - bind_inv Hrun.
    destruct (maybeAddTypeMapping_advance _ _ _ _ _ Hinv Hstep) as (Hadv & _).
    eapply advance_trans; [done|].
    eapply IH; [|done]. apply Hadv.
Qed.

Lemma builder_inv_init name : builder_inv M (mkSchema name [] [] ∅ [] [] ∅ 0 0).
Proof.
  split; [split|split]; simpl; [done| |lia|].
  - intros a i. by rewrite lookup_empty, lookup_nil.
  - unfold heap_inv; simpl. split_and!; try done. constructor.
Qed.

Lemma set_selfOrdinal_Returned sb u sb' :
  set_selfOrdinal sb = Returned (u, sb') →
  attrToOrdinal sb !! Self = Some (selfOrdinal sb')
  ∧ same_attrs sb sb' ∧ same_entities sb sb'
  ∧ typeOrdinal sb' = typeOrdinal sb.
Proof.
  unfold set_selfOrdinal, mustGetOrdinal, getOrdinal.
  destruct (attrToOrdinal sb !! Self) as [ord|]; simpl; [|done].
  intros [= <- <-]. by repeat split.
Qed.

Lemma set_typeOrdinal_Returned sb u sb' :
  set_typeOrdinal sb = Returned (u, sb') →
  attrToOrdinal sb !! Type_ = Some (typeOrdinal sb')
  ∧ same_attrs sb sb' ∧ same_entities sb sb'
  ∧ selfOrdinal sb' = selfOrdinal sb.
Proof.
  unfold set_typeOrdinal, mustGetOrdinal, getOrdinal.
  destruct (attrToOrdinal sb !! Type_) as [ord|]; simpl; [|done].
  intros [= <- <-]. by repeat split.
Qed.

Lemma builder_inv_same sb sb' :
  builder_inv M sb → same_attrs sb sb' → same_entities sb sb' →
  builder_inv M sb'.
Proof.
  intros ((Hl & Hm) & Hle & Hh) (_ & Ha & Ht & Hmap) Hsame.
  split; [split|split].
  - by rewrite Ha, Ht.
  - intros a i. by rewrite Ha, Hmap.
  - by rewrite Ha.
  - eapply heap_inv_grow; [done..|]. by rewrite Ha.
Qed.

(** What a successful [buildSchema] returns. *)
Lemma buildSchema_Returned nm opts sc :
  buildSchema M compareTypes getComparableType nm opts = Returned sc →
  Schema_valid M sc
  ∧ attrs sc = firstOccurrences (registrations opts)
  ∧ name sc = nm.
Proof.
  unfold buildSchema. fold (mappingsOf opts).
  set (init := mkSchema nm [] [] ∅ [] [] ∅ 0 0).
  intros Hrun.
  destruct (mbind (M:=builder) _ _ init) as [[u sc']|] eqn:Hbody;
    [|discriminate].
  simpl in Hrun. injection Hrun as <-.
  pose proof (builder_inv_init nm) as Hinit. fold init in Hinit.
  bind_inv Hbody. rename sb into sb1, Hstep into H1.
  bind_inv Hbody. rename sb into sb2, Hstep into H2.
  bind_inv Hbody. rename sb into sb3, Hstep into H3.
  bind_inv Hbody. rename sb into sb4, Hstep into H4.
  bind_inv Hbody. rename sb into sb5, Hstep into H5.
  bind_inv Hbody. rename sb into sb6, Hstep into H6.
  injection Hbody as _ <-.
  apply forAttrTypes_advance in H1 as A1; [|done].
  apply forEntityMappings_advance in H2 as A2; [|apply A1].
  destruct (maybeAddAttribute_advance _ _ _ _ _ (proj1 A2) H3)
    as (A3 & _ & _ & _ & Hself).
  destruct (set_selfOrdinal_Returned _ _ _ H4) as (Hs4 & Sa4 & Se4 & _).
  assert (builder_inv M sb4) as I4.
  { eapply builder_inv_same; [apply A3|done..]. }
  destruct (maybeAddAttribute_advance _ _ _ _ _ I4 H5)
    as (A5 & _ & _ & Hs5 & Htype).
  destruct (set_typeOrdinal_Returned _ _ _ H6) as (Ht6 & Sa6 & Se6 & Hs6).
  assert (builder_inv M sb6) as I6.
  { eapply builder_inv_same; [apply A5|done..]. }
  destruct (Sort_same_attrs compareTypes sb6) as (Sa7 & Ht7 & Hs7 & _).
  destruct Sa4 as (N4 & Sa4 & St4 & Sm4).
  destruct Sa6 as (N6 & Sa6 & St6 & Sm6).
  destruct Sa7 as (N7 & Sa7 & St7 & Sm7).
  destruct A1 as (I1 & [R1 _] & N1), A2 as (I2 & [R2 _] & N2),
    A3 as (I3 & [R3 _] & N3), A5 as (I5 & [R5 P5] & N5).
  split_and!.
  - destruct I6 as (Ha6 & Hle6 & Hh6). split; [split; [|split]|split].
    + destruct Ha6 as [? ?]. split; [by rewrite Sa7, St7|].
      intros a i. by rewrite Sa7, Sm7.
    + by rewrite Sa7.
    + eapply heap_inv_grow; [by apply Sort_heap_inv| |].
      * apply same_entities_refl.
      * done.
    + rewrite Sm7, Hs7, Hs6, Sm6, Hs5.
      eapply (registered_lookup [Type_] sb4 sb5); [apply I4|apply I5|done|].
      by rewrite Sm4.
    + by rewrite Sm7, Ht7, Sm6.
  - rewrite Sa7, Sa6, R5, Sa4, R3, R2, R1. unfold firstOccurrences, registrations,
      userRegistrations. by rewrite !foldl_app.
  - rewrite N7, N6, N5, N4, N3, N2, N1. done.
Qed.

End Build.

(** ** Attribute type validation *)

Lemma Implements_refl n ms :
  reflect.Implements (reflect.InterfaceOf n ms) (reflect.InterfaceOf n ms)
  = reflect.Val true.
Proof.
  simpl. f_equal. apply forallb_forall. intros m Hm.
  apply bool_decide_eq_true_2. by apply list_elem_of_In.
Qed.

Lemma kind_Interface t :
  reflect.kind t = reflect.Interface → ∃ n ms, t = reflect.InterfaceOf n ms.
Proof.
  destruct t as [k n vm pm|n ms|e|n fs vm pm]; simpl; try done.
  - by destruct k.
  - by eexists _, _.
Qed.

Lemma checkType_typeAccepted typ prev :
  checkType typ prev
  = Returned (if typeAccepted typ prev then None
              else Some (if bool_decide (reflect.kind prev = reflect.Interface)
                         then Errorf_does_not_implement typ prev
                         else Errorf_is_not typ prev)).
Proof.
  unfold checkType, typeAccepted.
  destruct (decide (reflect.kind prev = reflect.Interface)) as [Hk|Hk].
  - destruct (kind_Interface _ Hk) as (n & ms & ->). simpl reflect.kind.
    cbv iota.
    rewrite (bool_decide_eq_true_2 (reflect.Interface = reflect.Interface) eq_refl).
    rewrite andb_true_l.
    destruct (decide (typ = reflect.InterfaceOf n ms)) as [->|Hne].
    + rewrite Implements_refl. simpl. by rewrite bool_decide_eq_true_2.
    + rewrite (bool_decide_eq_false_2 _ Hne), orb_false_l. simpl.
      by destruct (forallb _ ms).
  - rewrite (bool_decide_eq_false_2 _ Hk), andb_false_l, orb_false_r.
    assert (∀ (X Y : result (option error)),
              match reflect.kind prev with
              | reflect.Interface => X
              | _ => Y
              end = Y) as -> by (intros; by destruct (reflect.kind prev)).
    destruct (decide (typ = prev)) as [Heq|Hne].
    + rewrite bool_decide_eq_false_2 by tauto.
      by rewrite bool_decide_eq_true_2.
    + rewrite bool_decide_eq_true_2 by done.
      by rewrite bool_decide_eq_false_2.
Qed.

(** ** Properties of a built schema *)

Section Claims.

Variable M : ordinal.
Variable compareTypes : reflect.rtype -> reflect.rtype -> bool * bool.
Variable getComparableType : reflect.rtype -> reflect.rtype.

Local Abbreviation buildSchema' := (buildSchema M compareTypes getComparableType).

Lemma elem_of_foldl_registerAttr tr : ∀ l a,
  a ∈ foldl registerAttr l tr ↔ a ∈ l ∨ a ∈ tr.
Proof.
  induction tr as [|b tr IH]; intros l a; simpl.
  - rewrite elem_of_nil. tauto.
  - rewrite IH, elem_of_cons. unfold registerAttr. case_decide.
    + split; [tauto|]. intros [?|[->|?]]; tauto.
    + rewrite elem_of_app, list_elem_of_singleton. tauto.
Qed.

(** C2: in a successfully built schema the ordinals are exactly
    0 .. |A|-1, without gaps or repeats: the map sends an attribute to the
    index at which the attribute slice holds it, no attribute occurs twice
    in the slice, and an index is the ordinal of some attribute exactly
    when it is below the number of attributes.  The ordinals follow the
    order of first registration: the slice is the sequence of the build's
    registrations with every attribute at its first occurrence, so that a
    later registration of the same attribute changes nothing. *)
Theorem ordinal_density nm opts sc :
  buildSchema' nm opts = Returned sc →
  NoDup (attrs sc)
  ∧ (∀ a i, attrToOrdinal sc !! a = Some i ↔ attrs sc !! i = Some a)
  ∧ (∀ i, i < length (attrs sc) ↔ ∃ a, attrToOrdinal sc !! a = Some i)
  ∧ attrs sc = firstOccurrences (registrations opts).
Proof.
  intros Hrun.
  destruct (buildSchema_Returned _ _ _ _ _ _ Hrun)
    as (((Ha & _) & _) & Hfirst & _).
  split_and!.
  - by apply attrs_inv_NoDup.
  - apply Ha.
  - intros i. destruct Ha as [_ Ha]. split.
    + intros [a Hi]%lookup_lt_is_Some. exists a. by apply Ha.
    + intros [a Hi]. apply Ha in Hi. by eapply lookup_lt_Some.
  - done.
Qed.

(** C3: [NewSchema] returns a schema and a nil error, and then the schema
    is what [buildSchema] returned and is valid; or it returns no schema
    and an error, and then [buildSchema] panicked and the error wraps what
    it panicked with: an error is wrapped as "failed to construct schema",
    any other value is reported as an assertion failure. *)
Theorem NewSchema_all_or_nothing nm opts :
  match NewSchema M compareTypes getComparableType nm opts with
  | (Some sc, None) => buildSchema' nm opts = Returned sc ∧ Schema_valid M sc
  | (None, Some err) =>
      ∃ r, buildSchema' nm opts = Panicked r
           ∧ err = match r with
                   | panic_error e => Wrap_failed_to_construct_schema e
                   | panic_other v => AssertionFailedf_failed_to_construct_schema v
                   end
  | _ => False
  end.
Proof.
  unfold NewSchema.
  destruct (buildSchema' nm opts) as [sc|[e|v]] eqn:Hrun.
  - split; [done|]. by apply buildSchema_Returned in Hrun as (? & _).
  - by eexists.
  - by eexists.
Qed.

(** C9, as amended: in every successfully built schema [Self] and [Type]
    resolve, to the ordinals the schema records for them, and these are
    ordinals of the schema; when the caller's options do not themselves
    register [Self] or [Type], the two are the last attributes, with the
    two highest ordinals. *)
Theorem reserved_attributes nm opts sc :
  buildSchema' nm opts = Returned sc →
  getOrdinal sc Self = (selfOrdinal sc, None)
  ∧ getOrdinal sc Type_ = (typeOrdinal sc, None)
  ∧ selfOrdinal sc < length (attrs sc)
  ∧ typeOrdinal sc < length (attrs sc)
  ∧ (Self ∉ userRegistrations opts → Type_ ∉ userRegistrations opts →
     S (selfOrdinal sc) = typeOrdinal sc
     ∧ S (typeOrdinal sc) = length (attrs sc)
     ∧ reserved_highest sc).
Proof.
  intros Hrun.
  destruct (buildSchema_Returned _ _ _ _ _ _ Hrun)
    as (((Ha & _) & Hself & Htype) & Hfirst & _).
  pose proof Ha as [_ Hmap].
  assert (selfOrdinal sc < length (attrs sc)) as Hs by by eapply attrs_inv_lt.
  assert (typeOrdinal sc < length (attrs sc)) as Ht by by eapply attrs_inv_lt.
  split_and!; try done.
  - unfold getOrdinal. by rewrite Hself.
  - unfold getOrdinal. by rewrite Htype.
  - intros HnS HnT.
    unfold firstOccurrences, registrations in Hfirst.
    rewrite foldl_app in Hfirst. simpl in Hfirst.
    fold (firstOccurrences (userRegistrations opts)) in Hfirst.
    set (l := firstOccurrences (userRegistrations opts)) in *.
    assert (Self ∉ l) as HSl.
    { unfold l, firstOccurrences. rewrite elem_of_foldl_registerAttr, elem_of_nil. tauto. }
    assert (Type_ ∉ l) as HTl.
    { unfold l, firstOccurrences. rewrite elem_of_foldl_registerAttr, elem_of_nil. tauto. }
    unfold registerAttr in Hfirst at 2. rewrite decide_False in Hfirst by done.
    unfold registerAttr in Hfirst. rewrite decide_False in Hfirst.
    2:{ rewrite elem_of_app, list_elem_of_singleton. intros [?|?]; done. }
    apply Hmap in Hself, Htype. rewrite Hfirst in Hself, Htype.
    assert (selfOrdinal sc = length l) as HsO.
    { destruct (decide (selfOrdinal sc < length l)) as [Hlt|Hge].
      - rewrite <- app_assoc, lookup_app_l in Hself by done.
        exfalso. apply HSl. by eapply list_elem_of_lookup_2.
      - rewrite <- app_assoc, lookup_app_r in Hself by lia.
        destruct (selfOrdinal sc - length l) as [|[|k]] eqn:Hk; simpl in Hself;
          [lia|done|done]. }
    assert (typeOrdinal sc = S (length l)) as HtO.
    { destruct (decide (typeOrdinal sc < length l)) as [Hlt|Hge].
      - rewrite <- app_assoc, lookup_app_l in Htype by done.
        exfalso. apply HTl. by eapply list_elem_of_lookup_2.
      - rewrite <- app_assoc, lookup_app_r in Htype by lia.
        destruct (typeOrdinal sc - length l) as [|[|k]] eqn:Hk; simpl in Htype;
          [done|lia|done]. }
    split_and!.
    + lia.
    + rewrite Hfirst, !length_app. simpl. lia.
    + intros a i Hi HaS HaT. apply Hmap in Hi. rewrite Hfirst in Hi.
      assert (i < length l); [|lia].
      destruct (decide (i < length l)) as [Hlt|Hge]; [done|].
      rewrite <- app_assoc, lookup_app_r in Hi by lia.
      destruct (i - length l) as [|[|k]]; simpl in Hi;
        [congruence|congruence|done].
Qed.

(** C4: the first use of an attribute fixes its type: the attribute gets
    an ordinal and the type of that use is recorded for it.  Every later
    use finds that type and returns the same ordinal, leaving the builder
    unchanged, when the new type is the recorded type or the recorded type
    is an interface that the new type implements; otherwise it panics with
    the type-mismatch error that names the attribute, the new type and the
    recorded type.  No use, of this attribute or of another, changes the
    ordinal or the recorded type of an attribute. *)
Theorem attribute_type_validation a typ sb :
  attrs_inv sb →
  match attrToOrdinal sb !! a with
  | None =>
      ∀ ord sb', maybeAddAttribute M a typ sb = Returned (ord, sb') →
        attrToOrdinal sb' !! a = Some ord ∧ attrTypes sb' !! ord = Some typ
  | Some ord =>
      ∃ prev, attrTypes sb !! ord = Some prev
        ∧ maybeAddAttribute M a typ sb
          = if typeAccepted typ prev then Returned (ord, sb)
            else Panicked (panic_error (typeMismatch a typ prev))
  end
  ∧ ∀ ord sb' b i prev,
      maybeAddAttribute M a typ sb = Returned (ord, sb') →
      attrToOrdinal sb !! b = Some i → attrTypes sb !! i = Some prev →
      attrToOrdinal sb' !! b = Some i ∧ attrTypes sb' !! i = Some prev.
Proof using M.
  intros Hinv. split.
  2:{ intros ord sb' b i prev Hrun Hb Hi.
      destruct (maybeAddAttribute_Returned _ _ _ _ _ _ Hinv Hrun)
        as (Hinv' & Hreg & _).
      split.
      - eapply registered_lookup; [exact Hinv|exact Hinv'|exact Hreg|exact Hb].
      - destruct Hreg as [_ Hpre]. by eapply prefix_lookup_Some. }
  destruct Hinv as [Hlen Hmap]. unfold maybeAddAttribute.
  destruct (attrToOrdinal sb !! a) as [ord|] eqn:Ha.
  - assert (is_Some (attrTypes sb !! ord)) as [prev Hprev].
    { apply lookup_lt_is_Some. rewrite <- Hlen.
      apply Hmap in Ha. by eapply lookup_lt_Some. }
    exists prev. split; [done|]. rewrite Hprev, checkType_typeAccepted.
    unfold typeMismatch. by destruct (typeAccepted typ prev).
  - intros ord sb'.
    destruct (M <=? length (attrs sb)); [done|].
    intros [= <- <-]. simpl. split.
    + by rewrite lookup_insert_eq.
    + rewrite lookup_app_r by lia. by rewrite Hlen, Nat.sub_diag.
Qed.

Lemma splitDot_cons s : ∃ h t, splitDot s = h :: t.
Proof.
  destruct s as [|c r]; simpl; [by eexists _, _|].
  destruct (Ascii.eqb c "."); [by eexists _, _|].
  destruct (splitDot r); by eexists _, _.
Qed.

Lemma splitDot_noDot s : noDot s = true → splitDot s = [s].
Proof.
  induction s as [|c r IH]; simpl; [done|].
  intros [Hc Hr]%andb_prop. apply negb_true_iff in Hc.
  rewrite Hc, IH; done.
Qed.

Lemma splitDot_app a b :
  noDot a = true → splitDot (a ++ "." ++ b) = a :: splitDot b.
Proof.
  induction a as [|c r IH]; simpl; [done|].
  intros [Hc Hr]%andb_prop. apply negb_true_iff in Hc.
  rewrite Hc, IH; done.
Qed.

Lemma walkSelector_app sp sel pre : ∀ rest off cur,
  walkSelector sp sel (pre ++ rest) off cur
  = (r ← walkSelector sp sel pre off cur;
     walkSelector sp sel rest r.1 r.2).
Proof.
  induction pre as [|n pre IH]; intros rest off cur; simpl; [done|].
  destruct (call (reflect.FieldByName cur n)) as [[sf|]|]; simpl;
    done || apply IH.
Qed.

(** C8: on a record type whose field [A] is a nested struct with a field
    [B], the selector "A.B" resolves to the sum of the offsets of [A] and
    of [B] and to the declared type of [B].  When the segments before some
    segment [n] lead to a struct that has no field [n], the resolver
    panics with the error that names the record type and the selector,
    and so does [addTypeAttrMapping]. *)
Theorem selector_resolution :
  (∀ nT fs vm pm A B sfA nA fsA vmA pmA sfB,
     noDot A = true → noDot B = true →
     reflect.lookupField fs A = Some sfA →
     reflect.Type_ sfA = reflect.StructOf nA fsA vmA pmA →
     reflect.lookupField fsA B = Some sfB →
     (0 ≤ reflect.Offset sfA)%Z → (0 ≤ reflect.Offset sfB)%Z →
     (reflect.Offset sfA + reflect.Offset sfB < 2 ^ 64)%Z →
     getOffsetAndTypeFromSelector
       (reflect.PtrTo (reflect.StructOf nT fs vm pm)) (A ++ "." ++ B)
     = Returned ((reflect.Offset sfA + reflect.Offset sfB)%Z, reflect.Type_ sfB))
  ∧ (∀ structPointer selector root (pre : list string) n post off nm fs vm pm a sb,
     reflect.Elem structPointer = reflect.Val root →
     splitDot selector = (pre ++ n :: post)%list →
     walkSelector structPointer selector pre 0%Z root
     = Returned (off, reflect.StructOf nm fs vm pm) →
     reflect.lookupField fs n = None →
     getOffsetAndTypeFromSelector structPointer selector
     = Panicked (panic_error (Errorf_is_not_a_field structPointer selector))
     ∧ addTypeAttrMapping M getComparableType a structPointer selector sb
       = Panicked (panic_error (Errorf_is_not_a_field structPointer selector))).
Proof.
  split.
  - intros nT fs vm pm A B sfA nA fsA vmA pmA sfB HA HB HfA HtA HfB H0A H0B Hsum.
    unfold getOffsetAndTypeFromSelector.
    rewrite splitDot_app, splitDot_noDot by done. simpl.
    rewrite HfA. simpl. rewrite HtA. simpl. rewrite HfB. simpl.
    unfold reflect.uintptr.
    rewrite (Z.mod_small (reflect.Offset sfA)) by lia.
    by rewrite Z.mod_small by lia.
  - intros sp sel root pre n post off nm fs vm pm a sb Hroot Hsplit Hpre Hn.
    assert (getOffsetAndTypeFromSelector sp sel
            = Panicked (panic_error (Errorf_is_not_a_field sp sel))) as Hres.
    { unfold getOffsetAndTypeFromSelector. rewrite Hroot, Hsplit. simpl.
      rewrite walkSelector_app, Hpre. simpl. by rewrite Hn. }
    split; [done|]. unfold addTypeAttrMapping, mbind, builder_bind.
    by rewrite Hres.
Qed.

(** The field info a successful [addTypeAttrMapping] returns. *)
Lemma addTypeAttrMapping_fieldInfo a t sel sb fi sb' :
  addTypeAttrMapping M getComparableType a t sel sb = Returned (fi, sb') →
  ∃ offset cur,
    getOffsetAndTypeFromSelector t sel = Returned (offset, cur)
    ∧ makeFieldFlags cur = (flags fi, true)
    ∧ path fi = sel
    ∧ f_typ fi = (if isPtr (flags fi) && isScalar (flags fi)
                  then elemOf cur else cur)
    ∧ value fi = makeValue (flags fi) cur offset
    ∧ inline fi = makeInline (flags fi) cur offset
    ∧ comparableValue fi
      = makeComparableValue getComparableType (flags fi) cur (f_typ fi) offset
    ∧ maybeAddAttribute M a (f_typ fi) sb = Returned (attr fi, sb').
Proof.
  intros Hrun. unfold addTypeAttrMapping in Hrun.
  bind_inv Hrun. destruct x as [offset cur].
  apply lift_Returned in Hstep as [Hsel ->].
  exists offset, cur. split; [done|].
  destruct (makeFieldFlags cur) as [fl ok]. destruct ok; simpl in Hrun;
    [|discriminate].
  bind_inv Hrun. injection Hrun as <- <-. simpl. by split_and!.
Qed.

(** The flags the classifier gives: one kind, with or without the pointer
    flag. *)
Lemma makeFieldFlags_true cur f :
  makeFieldFlags cur = (f, true) →
  (isPtr f = false ∧
     ((f = intField ∧ isIntKind (reflect.kind cur) = true)
      ∨ (f = uintField ∧ isUintKind (reflect.kind cur) = true)
      ∨ (f = stringField ∧ reflect.kind cur = reflect.String)))
  ∨ (∃ e, cur = reflect.PtrTo e ∧ isPtr f = true ∧
     ((f = Z.lor pointerField intField ∧ isIntKind (reflect.kind e) = true)
      ∨ (f = Z.lor pointerField uintField ∧ isUintKind (reflect.kind e) = true)
      ∨ (f = Z.lor pointerField stringField ∧ reflect.kind e = reflect.String)
      ∨ (f = Z.lor pointerField structField ∧ reflect.kind e = reflect.Struct))).
Proof.
  unfold makeFieldFlags.
  destruct (decide (reflect.kind cur = reflect.Ptr)) as [Hp|Hp].
  - rewrite (bool_decide_eq_true_2 _ Hp).
    destruct cur as [k n vm pm|n ms|e|n fs vm pm]; try done; [by destruct k|].
    simpl elemOf. intros Hf. right. exists e. split; [done|].
    destruct (decide (reflect.kind e = reflect.Struct)) as [Hs|Hs].
    { rewrite (bool_decide_eq_true_2 _ Hs) in Hf. simpl in Hf.
      injection Hf as <-. split; [done|]. by right; right; right. }
    rewrite (bool_decide_eq_false_2 _ Hs) in Hf. simpl in Hf.
    destruct (decide (reflect.kind e = reflect.String)) as [Hstr|Hstr].
    { rewrite (bool_decide_eq_true_2 _ Hstr) in Hf.
      injection Hf as <-. split; [done|]. by right; right; left. }
    rewrite (bool_decide_eq_false_2 _ Hstr) in Hf.
    destruct (isIntKind (reflect.kind e)) eqn:Hi.
    { injection Hf as <-. split; [done|]. by left. }
    destruct (isUintKind (reflect.kind e)) eqn:Hu; [|done].
    injection Hf as <-. split; [done|]. by right; left.
  - rewrite (bool_decide_eq_false_2 _ Hp). intros Hf. left.
    rewrite andb_false_r in Hf.
    destruct (decide (reflect.kind cur = reflect.String)) as [Hstr|Hstr].
    { rewrite (bool_decide_eq_true_2 _ Hstr) in Hf.
      injection Hf as <-. split; [done|]. by right; right. }
    rewrite (bool_decide_eq_false_2 _ Hstr) in Hf.
    destruct (isIntKind (reflect.kind cur)) eqn:Hi.
    { injection Hf as <-. split; [done|]. by left. }
    destruct (isUintKind (reflect.kind cur)) eqn:Hu; [|done].
    injection Hf as <-. split; [done|]. by right; left.
Qed.

Lemma signed_7 k : isIntKind k = true → reflect.signed (reflect.bits k) 7 = 7%Z.
Proof. by destruct k. Qed.

Lemma unsigned_7 k : isUintKind k = true → reflect.unsigned (reflect.bits k) 7 = 7%Z.
Proof. by destruct k. Qed.

(** C6: for a field that is a pointer to an integer, signed or unsigned, at
    a field address that is not nil: when the pointer stored in the field
    is nil, [value] returns nil and [inline] returns [(0, false)]; when it
    points to an integer that is 7, [value] returns 7, of the element type,
    and [inline] returns [(7, true)].  For every field of string kind or of
    struct kind [inline] returns [(0, false)], whatever the memory and the
    entity. *)
Theorem optional_integer_accessors :
  (∀ a t sel sb fi sb' offset T m u,
     addTypeAttrMapping M getComparableType a t sel sb = Returned (fi, sb') →
     getOffsetAndTypeFromSelector t sel = Returned (offset, reflect.PtrTo T) →
     isIntKind (reflect.kind T) || isUintKind (reflect.kind T) = true →
     reflect.uintptr (u + offset) ≠ 0%Z →
     (reflect.load_ptr m (reflect.uintptr (u + offset)) = 0%Z →
      value fi m u = reflect.Val reflect.nil
      ∧ inline fi m u = reflect.Val (0%Z, false))
     ∧ (reflect.load_ptr m (reflect.uintptr (u + offset)) ≠ 0%Z →
        reflect.load_int m (reflect.load_ptr m (reflect.uintptr (u + offset))) = 7%Z →
        value fi m u = reflect.Val (reflect.IfInt T 7)
        ∧ inline fi m u = reflect.Val (7%Z, true)))
  ∧ (∀ a t sel sb fi sb' m u,
     addTypeAttrMapping M getComparableType a t sel sb = Returned (fi, sb') →
     isString (flags fi) || isStruct (flags fi) = true →
     inline fi m u = reflect.Val (0%Z, false)).
Proof.
  split.
  - intros a t sel sb fi sb' offset T m u Hrun Hsel HT Haddr.
    destruct (addTypeAttrMapping_fieldInfo _ _ _ _ _ _ Hrun)
      as (offset' & cur & Hsel' & Hflags & _ & _ & Hv & Hi & _).
    rewrite Hsel in Hsel'. injection Hsel' as <- <-.
    assert (reflect.kind T ≠ reflect.Struct) as Hs
      by (intros E; by rewrite E in HT).
    assert (reflect.kind T ≠ reflect.String) as Hstr
      by (intros E; by rewrite E in HT).
    unfold makeFieldFlags in Hflags. simpl in Hflags.
    rewrite (bool_decide_eq_false_2 _ Hs), (bool_decide_eq_false_2 _ Hstr)
      in Hflags.
    simpl in Hflags. apply Z.eqb_neq in Haddr.
    destruct (isIntKind (reflect.kind T)) eqn:HI.
    + injection Hflags as Hf.
      assert (reflect.isSigned (reflect.kind T) = true) as Hsig
        by (by destruct (reflect.kind T)).
      rewrite Hv, Hi, <- Hf.
      unfold makeValue, makeInline, makeValueGetter, reflect.NewAt. simpl.
      rewrite Haddr. simpl.
      split.
      * intros Hnil. rewrite Hnil. done.
      * intros Hp H7. apply Z.eqb_neq in Hp. rewrite Hp. simpl.
        rewrite Hsig, H7, signed_7 by done. done.
    + simpl in HT. rewrite HT in Hflags. injection Hflags as Hf.
      assert (reflect.isSigned (reflect.kind T) = false) as Hsig
        by (by destruct (reflect.kind T)).
      assert (reflect.isUnsigned (reflect.kind T) = true) as Huns
        by (by destruct (reflect.kind T)).
      rewrite Hv, Hi, <- Hf.
      unfold makeValue, makeInline, makeValueGetter, reflect.NewAt. simpl.
      rewrite Haddr. simpl.
      split.
      * intros Hnil. rewrite Hnil. done.
      * intros Hp H7. apply Z.eqb_neq in Hp. rewrite Hp. simpl.
        rewrite Hsig, Huns, H7, unsigned_7 by done. done.
  - intros a t sel sb fi sb' m u Hrun Hkind.
    destruct (addTypeAttrMapping_fieldInfo _ _ _ _ _ _ Hrun)
      as (offset & cur & _ & Hflags & _ & _ & _ & Hi & _).
    rewrite Hi.
    destruct (makeFieldFlags_true _ _ Hflags)
      as [(_ & [[Hf _]|[[Hf _]|[Hf _]]])
         |(e & _ & _ & [[Hf _]|[[Hf _]|[[Hf _]|[Hf _]]]])];
      rewrite Hf in Hkind |- *; try done.
Qed.

(** C5, as amended: [comparableValue] of a scalar field returns a
    reference, a pointer of the comparable pointer type, to the storage of
    the scalar: to the field itself for a plain field, and for an optional
    field the pointer stored in the field, or nil when that is nil.  Two
    entities whose plain scalar field lies at different addresses therefore
    give unequal results, whatever the values.  [comparableValue] of a
    struct-reference field returns the stored reference, or nil; two
    fields that point at different entities give unequal results,
    whatever the memory holds at those entities. *)
Theorem comparable_value_references a t sel sb fi sb' offset cur :
  addTypeAttrMapping M getComparableType a t sel sb = Returned (fi, sb') →
  getOffsetAndTypeFromSelector t sel = Returned (offset, cur) →
  let compPtr := reflect.PtrTo (getComparableType (f_typ fi)) in
  let addr := fun u => reflect.uintptr (u + offset) in
  (isScalar (flags fi) = true → isPtr (flags fi) = false →
     (∀ m u, comparableValue fi m u = reflect.Val (reflect.IfPtr compPtr (addr u)))
     ∧ (∀ m u1 u2, addr u1 ≠ addr u2 →
          comparableValue fi m u1 ≠ comparableValue fi m u2))
  ∧ (isScalar (flags fi) = true → isPtr (flags fi) = true →
     ∀ m u, addr u ≠ 0%Z →
       comparableValue fi m u
       = reflect.Val (if (reflect.load_ptr m (addr u) =? 0)%Z then reflect.nil
                      else reflect.IfPtr compPtr (reflect.load_ptr m (addr u))))
  ∧ (isStruct (flags fi) = true →
     (∀ m u, addr u ≠ 0%Z →
        comparableValue fi m u
        = reflect.Val (if (reflect.load_ptr m (addr u) =? 0)%Z then reflect.nil
                       else reflect.IfPtr cur (reflect.load_ptr m (addr u))))
     ∧ (∀ m u1 u2, addr u1 ≠ 0%Z → addr u2 ≠ 0%Z →
          reflect.load_ptr m (addr u1) ≠ 0%Z →
          reflect.load_ptr m (addr u2) ≠ 0%Z →
          reflect.load_ptr m (addr u1) ≠ reflect.load_ptr m (addr u2) →
          comparableValue fi m u1 ≠ comparableValue fi m u2)).
Proof.
  intros Hrun Hsel compPtr addr.
  destruct (addTypeAttrMapping_fieldInfo _ _ _ _ _ _ Hrun)
    as (offset' & cur' & Hsel' & Hflags & _ & Htyp & _ & _ & Hc & _).
  rewrite Hsel in Hsel'. injection Hsel' as <- <-.
  assert (∀ T m u, addr u ≠ 0%Z →
            getPtrValue (makeValueGetter (reflect.PtrTo T) offset) m u
            = reflect.Val (if (reflect.load_ptr m (addr u) =? 0)%Z then reflect.nil
                           else reflect.IfPtr (reflect.PtrTo T)
                                  (reflect.load_ptr m (addr u)))) as Hget.
  { intros T m u Hu. unfold getPtrValue, makeValueGetter, reflect.NewAt. simpl.
    fold (addr u). apply Z.eqb_neq in Hu. rewrite Hu. simpl.
    by destruct (reflect.load_ptr m (addr u) =? 0)%Z. }
  split; [|split].
  - intros Hsc Hp.
    assert (∀ m u, comparableValue fi m u
                   = reflect.Val (reflect.IfPtr compPtr (addr u))) as Hrep.
    { intros m u. rewrite Hc. unfold makeComparableValue.
      destruct (makeFieldFlags_true _ _ Hflags)
        as [(_ & [[Hf _]|[[Hf _]|[Hf _]]])|(e & _ & Hp' & _)];
        [| | |congruence]; rewrite Hf; done. }
    split; [done|]. intros m u1 u2 Hne. rewrite !Hrep. congruence.
  - intros Hsc Hp m u Hu. rewrite Hc. unfold makeComparableValue.
    destruct (makeFieldFlags_true _ _ Hflags)
      as [(Hp' & _)|(e & -> & _ & [[Hf _]|[[Hf _]|[[Hf _]|[Hf _]]]])];
      [congruence| | | |by rewrite Hf in Hsc];
      rewrite Hf; simpl; by rewrite Hget.
  - intros Hst.
    assert (∀ m u, addr u ≠ 0%Z →
              comparableValue fi m u
              = reflect.Val (if (reflect.load_ptr m (addr u) =? 0)%Z then reflect.nil
                             else reflect.IfPtr cur (reflect.load_ptr m (addr u))))
      as Hrep.
    { intros m u Hu. rewrite Hc. unfold makeComparableValue. rewrite Hst.
      destruct (makeFieldFlags_true _ _ Hflags)
        as [(_ & [[Hf _]|[[Hf _]|[Hf _]]])
           |(e & -> & _ & _)];
        [by rewrite Hf in Hst..|].
      by rewrite Hget. }
    split; [done|]. intros m u1 u2 H1 H2 Hp1 Hp2 Hne.
    rewrite !Hrep by done.
    apply Z.eqb_neq in Hp1, Hp2. rewrite Hp1, Hp2. congruence.
Qed.

Lemma maybeAddAttribute_fresh a typ sb :
  attrToOrdinal sb !! a = None → length (attrs sb) < M →
  maybeAddAttribute M a typ sb
  = Returned (length (attrs sb),
      mkSchema (name sb) (attrs sb ++ [a]) (attrTypes sb ++ [typ])
        (<[a := length (attrs sb)]> (attrToOrdinal sb)) (objects sb)
        (entityTypes sb) (entityTypeSchemas sb) (typeOrdinal sb)
        (selfOrdinal sb)).
Proof.
  intros Ha Hlt. unfold maybeAddAttribute. rewrite Ha.
  apply Nat.leb_gt in Hlt. by rewrite Hlt.
Qed.

Lemma maybeAddAttribute_again a typ sb ord prev :
  attrToOrdinal sb !! a = Some ord → attrTypes sb !! ord = Some prev →
  typeAccepted typ prev = true →
  maybeAddAttribute M a typ sb = Returned (ord, sb).
Proof.
  intros Ha Hp Hacc. unfold maybeAddAttribute.
  by rewrite Ha, Hp, checkType_typeAccepted, Hacc.
Qed.

(** A type mapping with one attribute and one selector. *)
Lemma maybeAddTypeMapping_one a t sel sb offset cur f ord sb1 :
  isStructPointer t = true →
  getOffsetAndTypeFromSelector t sel = Returned (offset, cur) →
  makeFieldFlags cur = (f, true) →
  maybeAddAttribute M a (if isPtr f && isScalar f then elemOf cur else cur) sb
  = Returned (ord, sb1) →
  ∃ sb', maybeAddTypeMapping M getComparableType t [mkAttrMapping a [sel]] sb
         = Returned (tt, sb')
    ∧ same_attrs sb1 sb'
    ∧ typeOrdinal sb' = typeOrdinal sb1 ∧ selfOrdinal sb' = selfOrdinal sb1.
Proof.
  intros Hsp Hsel Hf Hadd. unfold maybeAddTypeMapping. rewrite Hsp. simpl.
  unfold mbind, builder_bind, addTypeAttrMapping.
  unfold mbind, builder_bind, lift. rewrite Hsel, Hf. simpl.
  unfold mbind, builder_bind. rewrite Hadd. simpl.
  eexists. split; [reflexivity|]. by repeat split.
Qed.

(** C10: when a selector resolves to a pointer to a scalar, the type of
    the field info, which is the type registered or validated for the
    attribute, is the element type.  Hence an attribute mapped to a plain
    field of a scalar type [T] on one record type and to a field of type
    [*T] on another builds, in either order, and the type recorded for
    the attribute is [T]. *)
Theorem optional_scalar_unwrapped :
  (∀ a t sel sb fi sb' offset T,
     addTypeAttrMapping M getComparableType a t sel sb = Returned (fi, sb') →
     getOffsetAndTypeFromSelector t sel = Returned (offset, reflect.PtrTo T) →
     isScalar (flags fi) = true →
     f_typ fi = T ∧ maybeAddAttribute M a T sb = Returned (attr fi, sb'))
  ∧ (∀ nm x T f,
     makeFieldFlags T = (f, true) → isPtr f = false → 3 ≤ M →
     ∀ opts,
       opts = [Example.mapPlain (UserAttr x) T; Example.mapOptional (UserAttr x) T]
       ∨ opts = [Example.mapOptional (UserAttr x) T; Example.mapPlain (UserAttr x) T] →
       ∃ sc, buildSchema' nm opts = Returned sc
             ∧ attrs sc = [UserAttr x; Self; Type_]
             ∧ attrTypes sc !! 0 = Some T).
Proof.
  split.
  - intros a t sel sb fi sb' offset T Hrun Hsel Hsc.
    destruct (addTypeAttrMapping_fieldInfo _ _ _ _ _ _ Hrun)
      as (offset' & cur & Hsel' & Hflags & _ & Htyp & _ & _ & _ & Hadd).
    rewrite Hsel in Hsel'. injection Hsel' as <- <-.
    assert (isPtr (flags fi) = true) as Hp.
    { destruct (makeFieldFlags_true _ _ Hflags)
        as [(_ & [[_ Hk]|[[_ Hk]|[_ Hk]]])|(e & _ & Hp & _)]; done. }
    rewrite Hp, Hsc in Htyp. simpl in Htyp. by rewrite Htyp in Hadd |- *.
  - intros nm x T f Hf Hp HM opts Hopts.
    assert (isScalar f = true) as Hsc.
    { destruct (makeFieldFlags_true _ _ Hf)
        as [(_ & [[-> _]|[[-> _]|[-> _]]])|(e & _ & Hp' & _)];
        [done..|congruence]. }
    assert (reflect.kind T ≠ reflect.Struct ∧ reflect.kind T ≠ reflect.Ptr) as [HnS HnP].
    { destruct (makeFieldFlags_true _ _ Hf)
        as [(_ & [[_ Hk]|[[_ Hk]|[_ Hk]]])|(e & _ & Hp' & _)];
        [| | |congruence]; split; intros E; by rewrite E in Hk. }
    assert (makeFieldFlags (reflect.PtrTo T) = (Z.lor pointerField f, true)) as Hf'.
    { unfold makeFieldFlags in Hf |- *. simpl.
      rewrite (bool_decide_eq_false_2 _ HnP) in Hf.
      rewrite (bool_decide_eq_false_2 _ HnS). simpl.
      rewrite andb_false_r in Hf.
      destruct (bool_decide (reflect.kind T = reflect.String));
        [by injection Hf as <-|].
      destruct (isIntKind (reflect.kind T)); [by injection Hf as <-|].
      destruct (isUintKind (reflect.kind T)); [by injection Hf as <-|done]. }
    assert (isPtr (Z.lor pointerField f) && isScalar (Z.lor pointerField f) = true)
      as Hps.
    { destruct (makeFieldFlags_true _ _ Hf)
        as [(_ & [[-> _]|[[-> _]|[-> _]]])|(e & _ & Hp' & _)];
        [done..|congruence]. }
    assert (typeAccepted T T = true) as Hacc.
    { unfold typeAccepted. by rewrite bool_decide_eq_true_2. }
    set (init := mkSchema nm [] [] ∅ [] [] ∅ 0 0).
    (* the two type mappings, in either order, leave the same attributes *)
    assert (∃ sb2, forEntityMappings M getComparableType
                     (m_entityMappings (mappingsOf opts)) init
                   = Returned (tt, sb2)
              ∧ attrs sb2 = [UserAttr x] ∧ attrTypes sb2 = [T]
              ∧ attrToOrdinal sb2 = <[UserAttr x := 0]> ∅) as (sb2 & H2 & Ha2 & Ht2 & Hm2).
    { assert (maybeAddAttribute M (UserAttr x) T init
              = Returned (0, mkSchema nm [UserAttr x] [T] (<[UserAttr x := 0]> ∅)
                               [] [] ∅ 0 0)) as Hfirst.
      { rewrite maybeAddAttribute_fresh; [done|done|simpl; lia]. }
      destruct Hopts as [-> | ->]; simpl.
      - edestruct (maybeAddTypeMapping_one (UserAttr x)
                     (reflect.PtrTo (Example.plainOf T)) "F" init 0%Z T f)
          as (sb1 & H1 & (_ & A1 & T1 & M1) & _);
          [reflexivity|reflexivity|exact Hf|rewrite Hp; simpl; exact Hfirst|].
        simpl in A1, T1, M1.
        edestruct (maybeAddTypeMapping_one (UserAttr x)
                     (reflect.PtrTo (Example.optionalOf T)) "G" sb1 0%Z
                     (reflect.PtrTo T))
          as (sb2 & H2 & (_ & A2 & T2 & M2) & _);
          [reflexivity|reflexivity|exact Hf'| |].
        { rewrite Hps. simpl. eapply maybeAddAttribute_again; [| |done].
          - by rewrite M1, lookup_insert_eq.
          - by rewrite T1. }
        exists sb2. unfold mbind, builder_bind.
        unfold Example.mapPlain, Example.mapOptional in *. rewrite H1, H2.
        split; [done|]. split_and!; congruence.
      - edestruct (maybeAddTypeMapping_one (UserAttr x)
                     (reflect.PtrTo (Example.optionalOf T)) "G" init 0%Z
                     (reflect.PtrTo T))
          as (sb1 & H1 & (_ & A1 & T1 & M1) & _);
          [reflexivity|reflexivity|exact Hf'|rewrite Hps; simpl; exact Hfirst|].
        simpl in A1, T1, M1.
        edestruct (maybeAddTypeMapping_one (UserAttr x)
                     (reflect.PtrTo (Example.plainOf T)) "F" sb1 0%Z T f)
          as (sb2 & H2 & (_ & A2 & T2 & M2) & _);
          [reflexivity|reflexivity|exact Hf| |].
        { rewrite Hp. simpl. eapply maybeAddAttribute_again; [| |done].
          - by rewrite M1, lookup_insert_eq.
          - by rewrite T1. }
        exists sb2. unfold mbind, builder_bind.
        unfold Example.mapPlain, Example.mapOptional in *. rewrite H1, H2.
        split; [done|]. split_and!; congruence. }
    assert (m_attrTypes (mappingsOf opts) = []) as Hno.
    { by destruct Hopts as [-> | ->]. }
    unfold buildSchema. fold (mappingsOf opts). fold init. rewrite Hno.
    erewrite builder_bind_eq; [|reflexivity].
    erewrite builder_bind_eq; [|exact H2].
    erewrite builder_bind_eq.
    2:{ apply maybeAddAttribute_fresh; [by rewrite Hm2, lookup_insert_ne|].
        rewrite Ha2. simpl. lia. }
    erewrite builder_bind_eq.
    2:{ unfold set_selfOrdinal, mustGetOrdinal, getOrdinal. simpl attrToOrdinal.
        rewrite lookup_insert_eq. reflexivity. }
    erewrite builder_bind_eq.
    2:{ apply maybeAddAttribute_fresh; simpl.
        - by rewrite lookup_insert_ne, Hm2, lookup_insert_ne.
        - rewrite length_app, Ha2. simpl. lia. }
    erewrite builder_bind_eq.
    2:{ unfold set_typeOrdinal, mustGetOrdinal, getOrdinal. simpl attrToOrdinal.
        rewrite lookup_insert_eq. reflexivity. }
    eexists. split; [reflexivity|]. simpl.
    match goal with
    | |- context [sort.Sort ?e] =>
        destruct (Sort_same_attrs compareTypes e) as ((_ & -> & -> & _) & _)
    end.
    simpl. rewrite Ha2, Ht2. done.
Qed.

End Claims.

(** ** The maximum number of attributes *)

Section Bound.

Variables M1 M2 : ordinal.
Variable compareTypes : reflect.rtype -> reflect.rtype -> bool * bool.
Variable getComparableType : reflect.rtype -> reflect.rtype.

Local Abbreviation bound_irrelevant := (bound_irrelevant_between M1 M2).

Lemma bound_irrelevant_bind {A B} (c : ordinal → builder A)
    (k : ordinal → A → builder B) :
  bound_irrelevant c → (∀ a, bound_irrelevant (fun M => k M a)) →
  bound_irrelevant (fun M => mbind (M:=builder) (k M) (c M)).
Proof.
  intros Hc Hk sb x sb' Hrun. bind_inv Hrun.
  destruct (Hc _ _ _ Hstep) as [Hle1 H1].
  destruct (Hk _ _ _ _ Hrun) as [Hle2 H2].
  split; [lia|]. intros Hle.
  erewrite builder_bind_eq; [|apply H1; lia]. by apply H2.
Qed.

Lemma bound_irrelevant_const {A} (c : builder A) :
  (∀ sb x sb', c sb = Returned (x, sb') → attrs sb' = attrs sb) →
  bound_irrelevant (fun _ => c).
Proof. intros Hc sb x sb' Hrun. by rewrite (Hc _ _ _ Hrun). Qed.

Lemma maybeAddAttribute_bound a typ :
  bound_irrelevant (fun M => maybeAddAttribute M a typ).
Proof.
  intros sb ord sb'. unfold maybeAddAttribute.
  destruct (attrToOrdinal sb !! a) as [o|].
  - destruct (attrTypes sb !! o) as [prev|]; [|done].
    destruct (checkType typ prev) as [[err|]|]; simpl; try done.
    by intros [= <- <-].
  - destruct (M1 <=? length (attrs sb)); [done|].
    intros [= <- <-]. simpl. rewrite length_app. simpl. split; [lia|].
    intros Hle. assert ((M2 <=? length (attrs sb)) = false) as ->; [|done].
    apply Nat.leb_gt. lia.
Qed.

Lemma addTypeAttrMapping_bound a t sel :
  bound_irrelevant (fun M => addTypeAttrMapping M getComparableType a t sel).
Proof.
  unfold addTypeAttrMapping.
  apply (bound_irrelevant_bind (fun _ => lift (getOffsetAndTypeFromSelector t sel))).
  - apply bound_irrelevant_const. intros sb x sb' H.
    by apply lift_Returned in H as [_ ->].
  - intros [offset cur]. destruct (makeFieldFlags cur) as [fl ok].
    destruct ok; simpl.
    + apply (bound_irrelevant_bind (fun M => maybeAddAttribute M a _)).
      * apply maybeAddAttribute_bound.
      * intros ord. apply bound_irrelevant_const. by intros sb x sb' [= _ <-].
    + by intros sb x sb' H.
Qed.

Lemma forSelectors_bound a t sels : ∀ acc,
  bound_irrelevant (fun M => forSelectors M getComparableType a t sels acc).
Proof.
  induction sels as [|sel sels IH]; intros acc; simpl.
  - apply bound_irrelevant_const. by intros sb x sb' [= _ <-].
  - apply (bound_irrelevant_bind
             (fun M => addTypeAttrMapping M getComparableType a t sel)).
    + apply addTypeAttrMapping_bound.
    + intros fi. apply IH.
Qed.

Lemma forAttrMappings_bound t ams : ∀ acc,
  bound_irrelevant (fun M => forAttrMappings M getComparableType t ams acc).
Proof.
  induction ams as [|am ams IH]; intros acc; simpl.
  - apply bound_irrelevant_const. by intros sb x sb' [= _ <-].
  - apply (bound_irrelevant_bind
             (fun M => forSelectors M getComparableType (am_a am) t
                         (am_selectors am) acc)).
    + apply forSelectors_bound.
    + intros fis. apply IH.
Qed.

Lemma maybeAddTypeMapping_bound t ams :
  bound_irrelevant (fun M => maybeAddTypeMapping M getComparableType t ams).
Proof.
  unfold maybeAddTypeMapping. destruct (isStructPointer t); simpl.
  - apply (bound_irrelevant_bind
             (fun M => forAttrMappings M getComparableType t ams [])).
    + apply forAttrMappings_bound.
    + intros fis. apply bound_irrelevant_const. by intros sb x sb' [= _ <-].
  - by intros sb x sb' H.
Qed.

Lemma forAttrTypes_bound l : bound_irrelevant (fun M => forAttrTypes M l).
Proof.
  induction l as [|t l IH]; simpl.
  - apply bound_irrelevant_const. by intros sb x sb' [= _ <-].
  - apply (bound_irrelevant_bind (fun M => maybeAddAttribute M (at_a t) (at_typ t))).
    + apply maybeAddAttribute_bound.
    + intros _. apply IH.
Qed.

Lemma forEntityMappings_bound l :
  bound_irrelevant (fun M => forEntityMappings M getComparableType l).
Proof.
  induction l as [|tm l IH]; simpl.
  - apply bound_irrelevant_const. by intros sb x sb' [= _ <-].
  - apply (bound_irrelevant_bind
             (fun M => maybeAddTypeMapping M getComparableType (em_typ tm)
                         (em_attrMappings tm))).
    + apply maybeAddTypeMapping_bound.
    + intros _. apply IH.
Qed.

(** A build that succeeds under [M1] succeeds with the same schema under
    any maximum that is at least the number of its attributes. *)
Lemma buildSchema_bound nm opts sc :
  buildSchema M1 compareTypes getComparableType nm opts = Returned sc →
  length (attrs sc) ≤ M2 →
  buildSchema M2 compareTypes getComparableType nm opts = Returned sc.
Proof.
  unfold buildSchema. fold (mappingsOf opts).
  set (init := mkSchema nm [] [] ∅ [] [] ∅ 0 0).
  intros Hrun Hle.
  match type of Hrun with
  | mbind _ (?body init) = _ =>
      destruct (body init) as [[u sc']|] eqn:Hbody; [|discriminate]
  end.
  simpl in Hrun. injection Hrun as <-.
  assert (bound_irrelevant (fun M : ordinal =>
            let! _ := forAttrTypes M (m_attrTypes (mappingsOf opts)) in
            let! _ := forEntityMappings M getComparableType
                        (m_entityMappings (mappingsOf opts)) in
            let! _ := maybeAddAttribute M Self emptyInterfaceType in
            let! _ := set_selfOrdinal in
            let! _ := maybeAddAttribute M Type_ reflectTypeType in
            let! _ := set_typeOrdinal in
            fun sb => Returned (tt, sort.Sort (H:=entityTypeSchemaSort compareTypes) sb)))
    as Hb.
  { apply (bound_irrelevant_bind (fun M => forAttrTypes M _));
      [apply forAttrTypes_bound|intros _].
    apply (bound_irrelevant_bind (fun M => forEntityMappings M _ _));
      [apply forEntityMappings_bound|intros _].
    apply (bound_irrelevant_bind (fun M => maybeAddAttribute M _ _));
      [apply maybeAddAttribute_bound|intros _].
    apply (bound_irrelevant_bind (fun _ => set_selfOrdinal)).
    { apply bound_irrelevant_const. intros sb x sb' H.
      by apply set_selfOrdinal_Returned in H as (_ & (_ & ? & _) & _). }
    intros _.
    apply (bound_irrelevant_bind (fun M => maybeAddAttribute M _ _));
      [apply maybeAddAttribute_bound|intros _].
    apply (bound_irrelevant_bind (fun _ => set_typeOrdinal)).
    { apply bound_irrelevant_const. intros sb x sb' H.
      by apply set_typeOrdinal_Returned in H as (_ & (_ & ? & _) & _). }
    intros _.
    apply bound_irrelevant_const. intros sb x sb' [= _ <-].
    apply Sort_same_attrs. }
  destruct (Hb _ _ _ Hbody) as [_ Hok]. simpl in Hle.
  rewrite (Hok Hle). done.
Qed.

End Bound.

Section Boundary.

Variable M : ordinal.
Variable compareTypes : reflect.rtype -> reflect.rtype -> bool * bool.
Variable getComparableType : reflect.rtype -> reflect.rtype.

(** C7: the attributes of a build are its registrations, each counted
    once, the two reserved attributes included.  When they are more than
    the maximum, one more or several, [buildSchema] panics.  When they
    are exactly the maximum, a configuration that builds at all, under
    some maximum, builds under this one, with the same schema. *)
Theorem max_attribute_boundary nm opts :
  (M < length (firstOccurrences (registrations opts)) →
   ∃ r, buildSchema M compareTypes getComparableType nm opts = Panicked r)
  ∧ (length (firstOccurrences (registrations opts)) = M →
     ∀ M' sc,
       buildSchema M' compareTypes getComparableType nm opts = Returned sc →
       buildSchema M compareTypes getComparableType nm opts = Returned sc).
Proof.
  split.
  - intros Hlt.
    destruct (buildSchema M compareTypes getComparableType nm opts)
      as [sc|r] eqn:Hrun; [|by eexists].
    apply buildSchema_Returned in Hrun as (((_ & Hle & _) & _) & Hattrs & _).
    rewrite Hattrs in Hle. lia.
  - intros Hlen M' sc Hrun. eapply buildSchema_bound; [done|].
    apply buildSchema_Returned in Hrun as (_ & -> & _). lia.
Qed.

End Boundary.

(** ** Ranks when every record type is mapped once *)

Local Close Scope string_scope.

Section InsertionSort.

Variable compareTypes : reflect.rtype -> reflect.rtype -> bool * bool.
Variable ts : list reflect.rtype.
Hypothesis Horder : strictTotalOn compareTypes ts.

Local Abbreviation less := (fun a b => fst (compareTypes a b)).
Local Abbreviation R := (lessOn compareTypes ts).

Lemma lessOn_irrefl a : ¬ R a a.
Proof.
  destruct Horder as (Hirr & _). intros (Ha & _ & Hlt).
  rewrite (Hirr a Ha) in Hlt. discriminate.
Qed.

Lemma lessOn_trans a b c : R a b → R b c → R a c.
Proof.
  destruct Horder as (_ & Htr & _). intros (Ha & Hb & Hab) (_ & Hc & Hbc).
  split_and!; [done..|]. by apply (Htr a b c).
Qed.

Lemma lessOn_asym a b : R a b → R b a → a = b.
Proof. intros Hab Hba. destruct (lessOn_irrefl a). by eapply lessOn_trans. Qed.

Lemma sink_Permutation x rp : sort.sink less x rp ≡ₚ x :: rp.
Proof.
  induction rp as [|y r IH]; simpl; [done|].
  destruct (fst (compareTypes x y)); [|done].
  rewrite IH. apply perm_swap.
Qed.

Lemma sink_sorted x rp :
  x ∈ ts → x ∉ rp → Forall (.∈ ts) rp →
  StronglySorted (flip R) rp → StronglySorted (flip R) (sort.sink less x rp).
Proof.
  intros Hx Hnotin Hin Hsorted. destruct Horder as (_ & _ & Htot).
  induction Hsorted as [|y r Hr IH Hy]; simpl.
  - repeat constructor.
  - apply Forall_cons in Hin as [Hyts Hin].
    apply not_elem_of_cons in Hnotin as [Hxy Hnotin].
    destruct (fst (compareTypes x y)) eqn:Hlt.
    + constructor; [by apply IH|].
      rewrite sink_Permutation. constructor; [|done].
      by split_and!.
    + assert (R y x) as Hyx.
      { destruct (Htot x y Hx Hyts Hxy) as [H|H]; [congruence|]. by split_and!. }
      constructor; [by constructor|].
      constructor; [done|].
      eapply Forall_impl; [exact Hy|]. simpl. intros z Hz.
      by eapply lessOn_trans.
Qed.

Lemma foldl_sink_sorted l : ∀ rp,
  NoDup (rp ++ l) → Forall (.∈ ts) (rp ++ l) →
  StronglySorted (flip R) rp →
  StronglySorted (flip R) (foldl (fun prefix e => sort.sink less e prefix) rp l)
  ∧ foldl (fun prefix e => sort.sink less e prefix) rp l ≡ₚ rp ++ l.
Proof.
  induction l as [|x l IH]; intros rp Hnd Hin Hs; simpl.
  - by rewrite app_nil_r.
  - assert (rp ++ x :: l ≡ₚ (x :: rp) ++ l) as Hperm.
    { simpl. by rewrite Permutation_middle. }
    rewrite Hperm in Hnd, Hin. simpl in Hnd, Hin.
    apply NoDup_cons in Hnd as [Hx Hnd].
    apply Forall_cons in Hin as [Hxts Hin].
    destruct (IH (sort.sink less x rp)) as [Hsorted Hp].
    + rewrite sink_Permutation. simpl. by apply NoDup_cons.
    + rewrite sink_Permutation. simpl. by apply Forall_cons.
    + apply Forall_app in Hin as [Hin _].
      apply sink_sorted; [done| |done|done].
      rewrite elem_of_app in Hx. tauto.
    + split; [done|]. by rewrite Hp, sink_Permutation, Hperm.
Qed.

Lemma StronglySorted_flip_rev (l : list reflect.rtype) :
  StronglySorted (flip R) l → StronglySorted R (rev l).
Proof.
  induction 1 as [|x l Hl IH Hx]; simpl; [constructor|].
  apply StronglySorted_app_2; [|done|repeat constructor].
  intros a b Ha ->%list_elem_of_singleton.
  rewrite Forall_forall in Hx. apply Hx.
  by apply list_elem_of_In, in_rev, list_elem_of_In.
Qed.

(** [sort.Slice] sorts a slice of distinct types. *)
Lemma Slice_sorted l :
  NoDup l → Forall (.∈ ts) l →
  StronglySorted R (sort.Slice less l) ∧ sort.Slice less l ≡ₚ l.
Proof.
  intros Hnd Hin. unfold sort.Slice.
  destruct (foldl_sink_sorted l []) as [Hs Hp]; [done|done|constructor|].
  split; [by apply StronglySorted_flip_rev|].
  etrans; [symmetry; apply Permutation_rev|exact Hp].
Qed.

(** The sorted slice depends on the set of types only. *)
Lemma Slice_Permutation l1 l2 :
  NoDup l1 → Forall (.∈ ts) l1 → l1 ≡ₚ l2 →
  sort.Slice less l1 = sort.Slice less l2.
Proof.
  intros Hnd Hin Hperm.
  destruct (Slice_sorted l1) as [Hs1 Hp1]; [done..|].
  destruct (Slice_sorted l2) as [Hs2 Hp2]; [by rewrite <- Hperm..|].
  apply (StronglySorted_unique_strong R); [|done|done|].
  - intros a b _ _. apply lessOn_asym.
  - by rewrite Hp1, Hp2.
Qed.

End InsertionSort.

Section SortedSlice.

Variable compareTypes : reflect.rtype -> reflect.rtype -> bool * bool.

Local Abbreviation Swap := (@sort.Swap Schema (entityTypeSchemaSort compareTypes)).
Local Abbreviation Less := (@sort.Less Schema (entityTypeSchemaSort compareTypes)).
Local Abbreviation insertDown :=
  (@sort.insertDown Schema (entityTypeSchemaSort compareTypes)).
Local Abbreviation Sort := (@sort.Sort Schema (entityTypeSchemaSort compareTypes)).
Local Abbreviation less := (fun a b => fst (compareTypes a b)).

Lemma typeOf_Swap e i j r : typeOf (Swap e i j) r = typeOf e r.
Proof.
  unfold typeOf. simpl.
  destruct (entityTypes e !! i) as [p|]; [|done].
  destruct (entityTypes e !! j) as [q|]; [|done]. simpl.
  rewrite !list_lookup_alter.
  destruct (decide (q = r)) as [->|Hq], (decide (p = r)) as [->|Hp];
    by destruct (objects e !! r).
Qed.

Lemma sliceTypes_Swap e i j p q :
  entityTypes e !! i = Some p → entityTypes e !! j = Some q →
  sliceTypes (Swap e i j)
  = <[j := typeOf e p]> (<[i := typeOf e q]> (sliceTypes e)).
Proof.
  intros Hi Hj. unfold sliceTypes.
  rewrite <- !list_fmap_insert.
  assert (entityTypes (Swap e i j) = <[j:=p]> (<[i:=q]> (entityTypes e))) as ->.
  { simpl. by rewrite Hi, Hj. }
  apply list_fmap_ext. intros k r _. apply typeOf_Swap.
Qed.

Lemma sliceTypes_lookup e i a :
  heap_inv e → sliceTypes e !! i = Some a →
  ∃ p o, entityTypes e !! i = Some p ∧ objects e !! p = Some o
         ∧ typ o = a ∧ typID o = i ∧ typeOf e p = a.
Proof.
  intros (_ & _ & Hid & _) Hi. unfold sliceTypes in Hi.
  rewrite list_lookup_fmap in Hi.
  destruct (entityTypes e !! i) as [p|] eqn:Hp; [|done].
  simpl in Hi. injection Hi as <-.
  destruct (Hid _ _ Hp) as (o & Ho & Hty).
  exists p, o. unfold typeOf. rewrite Ho. done.
Qed.

Lemma Less_sliceTypes e i j a b :
  heap_inv e → sliceTypes e !! i = Some a → sliceTypes e !! j = Some b →
  Less e i j = fst (compareTypes a b).
Proof.
  intros Hinv Hi Hj.
  destruct (sliceTypes_lookup _ _ _ Hinv Hi) as (p & o & Hp & Ho & <- & _).
  destruct (sliceTypes_lookup _ _ _ Hinv Hj) as (q & o' & Hq & Ho' & <- & _).
  simpl. unfold entityTypeAt. rewrite Hp, Hq. simpl. by rewrite Ho, Ho'.
Qed.

Lemma swap_adjacent {A} (pre : list A) y x post :
  <[length pre := x]> (<[S (length pre) := y]> (pre ++ y :: x :: post)%list)
  = (pre ++ x :: y :: post)%list.
Proof.
  rewrite insert_app_r_alt by lia.
  rewrite insert_app_r_alt by lia.
  replace (S (length pre) - length pre) with 1 by lia.
  by rewrite Nat.sub_diag.
Qed.

(** The inner loop of the insertion sort sinks the element at index
    [length rp] into the sorted prefix before it. *)
Lemma insertDown_sink rp : ∀ e x post,
  heap_inv e → sliceTypes e = rev rp ++ x :: post →
  heap_inv (insertDown e (length rp))
  ∧ sliceTypes (insertDown e (length rp)) = rev (sort.sink less x rp) ++ post
  ∧ entityTypeSchemas (insertDown e (length rp)) = entityTypeSchemas e.
Proof.
  induction rp as [|y r IH]; intros e x post Hinv Hl.
  - by simpl.
  - cbn [length sort.insertDown sort.sink].
    simpl rev in Hl. rewrite <- app_assoc in Hl. simpl in Hl.
    assert (sliceTypes e !! S (length r) = Some x) as Hx.
    { rewrite Hl, lookup_app_r by (rewrite length_rev; lia).
      rewrite length_rev. by replace (S (length r) - length r) with 1 by lia. }
    assert (sliceTypes e !! length r = Some y) as Hy.
    { rewrite Hl, lookup_app_r by (rewrite length_rev; lia).
      by rewrite length_rev, Nat.sub_diag. }
    fold (Less e (S (length r)) (length r)).
    rewrite (Less_sliceTypes _ _ _ x y Hinv Hx Hy).
    destruct (fst (compareTypes x y)) eqn:Hlt.
    + destruct (sliceTypes_lookup _ _ _ Hinv Hx) as (p & _ & Hp & _ & _ & _ & Htp).
      destruct (sliceTypes_lookup _ _ _ Hinv Hy) as (q & _ & Hq & _ & _ & _ & Htq).
      fold (Swap e (S (length r)) (length r)).
      destruct (IH (Swap e (S (length r)) (length r)) x (y :: post))
        as (Hinv' & Hl' & Hm').
      * by apply Swap_heap_inv.
      * rewrite (sliceTypes_Swap _ _ _ p q Hp Hq), Htp, Htq, Hl.
        rewrite <- (length_rev r). apply swap_adjacent.
      * split_and!; [done| |].
        -- rewrite Hl'. simpl. by rewrite <- app_assoc.
        -- rewrite Hm'. apply Swap_same_attrs.
    + split_and!; [done| |done].
      rewrite Hl. simpl. by rewrite <- !app_assoc.
Qed.

Lemma length_sink {A} (lt : A → A → bool) x l :
  length (sort.sink lt x l) = S (length l).
Proof. induction l as [|y r IH]; simpl; [done|]. destruct (lt x y); simpl; lia. Qed.

Lemma length_foldl_sink {A} (lt : A → A → bool) l : ∀ acc,
  length (foldl (fun prefix e => sort.sink lt e prefix) acc l)
  = length acc + length l.
Proof.
  induction l as [|x l IH]; intros acc; simpl; [lia|].
  rewrite IH, length_sink. lia.
Qed.

(** The outer loop: after the elements at indices 1 to [k] have been
    inserted, the first [k + 1] elements are the sorted prefix. *)
Lemma insertionSort_prefix k : ∀ e,
  heap_inv e → S k ≤ length (sliceTypes e) →
  heap_inv (foldl insertDown e (seq 1 k))
  ∧ sliceTypes (foldl insertDown e (seq 1 k))
    = sort.Slice less (take (S k) (sliceTypes e)) ++ drop (S k) (sliceTypes e)
  ∧ entityTypeSchemas (foldl insertDown e (seq 1 k)) = entityTypeSchemas e.
Proof.
  induction k as [|k IH]; intros e Hinv Hlen.
  - simpl. split_and!; [done| |done].
    destruct (sliceTypes e) as [|x l]; [simpl in Hlen; lia|].
    reflexivity.
  - rewrite seq_S, foldl_app. cbn [foldl]. change (1 + k) with (S k).
    destruct (IH e Hinv) as (Hinv' & Hl' & Hm'); [lia|].
    remember (foldl insertDown e (seq 1 k)) as e' eqn:He'. clear He'.
    remember (sliceTypes e) as l eqn:Hel. clear Hel.
    assert (is_Some (l !! S k)) as [x Hx] by (apply lookup_lt_is_Some; lia).
    set (rp := foldl (fun prefix e => sort.sink less e prefix) [] (take (S k) l)).
    assert (length rp = S k) as Hrp.
    { unfold rp. rewrite length_foldl_sink, length_take. cbn [length]. lia. }
    assert (sliceTypes e' = rev rp ++ x :: drop (S (S k)) l) as Hl''.
    { rewrite Hl'. unfold sort.Slice. fold rp. f_equal.
      by apply drop_S. }
    destruct (insertDown_sink rp e' x _ Hinv' Hl'') as (Hinv'' & Hl3 & Hm3).
    rewrite Hrp in Hinv'', Hl3, Hm3.
    split_and!; [done| |congruence].
    rewrite Hl3. f_equal. unfold sort.Slice. f_equal.
    rewrite (take_S_r _ _ _ Hx), foldl_app. done.
Qed.

(** When [Len] is the length of the slice, [sort.Sort] sorts the slice. *)
Lemma Sort_sliceTypes e :
  heap_inv e → size (entityTypeSchemas e) = length (sliceTypes e) →
  heap_inv (Sort e)
  ∧ sliceTypes (Sort e) = sort.Slice less (sliceTypes e)
  ∧ entityTypeSchemas (Sort e) = entityTypeSchemas e.
Proof.
  intros Hinv Hlen. unfold sort.Sort, sort.insertionSort.
  change (sort.Len e) with (size (entityTypeSchemas e)). rewrite Hlen.
  destruct (sliceTypes e) as [|x l] eqn:Hl.
  - simpl. split_and!; [done| |done]. by rewrite Hl.
  - simpl length. replace (S (length l) - 1) with (length l) by lia.
    destruct (insertionSort_prefix (length l) e Hinv) as (Hinv' & Hl' & Hm').
    { rewrite Hl. simpl. lia. }
    split_and!; [done| |done].
    rewrite Hl', Hl.
    rewrite firstn_all2 by (simpl; lia).
    rewrite skipn_all2 by (simpl; lia).
    by rewrite app_nil_r.
Qed.

End SortedSlice.

Section DistinctTypes.

Variable M : ordinal.
Variable compareTypes : reflect.rtype -> reflect.rtype -> bool * bool.
Variable getComparableType : reflect.rtype -> reflect.rtype.

Local Abbreviation Swap := (@sort.Swap Schema (entityTypeSchemaSort compareTypes)).
Local Abbreviation Sort := (@sort.Sort Schema (entityTypeSchemaSort compareTypes)).
Local Abbreviation less := (fun a b => fst (compareTypes a b)).

Lemma entities_inv_same ts sb sb' :
  entities_inv ts sb → same_entities sb sb' → entities_inv ts sb'.
Proof.
  intros (He & Ho & Hs & Hm) (_ & Ho' & He' & Hm').
  unfold entities_inv. by rewrite He', Ho', Hm'.
Qed.

Lemma forAttrTypes_same_entities l : ∀ sb u sb',
  builder_inv M sb → forAttrTypes M l sb = Returned (u, sb') →
  same_entities sb sb'.
Proof.
  induction l as [|t l IH]; intros sb u sb' Hinv Hrun; simpl in *.
  - injection Hrun as _ <-. apply same_entities_refl.
  - bind_inv Hrun.
    destruct (maybeAddAttribute_advance _ _ _ _ _ _ Hinv Hstep)
      as ((Hinv' & _) & Hsame & _).
    eapply same_entities_trans; [done|]. by eapply IH.
Qed.

Lemma maybeAddTypeMapping_entities ts t ams sb u sb' :
  builder_inv M sb → entities_inv ts sb → t ∉ ts →
  maybeAddTypeMapping M getComparableType t ams sb = Returned (u, sb') →
  entities_inv (ts ++ [t]) sb'.
Proof.
  intros Hinv Hent Hnotin Hrun. unfold maybeAddTypeMapping in Hrun.
  destruct (isStructPointer t); simpl in Hrun; [|discriminate].
  bind_inv Hrun.
  apply forAttrMappings_advance in Hstep as (_ & Hsame & _);
    [|done|by constructor].
  injection Hrun as _ <-.
  destruct (entities_inv_same _ _ _ Hent Hsame) as (He & Ho & Hs & Hm).
  assert (length (objects sb0) = length ts) as Hlen.
  { by rewrite <- Ho, length_fmap. }
  assert (entityTypeSchemas sb0 !! t = None) as Hfresh.
  { destruct (entityTypeSchemas sb0 !! t) as [p|] eqn:Hp; [|done].
    apply Hm in Hp. destruct Hnotin. by eapply list_elem_of_lookup_2. }
  unfold entities_inv; simpl. split_and!.
  - by rewrite He, Hlen, length_app, Nat.add_comm, seq_S.
  - by rewrite fmap_app, Ho.
  - rewrite map_size_insert_None by done. rewrite Hs, length_app. simpl. lia.
  - intros t' p. rewrite Hlen. destruct (decide (t = t')) as [<-|Hne].
    + rewrite lookup_insert_eq. split.
      * intros [= <-]. rewrite lookup_app_r by lia. by rewrite Nat.sub_diag.
      * intros Hp. apply lookup_app_Some in Hp as [Hp|[Hge Hp]].
        -- destruct Hnotin. by eapply list_elem_of_lookup_2.
        -- apply list_lookup_singleton_Some in Hp as [Hp _]. f_equal. lia.
    + rewrite lookup_insert_ne by done. rewrite Hm. split.
      * apply lookup_app_l_Some.
      * intros Hp. apply lookup_app_Some in Hp as [Hp|[Hge Hp]]; [done|].
        apply list_lookup_singleton_Some in Hp as [_ Hp]. congruence.
Qed.

Lemma forEntityMappings_entities l : ∀ ts sb u sb',
  builder_inv M sb → entities_inv ts sb → NoDup (ts ++ (em_typ <$> l)) →
  forEntityMappings M getComparableType l sb = Returned (u, sb') →
  entities_inv (ts ++ (em_typ <$> l)) sb'.
Proof.
  induction l as [|tm l IH]; intros ts sb u sb' Hinv Hent Hnd Hrun; simpl in *.
  - injection Hrun as _ <-. by rewrite app_nil_r.
  - bind_inv Hrun.
    assert (em_typ tm ∉ ts) as Hnotin.
    { apply NoDup_app in Hnd as (_ & Hdis & _). intros Hin.
      apply (Hdis _ Hin). by left. }
    pose proof (maybeAddTypeMapping_entities _ _ _ _ _ _ Hinv Hent Hnotin Hstep)
      as Hent'.
    apply maybeAddTypeMapping_advance in Hstep as ((Hinv' & _) & _); [|done].
    rewrite cons_middle, (assoc_L (++) ts [em_typ tm]) in Hnd |- *.
    by eapply IH.
Qed.

(** The builder before the final sort. *)
Lemma buildSchema_before_Sort nm opts sc :
  buildSchema M compareTypes getComparableType nm opts = Returned sc →
  NoDup (mappedTypes opts) →
  ∃ sb, sc = Sort sb ∧ heap_inv sb ∧ entities_inv (mappedTypes opts) sb.
Proof.
  unfold buildSchema. fold (mappingsOf opts).
  set (init := mkSchema nm [] [] ∅ [] [] ∅ 0 0).
  intros Hrun Hnd.
  destruct (mbind (M:=builder) _ _ init) as [[u sc']|] eqn:Hbody;
    [|discriminate].
  simpl in Hrun. injection Hrun as <-.
  pose proof (builder_inv_init M nm) as Hinit. fold init in Hinit.
  bind_inv Hbody. rename sb into sb1, Hstep into H1.
  bind_inv Hbody. rename sb into sb2, Hstep into H2.
  bind_inv Hbody. rename sb into sb3, Hstep into H3.
  bind_inv Hbody. rename sb into sb4, Hstep into H4.
  bind_inv Hbody. rename sb into sb5, Hstep into H5.
  bind_inv Hbody. rename sb into sb6, Hstep into H6.
  injection Hbody as _ <-.
  assert (entities_inv [] init) as E0.
  { unfold entities_inv; simpl. split_and!; try done. }
  pose proof (forAttrTypes_same_entities _ _ _ _ Hinit H1) as S1.
  apply forAttrTypes_advance in H1 as (I1 & _); [|done].
  pose proof (entities_inv_same _ _ _ E0 S1) as E1.
  pose proof (forEntityMappings_entities _ [] _ _ _ I1 E1 Hnd H2) as E2.
  apply forEntityMappings_advance in H2 as (I2 & _); [|done].
  destruct (maybeAddAttribute_advance _ _ _ _ _ _ I2 H3)
    as ((I3 & _) & S3 & _).
  destruct (set_selfOrdinal_Returned _ _ _ H4) as (_ & Sa4 & S4 & _).
  pose proof (builder_inv_same _ _ _ I3 Sa4 S4) as I4.
  destruct (maybeAddAttribute_advance _ _ _ _ _ _ I4 H5)
    as ((I5 & _) & S5 & _).
  destruct (set_typeOrdinal_Returned _ _ _ H6) as (_ & Sa6 & S6 & _).
  pose proof (builder_inv_same _ _ _ I5 Sa6 S6) as I6.
  exists sb6. split; [done|]. split; [apply I6|].
  eapply entities_inv_same; [exact E2|].
  repeat (eapply same_entities_trans; [eassumption|]).
  apply same_entities_refl.
Qed.

Lemma sliceTypes_entities ts sb : entities_inv ts sb → sliceTypes sb = ts.
Proof.
  intros (He & Ho & _). unfold sliceTypes. rewrite He.
  apply list_eq. intros i. rewrite list_lookup_fmap.
  destruct (decide (i < length ts)) as [Hlt|Hge].
  - rewrite lookup_seq_lt by done. simpl. unfold typeOf.
    rewrite <- Ho, list_lookup_fmap.
    rewrite <- Ho, length_fmap in Hlt.
    apply lookup_lt_is_Some in Hlt as [o Hlt]. by rewrite Hlt.
  - rewrite lookup_seq_ge by lia. simpl. symmetry. apply lookup_ge_None. lia.
Qed.

Lemma swapIndex_involutive i j k : swapIndex i j (swapIndex i j k) = k.
Proof. unfold swapIndex. repeat case_decide; congruence. Qed.

Lemma Sort_elem_of e p : p ∈ entityTypes (Sort e) ↔ p ∈ entityTypes e.
Proof.
  revert p. apply (Sort_preserves compareTypes
                     (fun e' => ∀ p, p ∈ entityTypes e' ↔ p ∈ entityTypes e));
    [|done].
  intros e' i j IH p. rewrite <- IH. clear IH.
  destruct (entityTypes e' !! i) as [a|] eqn:Hi; [|by simpl; rewrite Hi].
  destruct (entityTypes e' !! j) as [b|] eqn:Hj; [|by simpl; rewrite Hi, Hj].
  rewrite !list_elem_of_lookup. split; intros [k Hk].
  - rewrite (Swap_lookup _ _ _ _ _ _ _ Hi Hj) in Hk. eauto.
  - exists (swapIndex i j k).
    by rewrite (Swap_lookup _ _ _ _ _ _ _ Hi Hj), swapIndex_involutive.
Qed.

(** When every record type is mapped once, the rank of a record type is its
    index among the mapped types sorted by [compareTypes]. *)
Lemma typeRank_sorted nm opts sc :
  strictTotalOn compareTypes (mappedTypes opts) → NoDup (mappedTypes opts) →
  buildSchema M compareTypes getComparableType nm opts = Returned sc →
  ∀ t r, typeRank sc t = Some r ↔ sort.Slice less (mappedTypes opts) !! r = Some t.
Proof.
  intros Hord Hnd Hrun.
  destruct (buildSchema_before_Sort _ _ _ Hrun Hnd) as (sb & -> & Hinv & Hent).
  set (ts := mappedTypes opts) in *.
  pose proof (sliceTypes_entities _ _ Hent) as Hslice.
  destruct (Sort_sliceTypes compareTypes sb Hinv) as (Hinv' & Hsorted & Hmap).
  { rewrite Hslice. apply Hent. }
  rewrite Hslice in Hsorted.
  assert (Forall (.∈ ts) ts) as Hall by by apply Forall_forall.
  destruct (Slice_sorted compareTypes ts Hord ts Hnd Hall) as [_ Hperm].
  assert (NoDup (sort.Slice less ts)) as Hnd' by by rewrite Hperm.
  assert (∀ t r, typeRank (Sort sb) t = Some r → sort.Slice less ts !! r = Some t)
    as Hto.
  { intros t r Hr. unfold typeRank, entityTypeSchemaOf in Hr.
    rewrite Hmap in Hr.
    destruct (entityTypeSchemas sb !! t) as [p|] eqn:Hp; [|done].
    simpl in Hr.
    destruct (objects (Sort sb) !! p) as [o|] eqn:Ho; [|done].
    simpl in Hr. injection Hr as <-.
    assert (p ∈ entityTypes (Sort sb)) as [i Hi]%list_elem_of_lookup.
    { apply Sort_elem_of. destruct Hent as (He & _ & _ & Hm).
      rewrite He. apply elem_of_seq. apply Hm in Hp.
      apply lookup_lt_Some in Hp. lia. }
    destruct Hinv' as (_ & _ & Hid & Hm' & _).
    destruct (Hid _ _ Hi) as (o' & Ho' & Hty).
    rewrite Hmap in Hm'. destruct (Hm' _ _ Hp) as (o'' & Ho'' & Htyp).
    simplify_eq. rewrite <- Hsorted. unfold sliceTypes.
    rewrite list_lookup_fmap, Hi. simpl. unfold typeOf. by rewrite Ho. }
  intros t r. split; [apply Hto|].
  intros Hr.
  assert (t ∈ ts) as [p Hp]%list_elem_of_lookup.
  { rewrite <- Hperm. by eapply list_elem_of_lookup_2. }
  destruct Hent as (_ & _ & _ & Hm). apply Hm in Hp.
  destruct Hinv' as (_ & _ & _ & Hm' & _).
  rewrite Hmap in Hm'. destruct (Hm' _ _ Hp) as (o & Ho & _).
  assert (typeRank (Sort sb) t = Some (typID o)) as Hrank.
  { unfold typeRank, entityTypeSchemaOf. rewrite Hmap, Hp. simpl. by rewrite Ho. }
  rewrite Hrank. f_equal.
  apply Hto in Hrank. rewrite NoDup_alt in Hnd'. by eapply Hnd'.
Qed.

Lemma strictTotalOn_Permutation ts1 ts2 :
  ts1 ≡ₚ ts2 → strictTotalOn compareTypes ts1 → strictTotalOn compareTypes ts2.
Proof.
  intros Hperm (Hirr & Htr & Htot). split_and!.
  - intros a. rewrite <- Hperm. apply Hirr.
  - intros a b c. rewrite <- !Hperm. apply Htr.
  - intros a b. rewrite <- !Hperm. apply Htot.
Qed.

(** X17: Rank determinism, for configurations that map every record type once:
    two builds of the same record types, in two registration orders, give
    every record type the same rank, and the ranks are exactly the numbers
    below the number of record types. *)
Theorem typeRank_order_independent_without_duplicates nm opts1 opts2 sc1 sc2 :
  strictTotalOn compareTypes (mappedTypes opts1) →
  NoDup (mappedTypes opts1) →
  mappedTypes opts1 ≡ₚ mappedTypes opts2 →
  buildSchema M compareTypes getComparableType nm opts1 = Returned sc1 →
  buildSchema M compareTypes getComparableType nm opts2 = Returned sc2 →
  (∀ t, typeRank sc1 t = typeRank sc2 t)
  ∧ (∀ t, t ∈ mappedTypes opts1 →
       ∃ r, typeRank sc1 t = Some r ∧ r < length (mappedTypes opts1))
  ∧ (∀ r, r < length (mappedTypes opts1) →
       ∃ t, t ∈ mappedTypes opts1 ∧ typeRank sc1 t = Some r).
Proof.
  intros Hord Hnd Hperm Hrun1 Hrun2.
  pose proof (typeRank_sorted _ _ _ Hord Hnd Hrun1) as H1.
  assert (NoDup (mappedTypes opts2)) as Hnd2 by by rewrite <- Hperm.
  pose proof (typeRank_sorted _ _ _
                (strictTotalOn_Permutation _ _ Hperm Hord) Hnd2 Hrun2) as H2.
  assert (Forall (.∈ mappedTypes opts1) (mappedTypes opts1)) as Hall
    by by apply Forall_forall.
  rewrite <- (Slice_Permutation compareTypes _ Hord _ _ Hnd Hall Hperm) in H2.
  destruct (Slice_sorted compareTypes _ Hord _ Hnd Hall) as [_ Hp].
  split_and!.
  - intros t. apply option_eq. intros r. by rewrite H1, H2.
  - intros t Ht. rewrite <- Hp in Ht.
    apply list_elem_of_lookup in Ht as [r Hr]. exists r. split.
    + by apply H1.
    + apply lookup_lt_Some in Hr. by rewrite Hp in Hr.
  - intros r Hr. rewrite <- Hp in Hr.
    apply lookup_lt_is_Some in Hr as [t Ht]. exists t. split.
    + rewrite <- Hp. by eapply list_elem_of_lookup_2.
    + by apply H1.
Qed.

End DistinctTypes.

Local Open Scope string_scope.
Local Open Scope nat_scope.

(** ** The claims on the example configurations *)

Lemma built_Returned M opts :
  Example.isReturned (Example.build M opts) = true →
  Example.build M opts = Returned (Example.built M opts).
Proof.
  unfold Example.built. by destruct (Example.build M opts).
Qed.

(** A field mapping of [*Node] that returns, with what it resolved. *)
Lemma mapField_Returned a sel :
  Example.isReturned (Example.mapField a sel) = true →
  ∃ fi sb' offset cur,
    Example.mapField a sel = Returned (fi, sb')
    ∧ getOffsetAndTypeFromSelector (reflect.PtrTo Example.Node) sel
      = Returned (offset, cur)
    ∧ makeFieldFlags cur = (flags fi, true)
    ∧ value fi = makeValue (flags fi) cur offset
    ∧ comparableValue fi
      = makeComparableValue Example.getComparableType (flags fi) cur (f_typ fi) offset
    ∧ f_typ fi = (if isPtr (flags fi) && isScalar (flags fi)
                  then elemOf cur else cur).
Proof.
  intros H. destruct (Example.mapField a sel) as [[fi sb']|] eqn:E; [|done].
  destruct (addTypeAttrMapping_fieldInfo _ _ _ _ _ _ _ _ E)
    as (offset & cur & Hsel & Hf & _ & Ht & Hv & _ & Hc & _).
  by exists fi, sb', offset, cur.
Qed.

(** Evaluates the classifier in [H : makeFieldFlags cur = (flags fi, true)]
    at a closed [cur]. *)
Ltac resolved_flags H :=
  match type of H with
  | makeFieldFlags ?cur = (flags ?fi, true) =>
      let f := eval vm_compute in (makeFieldFlags cur) in
      change (f = (flags fi, true)) in H; injection H as H
  end.

Lemma ordinal_density_witness :
  Example.build 8 Example.nodeMapping = Returned (Example.built 8 Example.nodeMapping)
  ∧ NoDup (attrs (Example.built 8 Example.nodeMapping))
  ∧ attrs (Example.built 8 Example.nodeMapping)
    = firstOccurrences (registrations Example.nodeMapping).
Proof.
  assert (Example.build 8 Example.nodeMapping
          = Returned (Example.built 8 Example.nodeMapping)) as Hrun
    by (apply built_Returned; vm_compute; reflexivity).
  split; [exact Hrun|].
  destruct (ordinal_density 8 Example.compareTypes Example.getComparableType
              "example" Example.nodeMapping _ Hrun) as (Hnd & _ & _ & Hfirst).
  split; [exact Hnd|exact Hfirst].
Defined.

Lemma NewSchema_all_or_nothing_witness :
  (∃ sc, NewSchema 8 Example.compareTypes Example.getComparableType "example"
           Example.nodeMapping = (Some sc, None) ∧ Schema_valid 8 sc)
  ∧ NewSchema 2 Example.compareTypes Example.getComparableType "example"
      Example.oneAttr
    = (None, Some (Wrap_failed_to_construct_schema Errorf_too_many_attributes)).
Proof.
  split.
  - pose proof (NewSchema_all_or_nothing 8 Example.compareTypes
                  Example.getComparableType "example" Example.nodeMapping) as H.
    assert (Example.build 8 Example.nodeMapping
            = Returned (Example.built 8 Example.nodeMapping)) as Hrun
      by (apply built_Returned; vm_compute; reflexivity).
    unfold NewSchema in *. unfold Example.build in Hrun. rewrite Hrun in *.
    eexists. split; [reflexivity|apply H].
  - vm_compute. reflexivity.
Defined.

Lemma reserved_attributes_witness :
  (Example.build 8 [] = Returned (Example.built 8 [])
   ∧ getOrdinal (Example.built 8 []) Self = (0, None)
   ∧ getOrdinal (Example.built 8 []) Type_ = (1, None))
  ∧ (Example.build 8 Example.oneAttr = Returned (Example.built 8 Example.oneAttr)
     ∧ getOrdinal (Example.built 8 Example.oneAttr) Self = (1, None)
     ∧ getOrdinal (Example.built 8 Example.oneAttr) Type_ = (2, None)
     ∧ reserved_highest (Example.built 8 Example.oneAttr)).
Proof.
  split.
  - assert (Example.build 8 [] = Returned (Example.built 8 [])) as Hrun
      by (apply built_Returned; vm_compute; reflexivity).
    split; [exact Hrun|].
    destruct (reserved_attributes 8 Example.compareTypes Example.getComparableType
                "example" [] _ Hrun) as (HS & HT & _).
    split; [exact HS|exact HT].
  - assert (Example.build 8 Example.oneAttr
            = Returned (Example.built 8 Example.oneAttr)) as Hrun
      by (apply built_Returned; vm_compute; reflexivity).
    split; [exact Hrun|].
    destruct (reserved_attributes 8 Example.compareTypes Example.getComparableType
                "example" Example.oneAttr _ Hrun) as (HS & HT & _ & _ & Hlast).
    split; [exact HS|]. split; [exact HT|].
    apply Hlast.
    + vm_compute. intros H. apply list_elem_of_In in H. simpl in H.
      destruct H as [H|[]]. discriminate H.
    + vm_compute. intros H. apply list_elem_of_In in H. simpl in H.
      destruct H as [H|[]]. discriminate H.
Defined.

(** C9 as stated fails when the caller's options register [Self]: it keeps
    the ordinal of its first registration, 0, below that of the attribute
    registered after it. *)
Lemma reserved_not_highest_counterexample :
  Example.build 8 Example.selfFirst = Returned (Example.built 8 Example.selfFirst)
  ∧ attrs (Example.built 8 Example.selfFirst) = [Self; UserAttr "x"; Type_]
  ∧ selfOrdinal (Example.built 8 Example.selfFirst) = 0
  ∧ attrToOrdinal (Example.built 8 Example.selfFirst) !! UserAttr "x" = Some 1
  ∧ ¬ reserved_highest (Example.built 8 Example.selfFirst).
Proof.
  split; [apply built_Returned; vm_compute; reflexivity|].
  split; [vm_compute; reflexivity|]. split; [vm_compute; reflexivity|].
  split; [vm_compute; reflexivity|].
  intros H. destruct (H (UserAttr "x") 1) as [Hlt _].
  - vm_compute. reflexivity.
  - discriminate.
  - discriminate.
  - vm_compute in Hlt. lia.
Qed.

Lemma attribute_type_validation_witness :
  attrs_inv (Example.built 8 Example.oneAttr)
  ∧ maybeAddAttribute 8 (UserAttr "x") Example.string_ (Example.built 8 Example.oneAttr)
    = Panicked (panic_error
        (Wrapf_type_mismatch_for
           (Errorf_is_not Example.string_ Example.int64) (UserAttr "x")))
  ∧ maybeAddAttribute 8 (UserAttr "x") Example.int64 (Example.built 8 Example.oneAttr)
    = Returned (0, Example.built 8 Example.oneAttr)
  ∧ maybeAddAttribute 8 Self Example.int64 (Example.built 8 Example.oneAttr)
    = Returned (1, Example.built 8 Example.oneAttr).
Proof.
  assert (Example.build 8 Example.oneAttr
          = Returned (Example.built 8 Example.oneAttr)) as Hrun
    by (apply built_Returned; vm_compute; reflexivity).
  assert (attrs_inv (Example.built 8 Example.oneAttr)) as Hinv.
  { apply buildSchema_Returned in Hrun. apply Hrun. }
  split; [exact Hinv|].
  pose proof (attribute_type_validation 8 (UserAttr "x") Example.string_ _ Hinv) as H1.
  pose proof (attribute_type_validation 8 (UserAttr "x") Example.int64 _ Hinv) as H2.
  pose proof (attribute_type_validation 8 Self Example.int64 _ Hinv) as H3.
  assert (attrToOrdinal (Example.built 8 Example.oneAttr) !! UserAttr "x" = Some 0)
    as Hx by (vm_compute; reflexivity).
  assert (attrToOrdinal (Example.built 8 Example.oneAttr) !! Self = Some 1)
    as Hs by (vm_compute; reflexivity).
  destruct H1 as [H1 _], H2 as [H2 _], H3 as [H3 _].
  rewrite Hx in H1, H2. rewrite Hs in H3.
  destruct H1 as (p1 & Hp1 & H1), H2 as (p2 & Hp2 & H2), H3 as (p3 & Hp3 & H3).
  vm_compute in Hp1, Hp2, Hp3.
  injection Hp1 as <-. injection Hp2 as <-. injection Hp3 as <-.
  split; [exact H1|]. split; [exact H2|exact H3].
Defined.

Lemma selector_resolution_witness :
  getOffsetAndTypeFromSelector (reflect.PtrTo Example.Node) "A.B"
  = Returned (8%Z, Example.int64)
  ∧ getOffsetAndTypeFromSelector (reflect.PtrTo Example.Node) "A.Z"
    = Panicked (panic_error (Errorf_is_not_a_field (reflect.PtrTo Example.Node) "A.Z")).
Proof.
  destruct (selector_resolution 8 Example.getComparableType) as [H1 H2].
  split.
  - unfold Example.Node.
    eapply (H1 _ _ _ _ "A" "B" (reflect.mkStructField "A" Example.Inner 8)
              _ _ _ _ (reflect.mkStructField "B" Example.int64 0));
      try reflexivity; simpl; lia.
  - eapply (proj1 (H2 (reflect.PtrTo Example.Node) "A.Z" Example.Node ["A"] "Z" []
                      8%Z _ _ _ _ Self Example.init
                      eq_refl eq_refl eq_refl eq_refl)).
Defined.

Lemma optional_integer_accessors_witness :
  ∃ fi sb', Example.mapField "count" "Count" = Returned (fi, sb')
    ∧ value fi Example.memory 2000%Z = reflect.Val reflect.nil
    ∧ inline fi Example.memory 2000%Z = reflect.Val (0%Z, false)
    ∧ value fi Example.memory 1000%Z = reflect.Val (reflect.IfInt Example.int64 7)
    ∧ inline fi Example.memory 1000%Z = reflect.Val (7%Z, true).
Proof.
  destruct (mapField_Returned "count" "Count") as (fi & sb' & _ & _ & E & _);
    [vm_compute; reflexivity|].
  exists fi, sb'. split; [exact E|].
  destruct (optional_integer_accessors 8 Example.getComparableType) as [H _].
  assert (getOffsetAndTypeFromSelector (reflect.PtrTo Example.Node) "Count"
          = Returned (24%Z, reflect.PtrTo Example.int64)) as Hsel by reflexivity.
  destruct (H _ _ _ _ _ _ _ _ Example.memory 2000%Z E Hsel eq_refl) as [Hnil _];
    [vm_compute; discriminate|].
  destruct (H _ _ _ _ _ _ _ _ Example.memory 1000%Z E Hsel eq_refl) as [_ Hset];
    [vm_compute; discriminate|].
  destruct (Hnil eq_refl) as [Hv0 Hi0].
  destruct Hset as [Hv7 Hi7]; [vm_compute; discriminate|reflexivity|].
  split; [exact Hv0|]. split; [exact Hi0|]. split; [exact Hv7|exact Hi7].
Defined.

Lemma comparable_value_references_witness :
  (∃ fi sb', Example.mapField "id" "ID" = Returned (fi, sb')
     ∧ comparableValue fi Example.memory 1000%Z
       = reflect.Val (reflect.IfPtr (reflect.PtrTo Example.int64) 1000%Z)
     ∧ comparableValue fi Example.memory 1000%Z ≠ comparableValue fi Example.memory 2000%Z)
  ∧ (∃ fi sb', Example.mapField "next" "Next" = Returned (fi, sb')
       ∧ comparableValue fi Example.memory 1000%Z ≠ comparableValue fi Example.memory 3000%Z).
Proof.
  split.
  - destruct (mapField_Returned "id" "ID")
      as (fi & sb' & offset & cur & E & Hsel & Hf & _ & _ & Ht);
      [vm_compute; reflexivity|].
    exists fi, sb'. split; [exact E|].
    vm_compute in Hsel. injection Hsel as <- <-.
    resolved_flags Hf.
    rewrite <- Hf in Ht. simpl in Ht.
    destruct (comparable_value_references 8 Example.getComparableType _ _ _ _ _ _
                0%Z Example.int64 E eq_refl) as (Hplain & _ & _).
    destruct Hplain as [Hrep Hne]; [by rewrite <- Hf|by rewrite <- Hf|].
    split.
    + rewrite Hrep, Ht. reflexivity.
    + apply Hne. vm_compute. discriminate.
  - destruct (mapField_Returned "next" "Next")
      as (fi & sb' & offset & cur & E & Hsel & Hf & _);
      [vm_compute; reflexivity|].
    exists fi, sb'. split; [exact E|].
    vm_compute in Hsel. injection Hsel as <- <-.
    resolved_flags Hf.
    destruct (comparable_value_references 8 Example.getComparableType _ _ _ _ _ _
                32%Z (reflect.PtrTo Example.Leaf) E eq_refl) as (_ & _ & Hstruct).
    destruct Hstruct as [_ Hne]; [by rewrite <- Hf|].
    apply Hne; vm_compute; discriminate.
Defined.

(** C5 as stated fails for plain scalar fields: two [Node] entities with the
    same [ID] give equal [value] results and unequal [comparableValue]
    results, the addresses of their [ID] fields. *)
Lemma comparable_value_counterexample :
  ∃ fi sb', Example.mapField "id" "ID" = Returned (fi, sb')
    ∧ isScalar (flags fi) = true
    ∧ value fi Example.memory 1000%Z = reflect.Val (reflect.IfInt Example.int64 42)
    ∧ value fi Example.memory 2000%Z = reflect.Val (reflect.IfInt Example.int64 42)
    ∧ comparableValue fi Example.memory 1000%Z
      = reflect.Val (reflect.IfPtr (reflect.PtrTo Example.int64) 1000%Z)
    ∧ comparableValue fi Example.memory 2000%Z
      = reflect.Val (reflect.IfPtr (reflect.PtrTo Example.int64) 2000%Z)
    ∧ comparableValue fi Example.memory 1000%Z ≠ comparableValue fi Example.memory 2000%Z.
Proof.
  destruct (mapField_Returned "id" "ID")
    as (fi & sb' & offset & cur & E & Hsel & Hf & Hv & Hc & Ht);
    [vm_compute; reflexivity|].
  exists fi, sb'. split; [exact E|].
  vm_compute in Hsel. injection Hsel as <- <-.
  resolved_flags Hf.
  rewrite <- Hf in Ht, Hv, Hc. simpl in Ht. rewrite Ht in Hc.
  rewrite <- Hf, Hv, Hc.
  split_and!; try (vm_compute; reflexivity).
  vm_compute. discriminate.
Qed.

Lemma optional_scalar_unwrapped_witness :
  (∃ fi sb', Example.mapField "count" "Count" = Returned (fi, sb')
     ∧ f_typ fi = Example.int64)
  ∧ (∃ sc, Example.build 8 [Example.mapPlain (UserAttr "x") Example.int64;
                            Example.mapOptional (UserAttr "x") Example.int64]
           = Returned sc
       ∧ attrs sc = [UserAttr "x"; Self; Type_]
       ∧ attrTypes sc !! 0 = Some Example.int64).
Proof.
  destruct (optional_scalar_unwrapped 8 Example.compareTypes Example.getComparableType)
    as [H1 H2].
  split.
  - destruct (mapField_Returned "count" "Count")
      as (fi & sb' & offset & cur & E & Hsel & Hf & _);
      [vm_compute; reflexivity|].
    exists fi, sb'. split; [exact E|].
    vm_compute in Hsel. injection Hsel as <- <-.
    resolved_flags Hf.
    refine (proj1 (H1 _ _ _ _ _ _ 24%Z Example.int64 E eq_refl _)).
    by rewrite <- Hf.
  - refine (H2 "example" "x" Example.int64 intField eq_refl eq_refl _ _ (or_introl eq_refl)).
    lia.
Defined.

Lemma max_attribute_boundary_witness :
  (∃ r, Example.build 2 Example.oneAttr = Panicked r)
  ∧ Example.build 3 Example.oneAttr = Returned (Example.built 8 Example.oneAttr).
Proof.
  split.
  - refine (proj1 (max_attribute_boundary 2 Example.compareTypes
                     Example.getComparableType "example" Example.oneAttr) _).
    vm_compute. lia.
  - refine (proj2 (max_attribute_boundary 3 Example.compareTypes
                     Example.getComparableType "example" Example.oneAttr) _ 8 _ _).
    + reflexivity.
    + apply built_Returned. vm_compute. reflexivity.
Defined.

(** With exactly the maximum of attributes of the caller's own, the build
    fails: the reserved attributes are registered under the same bound. *)
Lemma max_user_attributes_fail :
  Example.build 1 Example.oneAttr = Panicked (panic_error Errorf_too_many_attributes).
Proof. vm_compute. reflexivity. Qed.

(** The record types [*A] and [*B], each mapped once, have the same ranks
    in both registration orders, and the ranks are 0 and 1. *)
Lemma typeRank_order_independent_example :
  let sc1 := Example.built 8 [Example.mapA; Example.mapB] in
  let sc2 := Example.built 8 [Example.mapB; Example.mapA] in
  let ts := mappedTypes [Example.mapA; Example.mapB] in
  (∀ t, typeRank sc1 t = typeRank sc2 t)
  ∧ (∀ t, t ∈ ts → ∃ r, typeRank sc1 t = Some r ∧ r < length ts)
  ∧ (∀ r, r < length ts → ∃ t, t ∈ ts ∧ typeRank sc1 t = Some r).
Proof.
  intros sc1 sc2 ts.
  apply (typeRank_order_independent_without_duplicates 8 Example.compareTypes
           Example.getComparableType "example"
           [Example.mapA; Example.mapB] [Example.mapB; Example.mapA]).
  - unfold strictTotalOn. split_and!.
    + intros a Ha. vm_compute in Ha. set_unfold.
      destruct Ha as [->|[->|[]]]; vm_compute; reflexivity.
    + intros a b c Ha Hb Hc. vm_compute in Ha, Hb, Hc. set_unfold.
      destruct Ha as [->|[->|[]]]; destruct Hb as [->|[->|[]]];
        destruct Hc as [->|[->|[]]]; vm_compute; congruence.
    + intros a b Ha Hb. vm_compute in Ha, Hb. set_unfold.
      destruct Ha as [->|[->|[]]]; destruct Hb as [->|[->|[]]]; intros Hne;
        try done; vm_compute; auto.
  - by apply (bool_decide_unpack _).
  - apply Permutation_swap.
  - apply built_Returned; vm_compute; reflexivity.
  - apply built_Returned; vm_compute; reflexivity.
Defined.

(** C1 fails on the code when a record type is mapped twice.  The three
    mappings [*A], [*B], [*B] build in either order.  [Len] counts the two
    entries of the map, so that [sort.Sort] orders the first two elements of
    the slice only, and the rank of a record type is the [typID] of its
    last registration: [*A] has rank 0 and [*B] rank 2 in one order, [*A]
    rank 2 and [*B] rank 1 in the other, where [*A], the least type, sits
    last in the slice. *)
Theorem typeRank_depends_on_order_of_duplicates :
  let sc1 := Example.built 8 [Example.mapA; Example.mapB; Example.mapB] in
  let sc2 := Example.built 8 [Example.mapB; Example.mapB; Example.mapA] in
  Example.build 8 [Example.mapA; Example.mapB; Example.mapB] = Returned sc1
  ∧ Example.build 8 [Example.mapB; Example.mapB; Example.mapA] = Returned sc2
  ∧ typeRank sc1 (reflect.PtrTo Example.A) = Some 0
  ∧ typeRank sc1 (reflect.PtrTo Example.B) = Some 2
  ∧ typeRank sc2 (reflect.PtrTo Example.A) = Some 2
  ∧ typeRank sc2 (reflect.PtrTo Example.B) = Some 1
  ∧ (typ <$> entityTypeAt sc2 2) = Some (reflect.PtrTo Example.A)
  ∧ Example.compareTypes (reflect.PtrTo Example.A) (reflect.PtrTo Example.B)
    = (true, false).
Proof.
  intros sc1 sc2.
  split; [apply built_Returned; vm_compute; reflexivity|].
  split; [apply built_Returned; vm_compute; reflexivity|].
  split_and!; vm_compute; reflexivity.
Qed.

(** ** Field flags and accessors *)

(** Evaluates the flag predicates on closed flags. *)
Ltac eval_flags :=
  repeat match goal with
  | |- context [?p ?f] =>
      lazymatch p with
      | isPtr => idtac | isScalar => idtac | isStruct => idtac
      | isInt => idtac | isUint => idtac | isIntLike => idtac
      | isString => idtac
      end;
      let b := eval vm_compute in (p f) in
      lazymatch b with
      | true => change (p f) with true
      | false => change (p f) with false
      end
  end.

Lemma isIntKind_signed k :
  isIntKind k = true →
  reflect.isSigned k = true ∧ isUintKind k = false ∧ k ≠ reflect.String
  ∧ k ≠ reflect.Struct ∧ k ≠ reflect.Ptr ∧ k ≠ reflect.Interface.
Proof. by destruct k. Qed.

Lemma isUintKind_unsigned k :
  isUintKind k = true →
  reflect.isSigned k = false ∧ reflect.isUnsigned k = true
  ∧ isIntKind k = false ∧ k ≠ reflect.String
  ∧ k ≠ reflect.Struct ∧ k ≠ reflect.Ptr ∧ k ≠ reflect.Interface.
Proof. by destruct k. Qed.

Lemma kind_String_flags k :
  k = reflect.String →
  reflect.isSigned k = false ∧ reflect.isUnsigned k = false
  ∧ isIntKind k = false ∧ isUintKind k = false.
Proof. by intros ->. Qed.

Lemma kind_not_Ptr_elemOf t : reflect.kind t ≠ reflect.Ptr → elemOf t = t.
Proof. by destruct t. Qed.

(** X1: The flags of a supported field type: exactly one of the four kinds,
    which is the kind of the type itself or, for a pointer, of the type it
    points to; the pointer flag is set exactly for a pointer; the struct
    flag only comes with the pointer flag. *)
Theorem makeFieldFlags_one_kind t f :
  makeFieldFlags t = (f, true) →
  Nat.b2n (isInt f) + Nat.b2n (isUint f) + Nat.b2n (isString f)
    + Nat.b2n (isStruct f) = 1
  ∧ isPtr f = bool_decide (reflect.kind t = reflect.Ptr)
  ∧ (isStruct f = true → isPtr f = true)
  ∧ isInt f = isIntKind (reflect.kind (elemOf t))
  ∧ isUint f = isUintKind (reflect.kind (elemOf t))
  ∧ isString f = bool_decide (reflect.kind (elemOf t) = reflect.String)
  ∧ isStruct f = bool_decide (reflect.kind (elemOf t) = reflect.Struct)
  ∧ isScalar f = negb (isStruct f)
  ∧ isIntLike f = isInt f || isUint f.
Proof.
  intros Hf.
  destruct (makeFieldFlags_true _ _ Hf)
    as [(_ & [[-> Hk]|[[-> Hk]|[-> Hk]]])
       |(e & -> & _ & [[-> Hk]|[[-> Hk]|[[-> Hk]|[-> Hk]]]])].
  - destruct (isIntKind_signed _ Hk) as (_ & Hu & Hs & Hst & Hp & _).
    rewrite (kind_not_Ptr_elemOf _ Hp), Hk, Hu.
    rewrite !bool_decide_eq_false_2 by done. by eval_flags.
  - destruct (isUintKind_unsigned _ Hk) as (_ & _ & Hi & Hs & Hst & Hp & _).
    rewrite (kind_not_Ptr_elemOf _ Hp), Hk, Hi.
    rewrite !bool_decide_eq_false_2 by done. by eval_flags.
  - assert (reflect.kind t ≠ reflect.Ptr) as Hp by by rewrite Hk.
    rewrite (kind_not_Ptr_elemOf _ Hp), Hk. by eval_flags.
  - simpl elemOf. simpl (reflect.kind (reflect.PtrTo e)).
    destruct (isIntKind_signed _ Hk) as (_ & Hu & Hs & Hst & _).
    rewrite Hk, Hu. rewrite !(bool_decide_eq_false_2 (reflect.kind e = _)) by done.
    by eval_flags.
  - simpl elemOf. simpl (reflect.kind (reflect.PtrTo e)).
    destruct (isUintKind_unsigned _ Hk) as (_ & _ & Hi & Hs & Hst & _).
    rewrite Hk, Hi. rewrite !(bool_decide_eq_false_2 (reflect.kind e = _)) by done.
    by eval_flags.
  - simpl elemOf. simpl (reflect.kind (reflect.PtrTo e)). rewrite Hk. by eval_flags.
  - simpl elemOf. simpl (reflect.kind (reflect.PtrTo e)). rewrite Hk. by eval_flags.
Qed.

(** Evaluates the powers of two with a closed exponent. *)
Ltac eval_pow :=
  repeat match goal with
  | |- context [(2 ^ ?w)%Z] =>
      let v := eval vm_compute in (2 ^ w)%Z in
      progress change (2 ^ w)%Z with v
  | H : context [(2 ^ ?w)%Z] |- _ =>
      let v := eval vm_compute in (2 ^ w)%Z in
      progress change (2 ^ w)%Z with v in H
  end.

Lemma signed_bounds k z :
  isIntKind k = true →
  (- 2 ^ 63 ≤ reflect.signed (reflect.bits k) z < 2 ^ 63)%Z.
Proof.
  intros Hk. unfold reflect.signed.
  destruct k; try done; simpl reflect.bits; eval_pow;
    match goal with
    | |- context [(z mod ?n)%Z] =>
        pose proof (Z.mod_pos_bound z n ltac:(lia));
        generalize dependent (z mod n)%Z; intros r Hr
    end;
    match goal with
    | |- context [(?x <? ?c)%Z] => destruct (Z.ltb_spec x c)
    end; lia.
Qed.

Lemma unsigned_bounds k z :
  (0 ≤ reflect.unsigned (reflect.bits k) z < 2 ^ 64)%Z.
Proof.
  unfold reflect.unsigned.
  destruct k; simpl reflect.bits; eval_pow;
    match goal with
    | |- context [(z mod ?n)%Z] =>
        pose proof (Z.mod_pos_bound z n ltac:(lia)); lia
    end.
Qed.

(** The conversion to [uintptr] loses nothing of an [int64]. *)
Lemma uintptr_inj_int64 x y :
  (- 2 ^ 63 ≤ x < 2 ^ 63)%Z → (- 2 ^ 63 ≤ y < 2 ^ 63)%Z →
  reflect.uintptr x = reflect.uintptr y → x = y.
Proof.
  unfold reflect.uintptr. intros Hx Hy Heq.
  assert (∀ z, (- 2 ^ 63 ≤ z < 2 ^ 63)%Z →
            (z mod 2 ^ 64 = if z <? 0 then z + 2 ^ 64 else z)%Z) as Hmod.
  { intros z Hz. destruct (z <? 0)%Z eqn:Hneg.
    - apply Z.ltb_lt in Hneg.
      rewrite <- (Z.mod_add z 1 (2 ^ 64)) by lia.
      rewrite Z.mod_small; eval_pow; lia.
    - apply Z.ltb_ge in Hneg. rewrite Z.mod_small; eval_pow; lia. }
  rewrite (Hmod x Hx), (Hmod y Hy) in Heq.
  destruct (x <? 0)%Z eqn:Ex, (y <? 0)%Z eqn:Ey;
    rewrite ?Z.ltb_lt, ?Z.ltb_ge in Ex, Ey; eval_pow; lia.
Qed.

Lemma uintptr_unsigned k z :
  reflect.uintptr (reflect.unsigned (reflect.bits k) z)
  = reflect.unsigned (reflect.bits k) z.
Proof.
  unfold reflect.uintptr. apply Z.mod_small. apply unsigned_bounds.
Qed.

Section Accessors.

Variable M : ordinal.
Variable getComparableType : reflect.rtype -> reflect.rtype.

(** The field the accessors of a field info read, in the entity at [u]. *)
Local Abbreviation fieldAddr offset u := (reflect.uintptr (u + offset)).

(** What the three accessors of a resolved field return, for a field
    address that is not nil, by the kind of the field. *)
Lemma resolved_accessors t fi offset cur :
  getOffsetAndTypeFromSelector t (path fi) = Returned (offset, cur) →
  field_resolved getComparableType t fi →
  ∀ m u, fieldAddr offset u ≠ 0%Z →
    let a := fieldAddr offset u in
    let p := reflect.load_ptr m a in
    (isIntKind (reflect.kind cur) = true ∧ flags fi = intField ∧ f_typ fi = cur
     ∧ value fi m u
       = reflect.Val (reflect.IfInt cur
           (reflect.signed (reflect.bits (reflect.kind cur)) (reflect.load_int m a)))
     ∧ inline fi m u
       = reflect.Val (reflect.uintptr
           (reflect.signed (reflect.bits (reflect.kind cur)) (reflect.load_int m a)),
           true))
    ∨ (isUintKind (reflect.kind cur) = true ∧ flags fi = uintField ∧ f_typ fi = cur
       ∧ value fi m u
         = reflect.Val (reflect.IfInt cur
             (reflect.unsigned (reflect.bits (reflect.kind cur)) (reflect.load_int m a)))
       ∧ inline fi m u
         = reflect.Val (reflect.uintptr
             (reflect.unsigned (reflect.bits (reflect.kind cur)) (reflect.load_int m a)),
             true))
    ∨ (reflect.kind cur = reflect.String ∧ flags fi = stringField ∧ f_typ fi = cur
       ∧ value fi m u = reflect.Val (reflect.IfString cur (reflect.load_string m a))
       ∧ inline fi m u = reflect.Val (0%Z, false))
    ∨ (∃ e, cur = reflect.PtrTo e ∧ isIntKind (reflect.kind e) = true
         ∧ flags fi = Z.lor pointerField intField ∧ f_typ fi = e
         ∧ value fi m u
           = reflect.Val (if (p =? 0)%Z then reflect.nil
                          else reflect.IfInt e
                                 (reflect.signed (reflect.bits (reflect.kind e))
                                    (reflect.load_int m p)))
         ∧ inline fi m u
           = reflect.Val (if (p =? 0)%Z then (0%Z, false)
                          else (reflect.uintptr
                                  (reflect.signed (reflect.bits (reflect.kind e))
                                     (reflect.load_int m p)), true)))
    ∨ (∃ e, cur = reflect.PtrTo e ∧ isUintKind (reflect.kind e) = true
         ∧ flags fi = Z.lor pointerField uintField ∧ f_typ fi = e
         ∧ value fi m u
           = reflect.Val (if (p =? 0)%Z then reflect.nil
                          else reflect.IfInt e
                                 (reflect.unsigned (reflect.bits (reflect.kind e))
                                    (reflect.load_int m p)))
         ∧ inline fi m u
           = reflect.Val (if (p =? 0)%Z then (0%Z, false)
                          else (reflect.uintptr
                                  (reflect.unsigned (reflect.bits (reflect.kind e))
                                     (reflect.load_int m p)), true)))
    ∨ (∃ e, cur = reflect.PtrTo e ∧ reflect.kind e = reflect.String
         ∧ flags fi = Z.lor pointerField stringField ∧ f_typ fi = e
         ∧ value fi m u
           = reflect.Val (if (p =? 0)%Z then reflect.nil
                          else reflect.IfString e (reflect.load_string m p))
         ∧ inline fi m u = reflect.Val (0%Z, false))
    ∨ (∃ e, cur = reflect.PtrTo e ∧ reflect.kind e = reflect.Struct
         ∧ flags fi = Z.lor pointerField structField ∧ f_typ fi = cur
         ∧ value fi m u
           = reflect.Val (if (p =? 0)%Z then reflect.nil else reflect.IfPtr cur p)
         ∧ inline fi m u = reflect.Val (0%Z, false)).
Proof.
  intros Hsel (offset' & cur' & Hsel' & Hflags & Htyp & Hv & Hi & _) m u Ha a p.
  rewrite Hsel in Hsel'. injection Hsel' as <- <-.
  apply Z.eqb_neq in Ha. fold a in Ha.
  rewrite Hv, Hi, Htyp. clear Hv Hi Htyp.
  destruct (makeFieldFlags_true _ _ Hflags)
    as [(_ & [[-> Hk]|[[-> Hk]|[-> Hk]]])
       |(e & -> & _ & [[-> Hk]|[[-> Hk]|[[-> Hk]|[-> Hk]]]])].
  - left. destruct (isIntKind_signed _ Hk) as (Hs & _).
    split_and!; try done; eval_flags; simpl;
      unfold makeValue, makeInline, makeValueGetter, reflect.NewAt;
      eval_flags; simpl; fold a; rewrite Ha; simpl; by rewrite Hs.
  - right; left. destruct (isUintKind_unsigned _ Hk) as (Hs & Hu & _).
    split_and!; try done; eval_flags; simpl;
      unfold makeValue, makeInline, makeValueGetter, reflect.NewAt;
      eval_flags; simpl; fold a; rewrite Ha; simpl; by rewrite ?Hs, Hu.
  - do 2 right; left. destruct (kind_String_flags _ Hk) as (Hs & Hu & _).
    split_and!; try done; eval_flags; simpl;
      unfold makeValue, makeInline, makeValueGetter, reflect.NewAt;
      eval_flags; simpl; fold a; rewrite ?Ha; simpl; by rewrite ?Hs, ?Hu, ?Hk.
  - do 3 right; left. exists e. destruct (isIntKind_signed _ Hk) as (Hs & _).
    split_and!; try done; eval_flags; simpl;
      unfold makeValue, makeInline, makeValueGetter, reflect.NewAt;
      eval_flags; simpl; fold a; rewrite Ha; simpl; fold p;
      destruct (p =? 0)%Z; simpl; by rewrite ?Hs.
  - do 4 right; left. exists e. destruct (isUintKind_unsigned _ Hk) as (Hs & Hu & _).
    split_and!; try done; eval_flags; simpl;
      unfold makeValue, makeInline, makeValueGetter, reflect.NewAt;
      eval_flags; simpl; fold a; rewrite Ha; simpl; fold p;
      destruct (p =? 0)%Z; simpl; by rewrite ?Hs, ?Hu.
  - do 5 right; left. exists e. destruct (kind_String_flags _ Hk) as (Hs & Hu & _).
    split_and!; try done; eval_flags; simpl;
      unfold makeValue, makeInline, makeValueGetter, reflect.NewAt;
      eval_flags; simpl; fold a; rewrite ?Ha; simpl; fold p;
      destruct (p =? 0)%Z; simpl; by rewrite ?Hs, ?Hu, ?Hk.
  - do 6 right. exists e.
    split_and!; try done; eval_flags; simpl;
      unfold makeValue, makeInline, getPtrValue, makeValueGetter, reflect.NewAt;
      eval_flags; simpl; fold a; rewrite ?Ha; simpl; fold p;
      by destruct (p =? 0)%Z.
Qed.

(** [comparableValue] of a resolved field, for a field address that is not
    nil: a pointer, to the field itself for a plain scalar, and else the
    pointer stored in the field, or nil. *)
Lemma resolved_comparableValue t fi offset cur :
  getOffsetAndTypeFromSelector t (path fi) = Returned (offset, cur) →
  field_resolved getComparableType t fi →
  ∀ m u, fieldAddr offset u ≠ 0%Z →
    let a := fieldAddr offset u in
    let p := reflect.load_ptr m a in
    ∃ T, comparableValue fi m u
         = reflect.Val (if isPtr (flags fi)
                        then if (p =? 0)%Z then reflect.nil else reflect.IfPtr T p
                        else reflect.IfPtr T a).
Proof.
  intros Hsel (offset' & cur' & Hsel' & Hflags & Htyp & _ & _ & Hc) m u Ha a p.
  rewrite Hsel in Hsel'. injection Hsel' as <- <-.
  apply Z.eqb_neq in Ha. fold a in Ha. rewrite Hc. clear Hc.
  generalize (f_typ fi). intros typ.
  destruct (makeFieldFlags_true _ _ Hflags)
    as [(_ & [[-> Hk]|[[-> Hk]|[-> Hk]]])
       |(e & -> & _ & [[-> Hk]|[[-> Hk]|[[-> Hk]|[-> Hk]]]])];
    eexists; unfold makeComparableValue, getPtrValue, makeValueGetter, reflect.NewAt;
    eval_flags; simpl; fold a; rewrite ?Ha; simpl; fold p;
    try reflexivity; by destruct (p =? 0)%Z.
Qed.

(** X2: For an integer field, plain or optional, [inline] tells as much as
    [value]: on two entities (in two memories) the inline results are equal
    exactly when the values are.  The conversion of a signed integer to
    [uintptr] is one to one, and an optional field that is not set gives
    [(0, false)], which no field that is set gives. *)
Theorem integer_inline_faithful a t sel sb fi sb' offset cur :
  addTypeAttrMapping M getComparableType a t sel sb = Returned (fi, sb') →
  getOffsetAndTypeFromSelector t sel = Returned (offset, cur) →
  isIntLike (flags fi) = true →
  ∀ m1 u1 m2 u2,
    fieldAddr offset u1 ≠ 0%Z → fieldAddr offset u2 ≠ 0%Z →
    inline fi m1 u1 = inline fi m2 u2 ↔ value fi m1 u1 = value fi m2 u2.
Proof.
  intros Hrun Hsel Hint m1 u1 m2 u2 H1 H2.
  destruct (addTypeAttrMapping_fieldInfo _ _ _ _ _ _ _ _ Hrun)
    as (o' & c' & Hsel' & Hf & Hp & Ht & Hv & Hi & Hc & _).
  assert (field_resolved getComparableType t fi) as Hres.
  { exists o', c'. by rewrite Hp. }
  rewrite <- Hp in Hsel.
  pose proof (resolved_accessors t fi offset cur Hsel Hres m1 u1 H1) as R1.
  pose proof (resolved_accessors t fi offset cur Hsel Hres m2 u2 H2) as R2.
  cbv zeta in R1, R2.
  destruct R1 as [(Hk & Hfl & _ & V1 & I1)|[(Hk & Hfl & _ & V1 & I1)
    |[(Hk & Hfl & _)|[(e & -> & Hk & Hfl & _ & V1 & I1)
    |[(e & -> & Hk & Hfl & _ & V1 & I1)|[(e & _ & _ & Hfl & _)
    |(e & _ & _ & Hfl & _)]]]]]];
    try (rewrite Hfl in Hint; vm_compute in Hint; discriminate Hint);
    destruct R2 as [(Hk2 & Hfl2 & _ & V2 & I2)|[(Hk2 & Hfl2 & _ & V2 & I2)
    |[(_ & Hfl2 & _)|[(e2 & E2 & Hk2 & Hfl2 & _ & V2 & I2)
    |[(e2 & E2 & Hk2 & Hfl2 & _ & V2 & I2)|[(e2 & _ & _ & Hfl2 & _)
    |(e2 & _ & _ & Hfl2 & _)]]]]]];
    try (rewrite Hfl in Hfl2; vm_compute in Hfl2; discriminate Hfl2);
    try (injection E2 as <-);
    rewrite V1, V2, I1, I2; clear V1 V2 I1 I2.
  - split; [intros [= E]|intros [= E]].
    + do 2 f_equal. eapply uintptr_inj_int64; [apply signed_bounds..|]; done.
    + by rewrite E.
  - rewrite !uintptr_unsigned. split; intros [= E]; by rewrite E.
  - destruct (reflect.load_ptr m1 _ =? 0)%Z, (reflect.load_ptr m2 _ =? 0)%Z;
      try (split; [done|done]).
    split; [intros [= E]|intros [= E]].
    + do 2 f_equal. eapply uintptr_inj_int64; [apply signed_bounds..|]; done.
    + by rewrite E.
  - rewrite !uintptr_unsigned.
    destruct (reflect.load_ptr m1 _ =? 0)%Z, (reflect.load_ptr m2 _ =? 0)%Z;
      try (split; [done|done]).
    split; intros [= E]; by rewrite E.
Qed.

(** X3: The accessors of a plain scalar field read the field in place, at the
    address of the entity plus the offset the selector resolved to: [value]
    returns the integer or the string stored there, of the declared type
    of the field, and [inline] the integer converted to [uintptr] (a
    negative one wraps around), or [(0, false)] for a string. *)
Theorem plain_scalar_accessors a t sel sb fi sb' offset cur :
  addTypeAttrMapping M getComparableType a t sel sb = Returned (fi, sb') →
  getOffsetAndTypeFromSelector t sel = Returned (offset, cur) →
  isPtr (flags fi) = false →
  f_typ fi = cur
  ∧ ∀ m u, fieldAddr offset u ≠ 0%Z →
      let stored := reflect.load_int m (fieldAddr offset u) in
      let w := reflect.bits (reflect.kind cur) in
      (isIntKind (reflect.kind cur) = true →
         value fi m u = reflect.Val (reflect.IfInt cur (reflect.signed w stored))
         ∧ inline fi m u
           = reflect.Val ((reflect.signed w stored) mod 2 ^ 64, true)%Z)
      ∧ (isUintKind (reflect.kind cur) = true →
           value fi m u = reflect.Val (reflect.IfInt cur (reflect.unsigned w stored))
           ∧ inline fi m u = reflect.Val (reflect.unsigned w stored, true))
      ∧ (reflect.kind cur = reflect.String →
           value fi m u
           = reflect.Val (reflect.IfString cur
                            (reflect.load_string m (fieldAddr offset u)))
           ∧ inline fi m u = reflect.Val (0%Z, false)).
Proof.
  intros Hrun Hsel Hplain.
  destruct (addTypeAttrMapping_fieldInfo _ _ _ _ _ _ _ _ Hrun)
    as (o' & c' & Hsel' & Hf & Hp & Ht & Hv & Hi & Hc & _).
  assert (field_resolved getComparableType t fi) as Hres.
  { exists o', c'. by rewrite Hp. }
  rewrite <- Hp in Hsel, Hsel'.
  split.
  { rewrite Hsel in Hsel'. injection Hsel' as <- <-.
    by rewrite Ht, Hplain. }
  intros m u Hu stored w.
  pose proof (resolved_accessors t fi offset cur Hsel Hres m u Hu) as R.
  cbv zeta in R. fold stored w in R.
  destruct R as [(Hk & Hfl & _ & V & I)|[(Hk & Hfl & _ & V & I)
    |[(Hk & Hfl & _ & V & I)|[(e & _ & _ & Hfl & _)
    |[(e & _ & _ & Hfl & _)|[(e & _ & _ & Hfl & _)
    |(e & _ & _ & Hfl & _)]]]]]];
    try (rewrite Hfl in Hplain; vm_compute in Hplain; discriminate Hplain).
  - destruct (isIntKind_signed _ Hk) as (_ & Hu' & Hs & _).
    split_and!; [done|by rewrite Hu'|done].
  - destruct (isUintKind_unsigned _ Hk) as (_ & _ & Hi' & Hs & _).
    unfold w in I. rewrite uintptr_unsigned in I.
    split_and!; [by rewrite Hi'|done|done].
  - destruct (kind_String_flags _ Hk) as (_ & _ & Hi' & Hu').
    split_and!; [by rewrite Hi'|by rewrite Hu'|done].
Qed.

(** X4: For a struct-reference field [value] and [comparableValue] are one and
    the same accessor: both return the reference stored in the field, of
    the pointer type of the field, or nil when it is nil; neither reads the
    entity referred to. *)
Theorem struct_reference_value a t sel sb fi sb' offset cur :
  addTypeAttrMapping M getComparableType a t sel sb = Returned (fi, sb') →
  getOffsetAndTypeFromSelector t sel = Returned (offset, cur) →
  isStruct (flags fi) = true →
  value fi = comparableValue fi
  ∧ f_typ fi = cur
  ∧ ∀ m u, fieldAddr offset u ≠ 0%Z →
      value fi m u
      = reflect.Val (if (reflect.load_ptr m (fieldAddr offset u) =? 0)%Z
                     then reflect.nil
                     else reflect.IfPtr cur (reflect.load_ptr m (fieldAddr offset u))).
Proof.
  intros Hrun Hsel Hst.
  destruct (addTypeAttrMapping_fieldInfo _ _ _ _ _ _ _ _ Hrun)
    as (o' & c' & Hsel' & Hf & Hp & Ht & Hv & Hi & Hc & _).
  assert (field_resolved getComparableType t fi) as Hres.
  { exists o', c'. by rewrite Hp. }
  rewrite <- Hp in Hsel, Hsel'.
  pose proof Hsel' as Hsel''. rewrite Hsel in Hsel''. injection Hsel'' as <- <-.
  assert (flags fi = Z.lor pointerField structField) as Hfl.
  { destruct (makeFieldFlags_true _ _ Hf)
      as [(_ & [[Hfl _]|[[Hfl _]|[Hfl _]]])
         |(e & _ & _ & [[Hfl _]|[[Hfl _]|[[Hfl _]|[Hfl _]]]])];
      try (rewrite Hfl in Hst; vm_compute in Hst; discriminate Hst).
    exact Hfl. }
  split_and!.
  - rewrite Hv, Hc, Hfl. unfold makeValue, makeComparableValue. by eval_flags.
  - rewrite Ht, Hfl. by eval_flags.
  - intros m u Hu.
    pose proof (resolved_accessors t fi offset cur Hsel Hres m u Hu) as R.
    cbv zeta in R.
    destruct R as [(_ & Hfl' & _)|[(_ & Hfl' & _)
      |[(_ & Hfl' & _)|[(e & _ & _ & Hfl' & _)
      |[(e & _ & _ & Hfl' & _)|[(e & _ & _ & Hfl' & _)
      |(e & _ & _ & Hfl' & _ & V & _)]]]]]];
      try (rewrite Hfl' in Hst; vm_compute in Hst; discriminate Hst).
    exact V.
Qed.

(** X5: No accessor of a field info that [addTypeAttrMapping] returned panics
    on an entity whose field address is not nil: the switch that sets
    [inline] has a case for every flag set the classifier produces, and
    every pointer is tested for nil before it is followed. *)
Theorem accessors_return a t sel sb fi sb' offset cur :
  addTypeAttrMapping M getComparableType a t sel sb = Returned (fi, sb') →
  getOffsetAndTypeFromSelector t sel = Returned (offset, cur) →
  ∀ m u, fieldAddr offset u ≠ 0%Z →
    ∃ v i c, value fi m u = reflect.Val v
             ∧ inline fi m u = reflect.Val i
             ∧ comparableValue fi m u = reflect.Val c.
Proof.
  intros Hrun Hsel m u Hu.
  destruct (addTypeAttrMapping_fieldInfo _ _ _ _ _ _ _ _ Hrun)
    as (o' & c' & Hsel' & Hf & Hp & Ht & Hv & Hi & Hc & _).
  assert (field_resolved getComparableType t fi) as Hres.
  { exists o', c'. by rewrite Hp. }
  rewrite <- Hp in Hsel.
  destruct (resolved_comparableValue t fi offset cur Hsel Hres m u Hu) as (T & C).
  pose proof (resolved_accessors t fi offset cur Hsel Hres m u Hu) as R.
  cbv zeta in R.
  destruct R as [(_ & _ & _ & V & I)|[(_ & _ & _ & V & I)
    |[(_ & _ & _ & V & I)|[(e & _ & _ & _ & _ & V & I)
    |[(e & _ & _ & _ & _ & V & I)|[(e & _ & _ & _ & _ & V & I)
    |(e & _ & _ & _ & _ & V & I)]]]]]];
    by eexists _, _, _.
Qed.

End Accessors.

(** ** The fields of an entity type: sorted by ordinal and grouped *)

Section SortByKey.

Context {A : Type} (key : A → nat).

Local Abbreviation below := (fun x y => key x <? key y).
Local Abbreviation descending := (fun x y => key y ≤ key x).
Local Abbreviation ascending := (fun x y => key x ≤ key y).

Lemma sink_Permutation_cons (less : A → A → bool) x rp :
  sort.sink less x rp ≡ₚ x :: rp.
Proof.
  induction rp as [|y r IH]; simpl; [done|].
  destruct (less x y); [|done]. rewrite IH. apply Permutation_swap.
Qed.

Lemma sink_descending x rp :
  StronglySorted descending rp → StronglySorted descending (sort.sink below x rp).
Proof.
  induction rp as [|y r IH]; simpl; intros Hs.
  - repeat constructor.
  - apply StronglySorted_cons in Hs as [Hy Hr].
    destruct (key x <? key y) eqn:E.
    + apply Nat.ltb_lt in E. apply StronglySorted_cons. split; [|by apply IH].
      rewrite sink_Permutation_cons. constructor; [lia|done].
    + apply Nat.ltb_ge in E. apply StronglySorted_cons.
      split; [|by apply StronglySorted_cons].
      constructor; [done|]. eapply Forall_impl; [exact Hy|]. simpl. lia.
Qed.

Lemma foldl_sink_descending l : ∀ rp,
  StronglySorted descending rp →
  StronglySorted descending (foldl (fun p e => sort.sink below e p) rp l)
  ∧ foldl (fun p e => sort.sink below e p) rp l ≡ₚ rp ++ l.
Proof.
  induction l as [|x l IH]; intros rp Hs; simpl.
  - by rewrite app_nil_r.
  - destruct (IH (sort.sink below x rp)) as [Hs' Hp]; [by apply sink_descending|].
    split; [done|]. rewrite Hp, sink_Permutation_cons. simpl.
    apply Permutation_middle.
Qed.

Lemma rev_descending l :
  StronglySorted descending l → StronglySorted ascending (rev l).
Proof.
  induction 1 as [|x l Hl IH Hx]; simpl; [constructor|].
  apply StronglySorted_app_2; [|done|repeat constructor].
  intros x1 x2 H1 ->%list_elem_of_singleton.
  apply (proj1 (list_elem_of_In _ _)), (proj2 (in_rev _ _)) in H1.
  apply (proj2 (list_elem_of_In _ _)) in H1.
  rewrite Forall_forall in Hx. by apply Hx.
Qed.

(** [sort.Slice] by a key returns the elements it was given, in ascending
    order of the key. *)
Lemma Slice_by_key l :
  StronglySorted ascending (sort.Slice below l) ∧ sort.Slice below l ≡ₚ l.
Proof.
  unfold sort.Slice.
  destruct (foldl_sink_descending l []) as [Hs Hp]; [constructor|].
  split; [by apply rev_descending|].
  etrans; [symmetry; apply Permutation_rev|exact Hp].
Qed.

End SortByKey.

Lemma filter_Forall_all {A} (P : A → Prop) `{∀ x, Decision (P x)} l :
  Forall P l → filter P l = l.
Proof.
  induction 1 as [|x l Hx Hl IH]; [done|].
  by rewrite filter_cons_True, IH.
Qed.

Lemma filter_Forall_none {A} (P : A → Prop) `{∀ x, Decision (P x)} l :
  Forall (fun x => ¬ P x) l → filter P l = [].
Proof.
  induction 1 as [|x l Hx Hl IH]; [done|].
  by rewrite filter_cons_False.
Qed.

(** The run of equal ordinals is a prefix; in a sorted slice what follows
    it has greater ordinals. *)
Lemma sameAttrRun_prefix cur l :
  l = (sameAttrRun cur l ++ drop (length (sameAttrRun cur l)) l)%list
  ∧ Forall (fun f => attr f = cur) (sameAttrRun cur l).
Proof.
  induction l as [|f r [IH1 IH2]]; simpl; [done|].
  destruct (attr f =? cur) eqn:E; simpl.
  - apply Nat.eqb_eq in E. split; [by f_equal|by constructor].
  - done.
Qed.

Lemma sameAttrRun_rest cur l :
  Forall (fun f => cur ≤ attr f) l → sortedByAttr l →
  Forall (fun f => cur < attr f) (drop (length (sameAttrRun cur l)) l).
Proof.
  induction l as [|f r IH]; simpl; intros Hge Hs; [constructor|].
  apply Forall_cons in Hge as [Hf Hr].
  apply StronglySorted_cons in Hs as [Hfr Hs].
  destruct (attr f =? cur) eqn:E; simpl.
  - by apply IH.
  - apply Nat.eqb_neq in E. constructor; [lia|].
    eapply Forall_impl; [exact Hfr|]. simpl. lia.
Qed.

(** The grouping loop on a sorted slice. *)
Lemma groupByAttr_sorted fuel : ∀ l acc,
  length l ≤ fuel → sortedByAttr l →
  ∀ o, groupByAttr fuel l acc !! o
       = match fieldsOf o l with
         | [] => acc !! o
         | r => Some r
         end.
Proof.
  induction fuel as [|fuel IH]; intros l acc Hlen Hs o.
  - destruct l; [done|simpl in Hlen; lia].
  - destruct l as [|fi rest]; [done|]. simpl in Hlen.
    apply StronglySorted_cons in Hs as [Hge Hs].
    destruct (sameAttrRun_prefix (attr fi) rest) as [Hdec Hrun].
    pose proof (sameAttrRun_rest (attr fi) rest Hge Hs) as Hrest.
    cbn [groupByAttr].
    remember (sameAttrRun (attr fi) rest) as run eqn:Erun.
    remember (drop (length run) rest) as rem eqn:Erem.
    clear Erun Erem.
    assert (sortedByAttr rem) as Hs'.
    { rewrite Hdec in Hs. by eapply StronglySorted_app_1_r. }
    rewrite IH; [|subst rest; rewrite length_app in Hlen; lia|done].
    unfold fieldsOf. rewrite Hdec, filter_cons, filter_app.
    destruct (decide (attr fi = o)) as [<-|Hne].
    + rewrite (filter_Forall_all _ run) by done.
      rewrite (filter_Forall_none _ rem).
      * by rewrite lookup_insert_eq, app_nil_r.
      * eapply Forall_impl; [exact Hrest|]. simpl. lia.
    + rewrite (filter_Forall_none _ run).
      * simpl. destruct (filter _ rem); [|done].
        by rewrite lookup_insert_ne.
      * eapply Forall_impl; [exact Hrun|]. simpl. congruence.
Qed.

Lemma groupByAttr_grouped l :
  sortedByAttr l → grouped l (groupByAttr (length l) l ∅).
Proof.
  intros Hs o. rewrite groupByAttr_sorted by done.
  destruct (fieldsOf o l); [apply lookup_empty|done].
Qed.

(** ** The entity type schemas follow the type mappings *)

Section Mappings.

Variable M : ordinal.
Variable compareTypes : reflect.rtype -> reflect.rtype -> bool * bool.
Variable getComparableType : reflect.rtype -> reflect.rtype.

Local Abbreviation Swap := (@sort.Swap Schema (entityTypeSchemaSort compareTypes)).
Local Abbreviation Sort := (@sort.Sort Schema (entityTypeSchemaSort compareTypes)).
Local Abbreviation field_of' := (field_of getComparableType).
Local Abbreviation object_of' := (object_of getComparableType).
Local Abbreviation mappings_inv' := (mappings_inv getComparableType).

Lemma typeAccepted_refl typ : typeAccepted typ typ = true.
Proof. unfold typeAccepted. by rewrite bool_decide_eq_true_2. Qed.

(** The ordinal a successful [maybeAddAttribute] returns is that of the
    attribute, and the type recorded there accepts the type given. *)
Lemma maybeAddAttribute_typed a typ sb ord sb' :
  attrs_inv sb →
  maybeAddAttribute M a typ sb = Returned (ord, sb') →
  attrs sb' !! ord = Some a
  ∧ ∃ prev, attrTypes sb' !! ord = Some prev ∧ typeAccepted typ prev = true.
Proof.
  intros [Hlen Hmap]. unfold maybeAddAttribute.
  destruct (attrToOrdinal sb !! a) as [o|] eqn:Ha.
  - destruct (attrTypes sb !! o) as [prev|] eqn:Hp; [|discriminate].
    rewrite checkType_typeAccepted. simpl.
    destruct (typeAccepted typ prev) eqn:Hacc; [|discriminate].
    intros [= <- <-]. split; [by apply Hmap|]. by exists prev.
  - destruct (M <=? length (attrs sb)); [discriminate|].
    intros [= <- <-]. simpl. split.
    + rewrite lookup_app_r by lia. by rewrite Nat.sub_diag.
    + exists typ. split; [|apply typeAccepted_refl].
      rewrite lookup_app_r by lia. by rewrite Hlen, Nat.sub_diag.
Qed.

Lemma registered_prefix tr sb sb' :
  registered tr sb sb' →
  attrs sb `prefix_of` attrs sb' ∧ attrTypes sb `prefix_of` attrTypes sb'.
Proof. intros [-> ?]. split; [apply foldl_registerAttr_prefix|done]. Qed.

Lemma field_of_grow sb sb' t a sel fi :
  attrs sb `prefix_of` attrs sb' → attrTypes sb `prefix_of` attrTypes sb' →
  field_of' sb t a sel fi → field_of' sb' t a sel fi.
Proof.
  intros Ha Ht (Hp & Hat & Hres & prev & Hprev & Hacc).
  split_and!; [done| |done|].
  - by eapply prefix_lookup_Some.
  - exists prev. split; [|done]. by eapply prefix_lookup_Some.
Qed.

Lemma object_of_grow sb sb' tm ts :
  attrs sb `prefix_of` attrs sb' → attrTypes sb `prefix_of` attrTypes sb' →
  object_of' sb tm ts → object_of' sb' tm ts.
Proof.
  intros Ha Ht (Hty & (made & Hmade & Hperm) & Hs & Hg).
  split_and!; try done. exists made. split; [|done].
  eapply Forall2_impl; [exact Hmade|]. intros p fi. by apply field_of_grow.
Qed.

Lemma object_of_renumbered sb sb' tm ts ts' :
  attrs sb' = attrs sb → attrTypes sb' = attrTypes sb →
  renumbered ts ts' → object_of' sb tm ts → object_of' sb' tm ts'.
Proof.
  intros Ha Ht (Hty & Hf & Haf) Hobj.
  apply (object_of_grow sb sb') in Hobj; [|by rewrite Ha|by rewrite Ht].
  unfold object_of in *. by rewrite Hty, Hf, Haf.
Qed.

Lemma mappings_inv_renumbered l sb sb' :
  attrs sb `prefix_of` attrs sb' → attrTypes sb `prefix_of` attrTypes sb' →
  Forall2 renumbered (objects sb) (objects sb') →
  entityTypeSchemas sb' = entityTypeSchemas sb →
  mappings_inv' l sb → mappings_inv' l sb'.
Proof.
  intros Ha Ht Hren Hm [Hobjs Hmap].
  assert (∀ tm ts ts', renumbered ts ts' → object_of' sb tm ts →
                       object_of' sb' tm ts') as Hstep.
  { intros tm ts ts' (Hty & Hf & Haf) Hobj.
    apply (object_of_grow sb sb') in Hobj; [|done..].
    unfold object_of in *. by rewrite Hty, Hf, Haf. }
  split.
  - apply Forall2_same_length_lookup. split.
    + rewrite (Forall2_length _ _ _ Hobjs). by eapply Forall2_length.
    + intros i tm ts' Htm Hts'.
      destruct (Forall2_lookup_r _ _ _ _ _ Hren Hts') as (ts & Hts & Hr).
      eapply Hstep; [done|]. by eapply Forall2_lookup_lr.
  - intros t. specialize (Hmap t). rewrite Hm.
    destruct (lastMapping t l) as [tm|]; [|done].
    destruct Hmap as (p & ts & Hp & Hts & Hobj).
    destruct (Forall2_lookup_l _ _ _ _ _ Hren Hts) as (ts' & Hts' & Hr).
    exists p, ts'. split_and!; [done..|]. by eapply Hstep.
Qed.

Lemma renumbered_refl l : Forall2 renumbered l l.
Proof. apply Forall_Forall2_diag, Forall_forall. by intros ts _. Qed.

Lemma mappings_inv_grow l sb sb' :
  attrs sb `prefix_of` attrs sb' → attrTypes sb `prefix_of` attrTypes sb' →
  same_entities sb sb' → mappings_inv' l sb → mappings_inv' l sb'.
Proof.
  intros Ha Ht (_ & Ho & _ & Hm). apply mappings_inv_renumbered; try done.
  rewrite Ho. apply renumbered_refl.
Qed.

Lemma addTypeAttrMapping_field_of a t sel sb fi sb' :
  builder_inv M sb →
  addTypeAttrMapping M getComparableType a t sel sb = Returned (fi, sb') →
  field_of' sb' t a sel fi.
Proof.
  intros (Hattrs & _) Hrun.
  destruct (addTypeAttrMapping_fieldInfo _ _ _ _ _ _ _ _ Hrun)
    as (offset & cur & Hsel & Hf & Hp & Ht & Hv & Hi & Hc & Hadd).
  destruct (maybeAddAttribute_typed _ _ _ _ _ Hattrs Hadd) as (Ha & prev & Hprev & Hacc).
  split_and!; [done..| |by exists prev].
  exists offset, cur. by rewrite Hp.
Qed.

Lemma forSelectors_made a t sels : ∀ acc sb fis sb',
  builder_inv M sb → fields_ok sb acc →
  forSelectors M getComparableType a t sels acc sb = Returned (fis, sb') →
  ∃ made, fis = (acc ++ made)%list
          ∧ Forall2 (fun sel fi => field_of' sb' t a sel fi) sels made.
Proof.
  induction sels as [|sel sels IH]; intros acc sb fis sb' Hinv Hacc Hrun; simpl in *.
  - injection Hrun as <- <-. exists []. by rewrite app_nil_r.
  - bind_inv Hrun.
    pose proof (addTypeAttrMapping_field_of _ _ _ _ _ _ Hinv Hstep) as Hfi.
    destruct (addTypeAttrMapping_advance _ _ _ _ _ _ _ _ Hinv Hstep)
      as ((Hinv1 & Hreg1 & _) & _ & Hattr).
    assert (fields_ok sb0 (acc ++ [x])) as Hacc'.
    { apply Forall_app. split.
      - eapply fields_ok_grow; [|done]. by eapply registered_length.
      - by repeat constructor. }
    pose proof Hrun as Hrun'.
    apply IH in Hrun as (made & -> & Hmade); [|done..].
    apply forSelectors_advance in Hrun' as ((_ & Hreg & _) & _); [|done..].
    destruct (registered_prefix _ _ _ Hreg).
    exists (x :: made). split; [by rewrite <- (assoc_L (++))|].
    constructor; [|done]. by eapply field_of_grow.
Qed.

Lemma forAttrMappings_made t ams : ∀ acc sb fis sb',
  builder_inv M sb → fields_ok sb acc →
  forAttrMappings M getComparableType t ams acc sb = Returned (fis, sb') →
  ∃ made, fis = (acc ++ made)%list
          ∧ Forall2 (fun p fi => field_of' sb' t p.1 p.2 fi)
              (mappingSelectors ams) made.
Proof.
  induction ams as [|am ams IH]; intros acc sb fis sb' Hinv Hacc Hrun; simpl in *.
  - injection Hrun as <- <-. exists []. split; [by rewrite app_nil_r|constructor].
  - bind_inv Hrun.
    destruct (forSelectors_made _ _ _ _ _ _ _ Hinv Hacc Hstep) as (made1 & -> & Hmade1).
    apply forSelectors_advance in Hstep as ((Hinv1 & _) & _ & Hok); [|done..].
    pose proof Hrun as Hrun'.
    apply IH in Hrun as (made2 & -> & Hmade2); [|done..].
    apply forAttrMappings_advance in Hrun' as ((_ & Hreg & _) & _); [|done..].
    destruct (registered_prefix _ _ _ Hreg).
    exists (made1 ++ made2)%list. split; [by rewrite (assoc_L (++))|].
    unfold mappingSelectors. cbn [mbind list_bind]. apply Forall2_app; [|done].
    apply Forall2_fmap_l. eapply Forall2_impl; [exact Hmade1|].
    intros sel fi Hfi. simpl. by eapply field_of_grow.
Qed.

Lemma lastMapping_snoc t l tm :
  lastMapping t (l ++ [tm])
  = if decide (em_typ tm = t) then Some tm else lastMapping t l.
Proof.
  unfold lastMapping. rewrite filter_app, last_app, filter_cons, filter_nil.
  by destruct (decide (em_typ tm = t)).
Qed.

Lemma maybeAddTypeMapping_mappings l t ams sb u sb' :
  builder_inv M sb → mappings_inv' l sb →
  maybeAddTypeMapping M getComparableType t ams sb = Returned (u, sb') →
  mappings_inv' (l ++ [mkEntityMapping t ams]) sb'.
Proof.
  intros Hinv [Hobjs Hmap] Hrun. unfold maybeAddTypeMapping in Hrun.
  destruct (isStructPointer t) eqn:Hsp; simpl in Hrun; [|discriminate].
  bind_inv Hrun.
  assert (fields_ok sb []) as Hnil by constructor.
  destruct (forAttrMappings_made _ _ _ _ _ _ Hinv Hnil Hstep) as (made & -> & Hmade).
  apply forAttrMappings_advance in Hstep as ((_ & Hreg & _) & Hsame & _); [|done..].
  destruct (registered_prefix _ _ _ Hreg) as [Hpa Hpt].
  destruct Hsame as (_ & Ho & _ & Hm).
  simpl in Hrun. injection Hrun as _ <-.
  destruct (Slice_by_key attr made) as [Hsorted Hperm].
  set (fs := sort.Slice (fun x y => attr x <? attr y) made) in *.
  set (ts := {| typ := t; fields := fs;
                attrFields := groupByAttr (length fs) fs ∅;
                typID := length (entityTypes sb0) |}).
  set (sb' := mkSchema _ _ _ _ _ _ _ _ _).
  assert (attrs sb `prefix_of` attrs sb') as Hpa' by done.
  assert (attrTypes sb `prefix_of` attrTypes sb') as Hpt' by done.
  assert (object_of' sb' (mkEntityMapping t ams) ts) as Hnew.
  { split_and!; [done| |done|by apply groupByAttr_grouped].
    exists made. split; [|done].
    eapply Forall2_impl; [exact Hmade|]. intros p fi.
    by apply field_of_grow. }
  split.
  - simpl. rewrite Ho. apply Forall2_app; [|constructor; [exact Hnew|constructor]].
    eapply Forall2_impl; [exact Hobjs|]. intros tm ts0.
    by apply object_of_grow.
  - intros t'. rewrite lastMapping_snoc. simpl.
    destruct (decide (t = t')) as [<-|Hne].
    + exists (length (objects sb0)), ts. split_and!; [|  |done].
      * by rewrite lookup_insert_eq.
      * rewrite lookup_app_r by lia. by rewrite Nat.sub_diag.
    + specialize (Hmap t'). rewrite lookup_insert_ne by done. rewrite Hm.
      destruct (lastMapping t' l) as [tm|]; [|done].
      destruct Hmap as (p & ts0 & Hp & Hts0 & Hobj).
      exists p, ts0. split_and!; [done| |by eapply object_of_grow].
      rewrite Ho. by apply lookup_app_l_Some.
Qed.

Lemma forEntityMappings_mappings l : ∀ before sb u sb',
  builder_inv M sb → mappings_inv' before sb →
  forEntityMappings M getComparableType l sb = Returned (u, sb') →
  mappings_inv' (before ++ l) sb'.
Proof.
  induction l as [|tm l IH]; intros before sb u sb' Hinv Hmi Hrun; simpl in *.
  - injection Hrun as _ <-. by rewrite app_nil_r.
  - bind_inv Hrun.
    pose proof (maybeAddTypeMapping_mappings _ _ _ _ _ _ Hinv Hmi Hstep) as Hmi'.
    apply maybeAddTypeMapping_advance in Hstep as ((Hinv' & _) & _); [|done].
    rewrite cons_middle, (assoc_L (++)).
    destruct tm as [t ams]. by eapply IH.
Qed.

(** The steps of a successful [buildSchema]. *)
Lemma buildSchema_steps nm opts sc :
  buildSchema M compareTypes getComparableType nm opts = Returned sc →
  ∃ sb1 sb2 o3 sb3 sb4 o5 sb5 sb6,
    forAttrTypes M (m_attrTypes (mappingsOf opts)) (mkSchema nm [] [] ∅ [] [] ∅ 0 0)
    = Returned (tt, sb1)
    ∧ forEntityMappings M getComparableType (m_entityMappings (mappingsOf opts)) sb1
      = Returned (tt, sb2)
    ∧ maybeAddAttribute M Self emptyInterfaceType sb2 = Returned (o3, sb3)
    ∧ set_selfOrdinal sb3 = Returned (tt, sb4)
    ∧ maybeAddAttribute M Type_ reflectTypeType sb4 = Returned (o5, sb5)
    ∧ set_typeOrdinal sb5 = Returned (tt, sb6)
    ∧ sc = Sort sb6.
Proof.
  unfold buildSchema. fold (mappingsOf opts).
  set (init := mkSchema nm [] [] ∅ [] [] ∅ 0 0).
  intros Hrun.
  destruct (mbind (M:=builder) _ _ init) as [[u sc']|] eqn:Hbody;
    [|discriminate].
  simpl in Hrun. injection Hrun as <-.
  bind_inv Hbody. rename sb into sb1, Hstep into H1. destruct x.
  bind_inv Hbody. rename sb into sb2, Hstep into H2. destruct x.
  bind_inv Hbody. rename sb into sb3, Hstep into H3.
  bind_inv Hbody. rename sb into sb4, Hstep into H4. destruct x0.
  bind_inv Hbody. rename sb into sb5, Hstep into H5.
  bind_inv Hbody. rename sb into sb6, Hstep into H6. destruct x1.
  injection Hbody as _ <-.
  by exists sb1, sb2, x, sb3, sb4, x0, sb5, sb6.
Qed.

(** The states of a successful [buildSchema] keep the builder's invariant
    and only add attributes. *)
Lemma buildSchema_states nm opts sc :
  buildSchema M compareTypes getComparableType nm opts = Returned sc →
  ∃ sb1 sb2 sb6,
    forAttrTypes M (m_attrTypes (mappingsOf opts)) (mkSchema nm [] [] ∅ [] [] ∅ 0 0)
    = Returned (tt, sb1)
    ∧ forEntityMappings M getComparableType (m_entityMappings (mappingsOf opts)) sb1
      = Returned (tt, sb2)
    ∧ builder_inv M sb1 ∧ builder_inv M sb2 ∧ builder_inv M sb6
    ∧ same_entities (mkSchema nm [] [] ∅ [] [] ∅ 0 0) sb1
    ∧ same_entities sb2 sb6
    ∧ attrs sb2 `prefix_of` attrs sb6 ∧ attrTypes sb2 `prefix_of` attrTypes sb6
    ∧ sc = Sort sb6.
Proof.
  intros Hrun.
  destruct (buildSchema_steps _ _ _ Hrun)
    as (sb1 & sb2 & o3 & sb3 & sb4 & o5 & sb5 & sb6
        & H1 & H2 & H3 & H4 & H5 & H6 & ->).
  pose proof (builder_inv_init M nm) as I0.
  pose proof (forAttrTypes_same_entities _ _ _ _ _ I0 H1) as S1.
  pose proof (forAttrTypes_advance _ _ _ _ _ I0 H1) as (I1 & _).
  pose proof (forEntityMappings_advance _ _ _ _ _ _ I1 H2) as (I2 & _).
  destruct (maybeAddAttribute_advance _ _ _ _ _ _ I2 H3)
    as ((I3 & R3 & _) & S3 & _).
  destruct (set_selfOrdinal_Returned _ _ _ H4) as (_ & Sa4 & S4 & _).
  pose proof (builder_inv_same _ _ _ I3 Sa4 S4) as I4.
  destruct (maybeAddAttribute_advance _ _ _ _ _ _ I4 H5)
    as ((I5 & R5 & _) & S5 & _).
  destruct (set_typeOrdinal_Returned _ _ _ H6) as (_ & Sa6 & S6 & _).
  pose proof (builder_inv_same _ _ _ I5 Sa6 S6) as I6.
  destruct (registered_prefix _ _ _ R3) as [Pa3 Pt3].
  destruct (registered_prefix _ _ _ R5) as [Pa5 Pt5].
  destruct Sa4 as (_ & Ea4 & Et4 & _), Sa6 as (_ & Ea6 & Et6 & _).
  exists sb1, sb2, sb6. split_and!; try done.
  - repeat (eapply same_entities_trans; [eassumption|]).
    apply same_entities_refl.
  - rewrite Ea6. etrans; [|exact Pa5]. rewrite Ea4. exact Pa3.
  - rewrite Et6. etrans; [|exact Pt5]. rewrite Et4. exact Pt3.
Qed.

(** [sort.Sort] only writes the [typID] of the objects. *)
Lemma Sort_renumbered e : Forall2 renumbered (objects e) (objects (Sort e)).
Proof.
  apply (Sort_preserves compareTypes
           (fun e' => Forall2 renumbered (objects e) (objects e')));
    [|apply renumbered_refl].
  intros e' i j IH. simpl.
  destruct (entityTypes e' !! i) as [p|]; [|done].
  destruct (entityTypes e' !! j) as [q|]; [|done]. simpl.
  apply Forall2_alter_r; [apply Forall2_alter_r; [done|]|];
    by intros x y _ _ (? & ? & ?).
Qed.

(** In a built schema the entity type schemas are those of the type
    mappings of the configuration. *)
Lemma mappings_inv_built nm opts sc :
  buildSchema M compareTypes getComparableType nm opts = Returned sc →
  mappings_inv' (m_entityMappings (mappingsOf opts)) sc.
Proof.
  intros Hrun.
  destruct (buildSchema_states _ _ _ Hrun)
    as (sb1 & sb2 & sb6 & H1 & H2 & I1 & I2 & I6 & S1 & S6 & Pa & Pt & ->).
  assert (mappings_inv' [] (mkSchema nm [] [] ∅ [] [] ∅ 0 0)) as Hinit.
  { split; [constructor|]. intros t. apply lookup_empty. }
  assert (mappings_inv' [] sb1) as Hmi1.
  { eapply mappings_inv_grow; [..|exact Hinit]; [apply prefix_nil..|done]. }
  pose proof (forEntityMappings_mappings _ [] _ _ _ I1 Hmi1 H2) as Hmi2.
  simpl in Hmi2.
  pose proof (mappings_inv_grow _ _ _ Pa Pt S6 Hmi2) as Hmi6.
  destruct (Sort_same_attrs compareTypes sb6) as ((_ & Ea & Et & _) & _ & _ & Em).
  eapply mappings_inv_renumbered; [..|exact Hmi6].
  - by rewrite Ea.
  - by rewrite Et.
  - apply Sort_renumbered.
  - done.
Qed.

End Mappings.

(** ** The entity types of a built schema *)

(** A slice of distinct pointers into a store of the same length holds every
    pointer of the store. *)
Lemma heap_inv_pointer sb p :
  heap_inv sb → p < length (objects sb) → ∃ i, entityTypes sb !! i = Some p.
Proof.
  intros (Hlen & Hnd & Hid & _) Hp.
  assert (entityTypes sb ≡ₚ seq 0 (length (objects sb))) as Hperm.
  { apply submseteq_length_Permutation.
    - apply NoDup_submseteq; [done|]. intros q [i Hi]%list_elem_of_lookup.
      destruct (Hid _ _ Hi) as (ts & Hts & _). apply elem_of_seq.
      apply lookup_lt_Some in Hts. lia.
    - rewrite length_seq. lia. }
  apply list_elem_of_lookup. rewrite Hperm. apply elem_of_seq. lia.
Qed.

Section BuiltSchema.

Variable M : ordinal.
Variable compareTypes : reflect.rtype -> reflect.rtype -> bool * bool.
Variable getComparableType : reflect.rtype -> reflect.rtype.

Local Abbreviation buildSchema' := (buildSchema M compareTypes getComparableType).
Local Abbreviation object_of' := (object_of getComparableType).

(** The entity type schemas a schema holds: those of the slice
    [entityTypes] and those of the map [entityTypeSchemas]. *)
Local Abbreviation holds sc ts :=
  ((∃ i, entityTypeAt sc i = Some ts) ∨ (∃ t, entityTypeSchemaOf sc t = Some ts)).

Lemma built_heap_inv nm opts sc :
  buildSchema' nm opts = Returned sc → attrs_inv sc ∧ heap_inv sc.
Proof.
  intros Hrun. apply buildSchema_Returned in Hrun as (((? & _ & ?) & _) & _).
  done.
Qed.

Lemma built_slice_object nm opts sc i ts :
  buildSchema' nm opts = Returned sc → entityTypeAt sc i = Some ts →
  typID ts = i
  ∧ ∃ p tm, entityTypes sc !! i = Some p
            ∧ m_entityMappings (mappingsOf opts) !! p = Some tm
            ∧ object_of' sc tm ts.
Proof.
  intros Hrun Hts. destruct (built_heap_inv _ _ _ Hrun) as [_ Hheap].
  destruct (mappings_inv_built _ _ _ _ _ _ Hrun) as [Hobjs _].
  unfold entityTypeAt in Hts.
  destruct (entityTypes sc !! i) as [p|] eqn:Hp; [|done]. simpl in Hts.
  destruct Hheap as (_ & _ & Hid & _).
  destruct (Hid _ _ Hp) as (ts' & Hts' & Hi). simplify_eq.
  split; [done|].
  destruct (Forall2_lookup_r _ _ _ _ _ Hobjs Hts) as (tm & Htm & Hobj).
  by exists p, tm.
Qed.

Lemma built_map_object nm opts sc t ts :
  buildSchema' nm opts = Returned sc → entityTypeSchemaOf sc t = Some ts →
  ∃ tm, lastMapping t (m_entityMappings (mappingsOf opts)) = Some tm
        ∧ object_of' sc tm ts.
Proof.
  intros Hrun Hts.
  destruct (mappings_inv_built _ _ _ _ _ _ Hrun) as [_ Hmap].
  specialize (Hmap t). unfold entityTypeSchemaOf in Hts.
  destruct (entityTypeSchemas sc !! t) as [p|] eqn:Hp; [|done]. simpl in Hts.
  destruct (lastMapping t _) as [tm|]; [|done].
  destruct Hmap as (p' & ts' & Hp' & Hts' & Hobj). simplify_eq.
  by exists tm.
Qed.

Lemma built_holds_object nm opts sc ts :
  buildSchema' nm opts = Returned sc → holds sc ts →
  ∃ tm, tm ∈ m_entityMappings (mappingsOf opts) ∧ object_of' sc tm ts.
Proof.
  intros Hrun [[i Hts]|[t Hts]].
  - destruct (built_slice_object _ _ _ _ _ Hrun Hts) as (_ & p & tm & _ & Htm & Hobj).
    exists tm. split; [by eapply list_elem_of_lookup_2|done].
  - destruct (built_map_object _ _ _ _ _ Hrun Hts) as (tm & Htm & Hobj).
    exists tm. split; [|done].
    apply last_Some_elem_of in Htm. by apply list_elem_of_filter in Htm as [_ ?].
Qed.

Lemma object_of_field sc tm ts fi :
  object_of' sc tm ts → fi ∈ fields ts →
  ∃ a sel, (a, sel) ∈ mappingSelectors (em_attrMappings tm)
           ∧ field_of getComparableType sc (em_typ tm) a sel fi.
Proof.
  intros (_ & (made & Hmade & Hperm) & _) Hfi. rewrite Hperm in Hfi.
  apply list_elem_of_lookup in Hfi as [k Hk].
  destruct (Forall2_lookup_r _ _ _ _ _ Hmade Hk) as ([a sel] & Hp & Hf).
  exists a, sel. split; [by eapply list_elem_of_lookup_2|done].
Qed.

(** X6: In a built schema the fields of every entity type schema are sorted by
    the ordinal of their attribute, and [attrFields] has, for an ordinal,
    exactly the fields that carry it, in the order of [fields]; it has no
    entry for an ordinal that no field carries. *)
Theorem fields_sorted_and_grouped nm opts sc ts :
  buildSchema' nm opts = Returned sc → holds sc ts →
  sortedByAttr (fields ts)
  ∧ ∀ o, attrFields ts !! o
         = match fieldsOf o (fields ts) with
           | [] => None
           | l => Some l
           end.
Proof.
  intros Hrun Hts.
  destruct (built_holds_object _ _ _ _ Hrun Hts) as (tm & _ & _ & _ & Hs & Hg).
  by split.
Qed.

(** X7: In a built schema every field of every entity type schema carries the
    ordinal of an attribute of the schema, the one its selector was mapped
    to, and the type the schema records for that attribute accepts the
    type of the field: it is that type, or an interface the type of the
    field implements. *)
Theorem field_types_accepted nm opts sc ts fi :
  buildSchema' nm opts = Returned sc → holds sc ts → fi ∈ fields ts →
  ∃ a prev,
    getOrdinal sc a = (attr fi, None)
    ∧ attrs sc !! attr fi = Some a
    ∧ attrTypes sc !! attr fi = Some prev
    ∧ typeAccepted (f_typ fi) prev = true.
Proof.
  intros Hrun Hts Hfi.
  destruct (built_heap_inv _ _ _ Hrun) as [[_ Hattrs] _].
  destruct (built_holds_object _ _ _ _ Hrun Hts) as (tm & _ & Hobj).
  destruct (object_of_field _ _ _ _ Hobj Hfi)
    as (a & sel & _ & _ & Ha & _ & prev & Hprev & Hacc).
  exists a, prev. split_and!; try done.
  unfold getOrdinal. apply Hattrs in Ha. by rewrite Ha.
Qed.

(** X8: In a built schema every field of an entity type schema is the
    resolution of its own path on the record type of the schema: the path
    resolves to an offset and a supported type, the flags are those of
    that type, and the accessors read at that offset. *)
Theorem fields_resolve_selectors nm opts sc ts fi :
  buildSchema' nm opts = Returned sc → holds sc ts → fi ∈ fields ts →
  isStructPointer (typ ts) = true
  ∧ field_resolved getComparableType (typ ts) fi.
Proof.
  intros Hrun Hts Hfi.
  destruct (built_heap_inv _ _ _ Hrun) as [_ Hheap].
  destruct (built_holds_object _ _ _ _ Hrun Hts) as (tm & _ & Hobj).
  destruct (object_of_field _ _ _ _ Hobj Hfi) as (a & sel & _ & _ & _ & Hres & _).
  destruct Hobj as (Hty & _). rewrite Hty. split; [|done].
  destruct Hheap as (_ & _ & Hid & Hmap & _ & Hok).
  rewrite Forall_forall in Hok. rewrite <- Hty.
  destruct Hts as [[i Hts]|[t Hts]].
  - unfold entityTypeAt in Hts.
    destruct (entityTypes sc !! i) as [p|]; [|done]. simpl in Hts.
    apply list_elem_of_lookup_2, Hok in Hts. apply Hts.
  - unfold entityTypeSchemaOf in Hts.
    destruct (entityTypeSchemas sc !! t) as [p|]; [|done]. simpl in Hts.
    apply list_elem_of_lookup_2, Hok in Hts. apply Hts.
Qed.

Lemma made_selectors sc t sels made :
  Forall2 (fun p fi => field_of getComparableType sc t p.1 p.2 fi) sels made →
  (fun f => (attrs sc !! attr f, path f)) <$> made
  = (fun p => (Some p.1, p.2)) <$> sels.
Proof.
  induction 1 as [|[a sel] fi sels made (Hp & Ha & _) _ IH]; [done|].
  rewrite !fmap_cons, IH. simpl in *. by rewrite Ha, Hp.
Qed.

(** The slice of a built schema has one element for each type mapping, and
    the map an entry for each record type that is mapped, at an entity
    type schema of that type. *)
Lemma built_map_domain nm opts sc :
  buildSchema' nm opts = Returned sc →
  length (entityTypes sc) = length (m_entityMappings (mappingsOf opts))
  ∧ (∀ t, entityTypeSchemaOf sc t = None
          ↔ t ∉ em_typ <$> m_entityMappings (mappingsOf opts))
  ∧ (∀ t ts, entityTypeSchemaOf sc t = Some ts → typ ts = t).
Proof.
  intros Hrun.
  destruct (built_heap_inv _ _ _ Hrun) as [_ Hheap].
  pose proof (mappings_inv_built _ _ _ _ _ _ Hrun) as [Hobjs Hmap].
  split_and!.
  - destruct Hheap as (-> & _). symmetry. by eapply Forall2_length.
  - intros t. specialize (Hmap t). unfold entityTypeSchemaOf, lastMapping in *.
    destruct (last _) as [tm|] eqn:Hlast.
    + destruct Hmap as (p & ts & -> & Hts & _). simpl. rewrite Hts.
      split; [done|]. intros Hnot. destruct Hnot.
      apply last_Some_elem_of, list_elem_of_filter in Hlast as [<- Hin].
      by apply list_elem_of_fmap_2.
    + rewrite Hmap. split; [|done]. intros _ [tm [-> Hin]]%list_elem_of_fmap.
      apply last_None in Hlast.
      by eapply (filter_nil_not_elem_of _ _ tm) in Hlast.
  - intros t ts Hts.
    destruct (built_map_object _ _ _ _ _ Hrun Hts) as (tm & Htm & Hty & _).
    apply last_Some_elem_of, list_elem_of_filter in Htm as [<- _]. done.
Qed.

(** X9: The entity type schemas of a built schema are those of the type
    mappings of the configuration.  The slice [entityTypes] has one
    schema for each mapping, duplicates included; the schema of a mapping
    has the record type of the mapping and one field for each selector of
    the mapping, with the path of the selector and the ordinal of the
    attribute the selector is mapped to.  The map [entityTypeSchemas] has,
    for a record type, the schema of the last mapping of that type. *)
Theorem entity_types_follow_mappings nm opts sc :
  buildSchema' nm opts = Returned sc →
  let mappings := m_entityMappings (mappingsOf opts) in
  let selectorsOf := fun ts : entityTypeSchema =>
    (fun f => (attrs sc !! attr f, path f)) <$> fields ts in
  let mapped := fun tm : entityMapping =>
    (fun p : Attr * string => (Some p.1, p.2))
      <$> mappingSelectors (em_attrMappings tm) in
  length (entityTypes sc) = length mappings
  ∧ (∀ tm, tm ∈ mappings →
       ∃ i ts, entityTypeAt sc i = Some ts ∧ typ ts = em_typ tm
               ∧ selectorsOf ts ≡ₚ mapped tm)
  ∧ (∀ i ts, entityTypeAt sc i = Some ts →
       ∃ tm, tm ∈ mappings ∧ typ ts = em_typ tm ∧ selectorsOf ts ≡ₚ mapped tm)
  ∧ (∀ t, entityTypeSchemaOf sc t = None ↔ t ∉ em_typ <$> mappings)
  ∧ (∀ t ts, entityTypeSchemaOf sc t = Some ts →
       ∃ tm, lastMapping t mappings = Some tm
             ∧ typ ts = t ∧ selectorsOf ts ≡ₚ mapped tm).
Proof.
  intros Hrun mappings selectorsOf mapped.
  destruct (built_heap_inv _ _ _ Hrun) as [_ Hheap].
  pose proof (mappings_inv_built _ _ _ _ _ _ Hrun) as [Hobjs Hmap].
  fold mappings in Hobjs, Hmap.
  assert (∀ tm ts, object_of' sc tm ts →
            typ ts = em_typ tm ∧ selectorsOf ts ≡ₚ mapped tm) as Hdescr.
  { intros tm ts (Hty & (made & Hmade & Hperm) & _). split; [done|].
    unfold selectorsOf, mapped. rewrite <- (made_selectors _ _ _ _ Hmade).
    by apply fmap_Permutation. }
  destruct (built_map_domain _ _ _ Hrun) as (Hlen & Hnone & _).
  split_and!; [exact Hlen| | |exact Hnone|].
  - intros tm [p Hp]%list_elem_of_lookup.
    destruct (Forall2_lookup_l _ _ _ _ _ Hobjs Hp) as (ts & Hts & Hobj).
    destruct (heap_inv_pointer sc p Hheap) as [i Hi];
      [by eapply lookup_lt_Some|].
    exists i, ts. split; [|by apply Hdescr].
    unfold entityTypeAt. by rewrite Hi.
  - intros i ts Hts.
    destruct (built_slice_object _ _ _ _ _ Hrun Hts) as (_ & p & tm & _ & Htm & Hobj).
    exists tm. split; [by eapply list_elem_of_lookup_2|by apply Hdescr].
  - intros t ts Hts.
    destruct (built_map_object _ _ _ _ _ Hrun Hts) as (tm & Htm & Hobj).
    exists tm. split; [done|].
    destruct (Hdescr _ _ Hobj) as [Hty Hsel]. split; [|done].
    apply last_Some_elem_of, list_elem_of_filter in Htm as [<- _]. done.
Qed.

(** X10: In every built schema, with or without record types that are mapped
    more than once: the entity type schema at index [i] of [entityTypes]
    has [typID] [i]; exactly the mapped record types have a rank; and the
    rank of a record type is an index of [entityTypes], where the slice
    has the entity type schema the map has for the type. *)
Theorem typeRank_is_slice_index nm opts sc :
  buildSchema' nm opts = Returned sc →
  (∀ i ts, entityTypeAt sc i = Some ts → typID ts = i)
  ∧ (∀ t, is_Some (typeRank sc t) ↔ t ∈ mappedTypes opts)
  ∧ (∀ t r, typeRank sc t = Some r →
       r < length (mappedTypes opts)
       ∧ ∃ ts, entityTypeAt sc r = Some ts
               ∧ entityTypeSchemaOf sc t = Some ts ∧ typ ts = t).
Proof.
  intros Hrun.
  destruct (built_heap_inv _ _ _ Hrun) as [_ Hheap].
  destruct (built_map_domain _ _ _ Hrun) as (Hlen & Hnone & Hsome).
  split_and!.
  - intros i ts Hts. by destruct (built_slice_object _ _ _ _ _ Hrun Hts).
  - intros t. unfold typeRank, mappedTypes.
    rewrite fmap_is_Some, <- not_eq_None_Some, Hnone.
    split; [apply dec_stable|by intros ? ?].
  - intros t r Hr. unfold typeRank in Hr.
    destruct (entityTypeSchemaOf sc t) as [ts|] eqn:Hts; [|done].
    simpl in Hr. injection Hr as <-.
    pose proof (Hsome _ _ Hts) as Hty.
    pose proof Hts as Hts'. unfold entityTypeSchemaOf in Hts'.
    destruct (entityTypeSchemas sc !! t) as [p|]; [|done]. simpl in Hts'.
    destruct (heap_inv_pointer sc p Hheap) as [i Hi];
      [by eapply lookup_lt_Some|].
    destruct Hheap as (_ & _ & Hid & _).
    destruct (Hid _ _ Hi) as (ts' & Hts'' & Hi'). simplify_eq.
    split.
    + unfold mappedTypes. rewrite length_fmap, <- Hlen.
      by eapply lookup_lt_Some.
    + exists ts. split_and!; [|done..].
      unfold entityTypeAt. by rewrite Hi.
Qed.

(** X11: [getOrdinal] and [mustGetOrdinal] on a built schema: an attribute that
    the configuration registers, or one of the two reserved attributes,
    has an ordinal, at which [attrs] has the attribute; for any other
    attribute [getOrdinal] returns the error that names the attribute and
    the schema, and [mustGetOrdinal] panics with it. *)
Theorem getOrdinal_of_built_schema nm opts sc a :
  buildSchema' nm opts = Returned sc →
  (a ∈ registrations opts →
     ∃ i, getOrdinal sc a = (i, None) ∧ mustGetOrdinal sc a = Returned i
          ∧ attrs sc !! i = Some a)
  ∧ (a ∉ registrations opts →
       getOrdinal sc a = (0, Some (Errorf_unknown_attribute_in_schema a nm))
       ∧ mustGetOrdinal sc a
         = Panicked (panic_error (Errorf_unknown_attribute_in_schema a nm))).
Proof.
  intros Hrun.
  destruct (buildSchema_Returned _ _ _ _ _ _ Hrun) as ((((_ & Hmap) & _) & _) & Hattrs & Hname).
  assert (a ∈ attrs sc ↔ a ∈ registrations opts) as Hin.
  { rewrite Hattrs. unfold firstOccurrences. rewrite elem_of_foldl_registerAttr.
    split; [intros [[]%elem_of_nil|]; done|by right]. }
  unfold mustGetOrdinal, getOrdinal. split.
  - intros Ha. apply Hin, list_elem_of_lookup in Ha as [i Hi].
    exists i. apply Hmap in Hi as Hi'. by rewrite Hi'.
  - intros Ha. destruct (attrToOrdinal sc !! a) as [i|] eqn:Hi.
    + destruct Ha. apply Hin. apply Hmap in Hi. by eapply list_elem_of_lookup_2.
    + by rewrite Hname.
Qed.

End BuiltSchema.

(** ** [Swap] and the ranks *)

Lemma entityTypeAt_lookup e i p :
  entityTypes e !! i = Some p → entityTypeAt e i = objects e !! p.
Proof. unfold entityTypeAt. by intros ->. Qed.

Lemma entityTypeSchemaOf_lookup e t p :
  entityTypeSchemas e !! t = Some p → entityTypeSchemaOf e t = objects e !! p.
Proof. unfold entityTypeSchemaOf. by intros ->. Qed.

Section SwapRanks.

Variable compareTypes : reflect.rtype -> reflect.rtype -> bool * bool.

Local Abbreviation Swap := (@sort.Swap Schema (entityTypeSchemaSort compareTypes)).

(** X12: [Swap(i, j)] on consistent entity types, at two indices of the slice:
    the two elements change places and each gets the index of its new
    place as [typID]; no other element changes; and since the map points
    to the same objects as the slice, the rank the map gives for a record
    type whose schema was moved is the new index. *)
Theorem Swap_exchanges_and_renumbers e i j p q :
  heap_inv e →
  entityTypes e !! i = Some p → entityTypes e !! j = Some q →
  heap_inv (Swap e i j)
  ∧ (∀ ts, entityTypeAt e i = Some ts →
       entityTypeAt (Swap e i j) j = Some (set_typID j ts))
  ∧ (∀ ts, entityTypeAt e j = Some ts →
       entityTypeAt (Swap e i j) i = Some (set_typID i ts))
  ∧ (∀ k, k ≠ i → k ≠ j → entityTypeAt (Swap e i j) k = entityTypeAt e k)
  ∧ (∀ t, entityTypeSchemas e !! t = Some p → typeRank (Swap e i j) t = Some j)
  ∧ (∀ t, entityTypeSchemas e !! t = Some q → typeRank (Swap e i j) t = Some i).
Proof.
  intros Hinv Hi Hj.
  pose proof (Swap_heap_inv compareTypes e i j Hinv) as Hinv'.
  pose proof (fun k => Swap_lookup compareTypes e i j p q k Hi Hj) as Hlk.
  assert (objects (Swap e i j)
          = alter (set_typID i) q (alter (set_typID j) p (objects e))) as Hobjs.
  { simpl. by rewrite Hi, Hj. }
  assert (entityTypeSchemas (Swap e i j) = entityTypeSchemas e) as Hm.
  { apply Swap_same_attrs. }
  destruct Hinv as (_ & Hnd & Hid & _). rewrite NoDup_alt in Hnd.
  assert (entityTypes (Swap e i j) !! j = Some p) as Hj'.
  { rewrite Hlk. unfold swapIndex. by rewrite decide_True. }
  assert (entityTypes (Swap e i j) !! i = Some q) as Hi'.
  { rewrite Hlk. unfold swapIndex. destruct (decide (i = j)) as [->|Hne].
    - congruence.
    - by rewrite decide_True. }
  assert (∀ t r k, entityTypeSchemas e !! t = Some r →
            entityTypes (Swap e i j) !! k = Some r →
            typeRank (Swap e i j) t = Some k) as Hrank.
  { intros t r k Ht Hk. unfold typeRank.
    rewrite (entityTypeSchemaOf_lookup _ t r) by by rewrite Hm.
    destruct Hinv' as (_ & _ & Hid' & _).
    destruct (Hid' _ _ Hk) as (ts & -> & <-). done. }
  split_and!; [done| | | |by eauto|by eauto].
  - intros ts. rewrite (entityTypeAt_lookup _ _ _ Hi), (entityTypeAt_lookup _ _ _ Hj').
    intros Hts. rewrite Hobjs. destruct (decide (p = q)) as [<-|Hne].
    + assert (i = j) as -> by by eapply Hnd.
      by rewrite !list_lookup_alter_eq, Hts.
    + rewrite list_lookup_alter_ne by done.
      by rewrite list_lookup_alter_eq, Hts.
  - intros ts. rewrite (entityTypeAt_lookup _ _ _ Hj), (entityTypeAt_lookup _ _ _ Hi').
    intros Hts. rewrite Hobjs, list_lookup_alter_eq.
    destruct (decide (q = p)) as [<-|Hne].
    + by rewrite list_lookup_alter_eq, Hts.
    + by rewrite list_lookup_alter_ne, Hts.
  - intros k Hki Hkj. unfold entityTypeAt. rewrite Hlk. unfold swapIndex.
    rewrite !decide_False by done.
    destruct (entityTypes e !! k) as [r|] eqn:Hk; [|done].
    change (objects (Swap e i j) !! r = objects e !! r).
    rewrite Hobjs, !list_lookup_alter_ne; [done| |].
    + intros ->. apply Hki. by eapply Hnd.
    + intros ->. apply Hkj. by eapply Hnd.
Qed.

End SwapRanks.

(** ** Failing builds *)

Lemma mappingsOf_snoc opts opt :
  mappingsOf (opts ++ [opt]) = apply opt (mappingsOf opts).
Proof. unfold mappingsOf. by rewrite foldl_app. Qed.

(** A selector that resolves to a type of a supported kind is never of
    interface kind. *)
Lemma makeFieldFlags_not_Interface cur f :
  makeFieldFlags cur = (f, true) →
  reflect.kind (if isPtr f && isScalar f then elemOf cur else cur)
  ≠ reflect.Interface.
Proof.
  intros Hf.
  destruct (makeFieldFlags_true _ _ Hf)
    as [(_ & [[-> Hk]|[[-> Hk]|[-> Hk]]])
       |(e & -> & _ & [[-> Hk]|[[-> Hk]|[[-> Hk]|[-> Hk]]]])];
    eval_flags; simpl;
    try (by destruct (isIntKind_signed _ Hk) as (_ & _ & _ & _ & _ & ?));
    try (by destruct (isUintKind_unsigned _ Hk) as (_ & _ & _ & _ & _ & _ & ?));
    by rewrite ?Hk.
Qed.

(** X13: A selector that goes on after a field that is not a struct, such as a
    reference to another entity, makes the resolver panic inside
    [reflect], with a value that is not an error: only the fields of
    struct members can be selected, not those of referenced structs. *)
Theorem selector_through_non_struct nT fs vm pm A B sfA :
  noDot A = true →
  reflect.lookupField fs A = Some sfA →
  reflect.kind (reflect.Type_ sfA) ≠ reflect.Struct →
  ∃ msg,
    getOffsetAndTypeFromSelector
      (reflect.PtrTo (reflect.StructOf nT fs vm pm)) (A ++ "." ++ B)
    = Panicked (panic_other msg).
Proof.
  intros HA HfA Hk. unfold getOffsetAndTypeFromSelector.
  rewrite splitDot_app by done.
  destruct (splitDot_cons B) as (h & tl & ->). simpl. rewrite HfA. simpl.
  destruct (reflect.Type_ sfA) as [k n vm' pm'|n ms|e|n fs' vm' pm'];
    simpl in *; by eauto.
Qed.

Section Failures.

Variable M : ordinal.
Variable compareTypes : reflect.rtype -> reflect.rtype -> bool * bool.
Variable getComparableType : reflect.rtype -> reflect.rtype.

Local Abbreviation buildSchema' := (buildSchema M compareTypes getComparableType).
Local Abbreviation NewSchema' := (NewSchema M compareTypes getComparableType).
Local Abbreviation forEntityMappings' := (forEntityMappings M getComparableType).

Lemma NewSchema_Panicked nm opts r :
  buildSchema' nm opts = Panicked r →
  NewSchema' nm opts = (None, Some (recovered r)).
Proof. unfold NewSchema. intros ->. by destruct r. Qed.

Lemma forEntityMappings_snoc l tm sb sb1 :
  forEntityMappings' l sb = Returned (tt, sb1) →
  forEntityMappings' (l ++ [tm]) sb
  = match maybeAddTypeMapping M getComparableType (em_typ tm) (em_attrMappings tm) sb1 with
    | Returned (_, sb2) => Returned (tt, sb2)
    | Panicked r => Panicked r
    end.
Proof.
  revert sb. induction l as [|tm' l IH]; intros sb Hrun; simpl in *.
  - injection Hrun as ->. unfold mbind, builder_bind.
    by destruct (maybeAddTypeMapping _ _ _ _ _) as [[[] ?]|].
  - bind_inv Hrun. destruct x.
    rewrite (builder_bind_eq _ _ _ _ _ Hstep). by apply IH.
Qed.

(** A build whose last type mapping panics, after the options before it
    built. *)
Lemma buildSchema_added_mapping nm opts sc t ams :
  buildSchema' nm opts = Returned sc →
  ∃ sb2,
    builder_inv M sb2
    ∧ attrs sb2 `prefix_of` attrs sc ∧ attrTypes sb2 `prefix_of` attrTypes sc
    ∧ attrs sb2 = firstOccurrences (userRegistrations opts)
    ∧ ∀ r, maybeAddTypeMapping M getComparableType t ams sb2 = Panicked r →
           NewSchema' nm (opts ++ [EntityMapping t ams])
           = (None, Some (recovered r)).
Proof.
  intros Hrun.
  destruct (buildSchema_states _ _ _ _ _ _ Hrun)
    as (sb1 & sb2 & sb6 & H1 & H2 & I1 & I2 & I6 & S1 & S6 & Pa & Pt & ->).
  destruct (Sort_same_attrs compareTypes sb6) as ((_ & Ea & Et & _) & _).
  exists sb2. split_and!; [done|by rewrite Ea|by rewrite Et| |].
  - pose proof (forAttrTypes_advance _ _ _ _ _ (builder_inv_init M nm) H1)
      as (_ & [R1 _] & _).
    pose proof (forEntityMappings_advance _ _ _ _ _ _ I1 H2) as (_ & [R2 _] & _).
    rewrite R2, R1. unfold firstOccurrences, userRegistrations.
    by rewrite foldl_app.
  - intros r Hr. apply NewSchema_Panicked. unfold buildSchema.
    fold (mappingsOf (opts ++ [EntityMapping t ams])).
    rewrite mappingsOf_snoc. simpl.
    rewrite (builder_bind_eq _ _ _ _ _ H1).
    unfold mbind at 2. unfold builder_bind.
    rewrite (forEntityMappings_snoc _ (mkEntityMapping t ams) _ _ H2). simpl.
    by rewrite Hr.
Qed.

(** A panic at the first selector of a type mapping is the panic of the
    type mapping. *)
Lemma maybeAddTypeMapping_first_selector t a sel sels ams sb r :
  isStructPointer t = true →
  addTypeAttrMapping M getComparableType a t sel sb = Panicked r →
  maybeAddTypeMapping M getComparableType t (mkAttrMapping a (sel :: sels) :: ams) sb
  = Panicked r.
Proof.
  intros Hsp Hadd. unfold maybeAddTypeMapping. rewrite Hsp. simpl.
  unfold mbind, builder_bind. by rewrite Hadd.
Qed.

(** X14: The error of a configuration that builds until its last type mapping.
    When the options [opts] build, [NewSchema] on [opts] followed by one
    more type mapping returns no schema and:
    - for a record type that is not a pointer to a struct, the error that
      names the type;
    - when the first selector does not resolve, what the resolver
      panicked with: wrapped when it is an error, the missing field, and
      as an assertion failure when it is a value of [reflect];
    - when the first selector resolves to a type the classifier does not
      support, the error that names the selector, the record type and that
      type;
    - when the first selector resolves to a supported type that the type
      recorded for the attribute, by [opts], does not accept, the type
      mismatch that names the attribute and both types. *)
Theorem NewSchema_error_of_added_mapping nm opts sc t a sel sels ams :
  buildSchema' nm opts = Returned sc →
  let added := EntityMapping t (mkAttrMapping a (sel :: sels) :: ams) in
  let failed := fun e => NewSchema' nm (opts ++ [added]) = (None, Some e) in
  (isStructPointer t = false →
     ∀ ams', NewSchema' nm (opts ++ [EntityMapping t ams'])
             = (None, Some (Wrap_failed_to_construct_schema
                              (Errorf_is_not_a_pointer_to_a_struct t))))
  ∧ (isStructPointer t = true →
     (∀ e, getOffsetAndTypeFromSelector t sel = Panicked (panic_error e) →
           failed (Wrap_failed_to_construct_schema e))
     ∧ (∀ v, getOffsetAndTypeFromSelector t sel = Panicked (panic_other v) →
             failed (AssertionFailedf_failed_to_construct_schema v))
     ∧ (∀ offset cur f,
          getOffsetAndTypeFromSelector t sel = Returned (offset, cur) →
          makeFieldFlags cur = (f, false) →
          failed (Wrap_failed_to_construct_schema
                    (Errorf_selector_has_unsupported_type sel t cur)))
     ∧ (∀ offset cur f i prev,
          getOffsetAndTypeFromSelector t sel = Returned (offset, cur) →
          makeFieldFlags cur = (f, true) →
          a ∈ userRegistrations opts →
          attrToOrdinal sc !! a = Some i → attrTypes sc !! i = Some prev →
          let typ := if isPtr f && isScalar f then elemOf cur else cur in
          typeAccepted typ prev = false →
          failed (Wrap_failed_to_construct_schema (typeMismatch a typ prev)))).
Proof.
  intros Hrun added failed.
  destruct (buildSchema_Returned _ _ _ _ _ _ Hrun) as (((Hattrs & _) & _) & _).
  split.
  - intros Hsp ams'.
    destruct (buildSchema_added_mapping _ _ _ t ams' Hrun) as (sb2 & _ & _ & _ & _ & H).
    apply (H (panic_error (Errorf_is_not_a_pointer_to_a_struct t))).
    unfold maybeAddTypeMapping. by rewrite Hsp.
  - intros Hsp.
    destruct (buildSchema_added_mapping _ _ _ t (mkAttrMapping a (sel :: sels) :: ams) Hrun)
      as (sb2 & I2 & Pa & Pt & Hreg & H).
    assert (∀ r, addTypeAttrMapping M getComparableType a t sel sb2 = Panicked r →
              NewSchema' nm (opts ++ [added]) = (None, Some (recovered r))) as H'.
    { intros r Hr. apply H. by apply maybeAddTypeMapping_first_selector. }
    unfold failed. split_and!.
    + intros e Hsel. apply (H' (panic_error e)).
      unfold addTypeAttrMapping, mbind, builder_bind, lift. by rewrite Hsel.
    + intros v Hsel. apply (H' (panic_other v)).
      unfold addTypeAttrMapping, mbind, builder_bind, lift. by rewrite Hsel.
    + intros offset cur f Hsel Hf.
      apply (H' (panic_error (Errorf_selector_has_unsupported_type sel t cur))).
      unfold addTypeAttrMapping, mbind, builder_bind, lift.
      by rewrite Hsel, Hf.
    + intros offset cur f i prev Hsel Hf Ha Hi Hprev Hacc.
      set (typ := if isPtr f && isScalar f then elemOf cur else cur) in *.
      apply (H' (panic_error (typeMismatch a typ prev))).
      unfold addTypeAttrMapping, mbind, builder_bind, lift.
      rewrite Hsel, Hf. simpl. fold typ.
      destruct I2 as ((Hlen2 & Hmap2) & _).
      assert (a ∈ attrs sb2) as [i' Hi']%list_elem_of_lookup.
      { rewrite Hreg. unfold firstOccurrences.
        apply elem_of_foldl_registerAttr. by right. }
      assert (i' = i) as ->.
      { destruct Hattrs as [_ Hmap]. apply Hmap in Hi.
        pose proof (prefix_lookup_Some _ _ _ _ Hi' Pa) as Hi''.
        apply Hmap in Hi, Hi''. congruence. }
      assert (attrTypes sb2 !! i = Some prev) as Hprev2.
      { assert (is_Some (attrTypes sb2 !! i)) as [prev' Hp'].
        { apply lookup_lt_is_Some. rewrite <- Hlen2. by eapply lookup_lt_Some. }
        pose proof (prefix_lookup_Some _ _ _ _ Hp' Pt). congruence. }
      unfold maybeAddAttribute. apply Hmap2 in Hi'. rewrite Hi', Hprev2.
      rewrite checkType_typeAccepted, Hacc. simpl. unfold typeMismatch.
      by destruct (bool_decide _).
Qed.

(** ** The reserved attributes and the fields *)

Lemma maybeAddAttribute_fixed a b typ sb ord sb' :
  attrs_inv sb → fixed_by_field a sb →
  (b = a → reflect.kind typ ≠ reflect.Interface) →
  maybeAddAttribute M b typ sb = Returned (ord, sb') →
  fixed_by_field a sb'.
Proof.
  intros [Hlen _] Hfix Hb. unfold maybeAddAttribute.
  destruct (attrToOrdinal sb !! b) as [o|].
  - destruct (attrTypes sb !! o) as [prev|]; [|discriminate].
    destruct (checkType typ prev) as [[err|]|]; simpl; try discriminate.
    by intros [= <- <-].
  - destruct (M <=? length (attrs sb)); [discriminate|].
    intros [= <- <-] i ty. simpl. intros Hi Hty.
    apply lookup_app_Some in Hi as [Hi|[Hge Hi]].
    + apply lookup_lt_Some in Hi as Hlt.
      rewrite lookup_app_l in Hty by lia. by eapply Hfix.
    + apply list_lookup_singleton_Some in Hi as [Hi <-].
      rewrite lookup_app_r in Hty by lia.
      apply list_lookup_singleton_Some in Hty as [_ <-]. by apply Hb.
Qed.

Lemma addTypeAttrMapping_fixed a b t sel sb fi sb' :
  builder_inv M sb → fixed_by_field a sb →
  addTypeAttrMapping M getComparableType b t sel sb = Returned (fi, sb') →
  fixed_by_field a sb'.
Proof.
  intros (Hattrs & _) Hfix Hrun.
  destruct (addTypeAttrMapping_fieldInfo _ _ _ _ _ _ _ _ Hrun)
    as (offset & cur & _ & Hf & _ & Ht & _ & _ & _ & Hadd).
  eapply maybeAddAttribute_fixed; [done..| |exact Hadd].
  intros _. rewrite Ht. by apply makeFieldFlags_not_Interface.
Qed.

Lemma forSelectors_fixed a b t sels : ∀ acc sb fis sb',
  builder_inv M sb → fields_ok sb acc → fixed_by_field a sb →
  forSelectors M getComparableType b t sels acc sb = Returned (fis, sb') →
  fixed_by_field a sb'.
Proof.
  induction sels as [|sel sels IH]; intros acc sb fis sb' Hinv Hacc Hfix Hrun;
    simpl in *.
  - by injection Hrun as <- <-.
  - bind_inv Hrun.
    pose proof (addTypeAttrMapping_fixed _ _ _ _ _ _ _ Hinv Hfix Hstep) as Hfix'.
    destruct (addTypeAttrMapping_advance _ _ _ _ _ _ _ _ Hinv Hstep)
      as ((Hinv1 & Hreg1 & _) & _ & Hattr).
    eapply IH; [exact Hinv1| |exact Hfix'|exact Hrun].
    apply Forall_app. split.
    + eapply fields_ok_grow; [|done]. by eapply registered_length.
    + by repeat constructor.
Qed.

Lemma forAttrMappings_fixed a t ams : ∀ acc sb fis sb',
  builder_inv M sb → fields_ok sb acc → fixed_by_field a sb →
  forAttrMappings M getComparableType t ams acc sb = Returned (fis, sb') →
  fixed_by_field a sb'.
Proof.
  induction ams as [|am ams IH]; intros acc sb fis sb' Hinv Hacc Hfix Hrun;
    simpl in *.
  - by injection Hrun as <- <-.
  - bind_inv Hrun.
    pose proof (forSelectors_fixed _ _ _ _ _ _ _ _ Hinv Hacc Hfix Hstep) as Hfix'.
    apply forSelectors_advance in Hstep as ((Hinv1 & _) & _ & Hok); [|done..].
    by eapply IH.
Qed.

Lemma forEntityMappings_fixed a l : ∀ sb u sb',
  builder_inv M sb → fixed_by_field a sb →
  forEntityMappings' l sb = Returned (u, sb') →
  fixed_by_field a sb'.
Proof.
  induction l as [|tm l IH]; intros sb u sb' Hinv Hfix Hrun; simpl in *.
  - by injection Hrun as _ <-.
  - bind_inv Hrun.
    pose proof (maybeAddTypeMapping_advance _ _ _ _ _ _ _ Hinv Hstep) as ((Hinv' & _) & _).
    eapply IH; [exact Hinv'| |exact Hrun].
    unfold maybeAddTypeMapping in Hstep.
    destruct (isStructPointer (em_typ tm)); simpl in Hstep; [|discriminate].
    bind_inv Hstep. injection Hstep as _ <-.
    assert (fields_ok sb []) as Hnil by constructor.
    pose proof (forAttrMappings_fixed _ _ _ _ _ _ _ Hinv Hnil Hfix Hstep0) as Hfix'.
    exact Hfix'.
Qed.

(** A reserved attribute is registered at the end with an interface type.
    When the attribute is already there by a field, the type recorded for
    it is the type of the field, which is not that interface type, and
    the registration panics. *)
Lemma reserved_registration_panics a typ sb :
  attrs_inv sb → fixed_by_field a sb → a ∈ attrs sb →
  reflect.kind typ = reflect.Interface →
  ∃ r, maybeAddAttribute M a typ sb = Panicked r.
Proof.
  intros [Hlen Hmap] Hfix [i Hi]%list_elem_of_lookup Hk.
  assert (is_Some (attrTypes sb !! i)) as [prev Hprev].
  { apply lookup_lt_is_Some. rewrite <- Hlen. by eapply lookup_lt_Some. }
  pose proof (Hfix _ _ Hi Hprev) as Hnot.
  unfold maybeAddAttribute. apply Hmap in Hi. rewrite Hi, Hprev.
  rewrite checkType_typeAccepted.
  assert (typeAccepted typ prev = false) as ->.
  { unfold typeAccepted. rewrite (bool_decide_eq_false_2 (_ = reflect.Interface)) by done.
    rewrite bool_decide_eq_false_2; [done|]. intros ->. by rewrite Hk in Hnot. }
  simpl. by eexists.
Qed.

(** X15: A reserved attribute cannot be first registered by a field: when the
    options map [Self] or [Type] to a selector without declaring the type
    of the attribute first, no schema is built.  The field fixes the type
    of the attribute, and the registration of the reserved attribute with
    its interface type, at the end, then finds a type mismatch (when
    nothing else has failed before). *)
Theorem reserved_attribute_mapped_to_field nm opts a :
  a = Self ∨ a = Type_ →
  a ∉ at_a <$> m_attrTypes (mappingsOf opts) →
  a ∈ m_entityMappings (mappingsOf opts)
        ≫= (fun tm => mappingAttrs (em_attrMappings tm)) →
  ∃ e, NewSchema' nm opts = (None, Some e).
Proof.
  intros Hres Hundeclared Hmapped.
  destruct (buildSchema' nm opts) as [sc|r] eqn:Hrun;
    [|exists (recovered r); by apply NewSchema_Panicked].
  exfalso.
  destruct (buildSchema_steps _ _ _ _ _ _ Hrun)
    as (sb1 & sb2 & o3 & sb3 & sb4 & o5 & sb5 & sb6
        & H1 & H2 & H3 & H4 & H5 & H6 & _).
  pose proof (builder_inv_init M nm) as I0.
  pose proof (forAttrTypes_advance _ _ _ _ _ I0 H1) as (I1 & [R1 _] & _).
  pose proof (forEntityMappings_advance _ _ _ _ _ _ I1 H2) as (I2 & [R2 _] & _).
  assert (fixed_by_field a sb1) as F1.
  { intros i ty Hi _. destruct Hundeclared.
    apply list_elem_of_lookup_2 in Hi. rewrite R1 in Hi. simpl in Hi.
    apply elem_of_foldl_registerAttr in Hi as [[]%elem_of_nil|]; done. }
  pose proof (forEntityMappings_fixed _ _ _ _ _ I1 F1 H2) as F2.
  assert (a ∈ attrs sb2) as Hin2.
  { rewrite R2. apply elem_of_foldl_registerAttr. by right. }
  destruct Hres as [->| ->].
  - destruct (reserved_registration_panics Self emptyInterfaceType sb2)
      as [r Hr]; [apply I2|done..|congruence].
  - destruct (maybeAddAttribute_advance _ _ _ _ _ _ I2 H3)
      as ((I3 & R3 & _) & S3 & _).
    destruct (set_selfOrdinal_Returned _ _ _ H4) as (_ & Sa4 & S4 & _).
    pose proof (builder_inv_same _ _ _ I3 Sa4 S4) as I4.
    assert (fixed_by_field Type_ sb3) as F3.
    { eapply maybeAddAttribute_fixed; [apply I2|exact F2| |exact H3]. done. }
    destruct Sa4 as (_ & Ea4 & Et4 & _).
    destruct (registered_prefix _ _ _ R3) as [Pa3 _].
    destruct (reserved_registration_panics Type_ reflectTypeType sb4)
      as [r Hr]; [apply I4| | |done|congruence].
    + intros i ty. rewrite Ea4, Et4. apply F3.
    + rewrite Ea4. apply list_elem_of_lookup in Hin2 as [i Hi].
      eapply list_elem_of_lookup_2, prefix_lookup_Some; done.
Qed.

(** X16: What a successful build says of its configuration: every type mapping
    is of a pointer to a struct, and every selector of it resolves, on
    that record type, to a field of a supported type, whose type the type
    recorded for the attribute of the selector accepts. *)
Theorem built_schema_mappings_resolve nm opts sc tm a sel :
  buildSchema' nm opts = Returned sc →
  tm ∈ m_entityMappings (mappingsOf opts) →
  (a, sel) ∈ mappingSelectors (em_attrMappings tm) →
  isStructPointer (em_typ tm) = true
  ∧ ∃ offset cur f i prev,
      getOffsetAndTypeFromSelector (em_typ tm) sel = Returned (offset, cur)
      ∧ makeFieldFlags cur = (f, true)
      ∧ getOrdinal sc a = (i, None)
      ∧ attrTypes sc !! i = Some prev
      ∧ typeAccepted (if isPtr f && isScalar f then elemOf cur else cur) prev
        = true.
Proof.
  intros Hrun [p Hp]%list_elem_of_lookup Hsel.
  destruct (buildSchema_Returned _ _ _ _ _ _ Hrun)
    as (((Hattrs & _ & Hheap) & _) & _).
  destruct (mappings_inv_built _ _ _ _ _ _ Hrun) as [Hobjs _].
  destruct (Forall2_lookup_l _ _ _ _ _ Hobjs Hp) as (ts & Hts & Hobj).
  destruct Hobj as (Hty & (made & Hmade & _) & _).
  split.
  - destruct Hheap as (_ & _ & _ & _ & _ & Hok). rewrite Forall_forall in Hok.
    rewrite <- Hty. by apply (Hok ts), (list_elem_of_lookup_2 _ p).
  - apply list_elem_of_lookup in Hsel as [k Hk].
    destruct (Forall2_lookup_l _ _ _ _ _ Hmade Hk)
      as (fi & _ & Hpath & Ha & (offset & cur & Hres & Hf & Htyp & _)
          & prev & Hprev & Hacc).
    simpl in *. exists offset, cur, (flags fi), (attr fi), prev.
    rewrite <- Htyp, <- Hpath. split_and!; try done.
    unfold getOrdinal. destruct Hattrs as [_ Hmap]. apply Hmap in Ha.
    by rewrite Ha.
Qed.

End Failures.

(** ** The further properties on the example configurations *)

Lemma makeFieldFlags_one_kind_witness :
  makeFieldFlags (reflect.PtrTo Example.int64) = (Z.lor pointerField intField, true)
  ∧ isPtr (Z.lor pointerField intField)
    = bool_decide (reflect.kind (reflect.PtrTo Example.int64) = reflect.Ptr).
Proof.
  assert (makeFieldFlags (reflect.PtrTo Example.int64)
          = (Z.lor pointerField intField, true)) as H by reflexivity.
  split; [exact H|]. exact (proj1 (proj2 (makeFieldFlags_one_kind _ _ H))).
Defined.

Lemma integer_inline_faithful_witness :
  ∃ fi sb', Example.mapField "id" "ID" = Returned (fi, sb')
    ∧ (inline fi Example.memory 1000%Z = inline fi Example.memory 2000%Z
       ↔ value fi Example.memory 1000%Z = value fi Example.memory 2000%Z).
Proof.
  destruct (mapField_Returned "id" "ID")
    as (fi & sb' & offset & cur & E & Hsel & Hf & _);
    [vm_compute; reflexivity|].
  exists fi, sb'. split; [exact E|].
  vm_compute in Hsel. injection Hsel as <- <-.
  resolved_flags Hf.
  refine (integer_inline_faithful 8 Example.getComparableType _ _ _ _ _ _
            0%Z Example.int64 E eq_refl _ _ _ _ _ _ _).
  - by rewrite <- Hf.
  - vm_compute; discriminate.
  - vm_compute; discriminate.
Defined.

Lemma plain_scalar_accessors_witness :
  ∃ fi sb', Example.mapField "id" "ID" = Returned (fi, sb')
    ∧ f_typ fi = Example.int64
    ∧ value fi Example.memory 1000%Z = reflect.Val (reflect.IfInt Example.int64 42)
    ∧ inline fi Example.minusOne 1000%Z = reflect.Val ((2 ^ 64 - 1)%Z, true).
Proof.
  destruct (mapField_Returned "id" "ID")
    as (fi & sb' & offset & cur & E & Hsel & Hf & _);
    [vm_compute; reflexivity|].
  exists fi, sb'. split; [exact E|].
  vm_compute in Hsel. injection Hsel as <- <-.
  resolved_flags Hf.
  destruct (plain_scalar_accessors 8 Example.getComparableType _ _ _ _ _ _
              0%Z Example.int64 E eq_refl) as [Ht H]; [by rewrite <- Hf|].
  split; [exact Ht|].
  pose proof (H Example.memory 1000%Z ltac:(vm_compute; discriminate)) as H1.
  pose proof (H Example.minusOne 1000%Z ltac:(vm_compute; discriminate)) as H2.
  cbv zeta in H1, H2.
  destruct H1 as (H1 & _), H2 as (H2 & _).
  destruct (H1 eq_refl) as [V _]. destruct (H2 eq_refl) as [_ I].
  split; [rewrite V|rewrite I]; vm_compute; reflexivity.
Defined.

Lemma struct_reference_value_witness :
  ∃ fi sb', Example.mapField "next" "Next" = Returned (fi, sb')
    ∧ value fi = comparableValue fi
    ∧ value fi Example.memory 1000%Z
      = reflect.Val (reflect.IfPtr (reflect.PtrTo Example.Leaf) 7000%Z).
Proof.
  destruct (mapField_Returned "next" "Next")
    as (fi & sb' & offset & cur & E & Hsel & Hf & _);
    [vm_compute; reflexivity|].
  exists fi, sb'. split; [exact E|].
  vm_compute in Hsel. injection Hsel as <- <-.
  resolved_flags Hf.
  destruct (struct_reference_value 8 Example.getComparableType _ _ _ _ _ _
              32%Z (reflect.PtrTo Example.Leaf) E eq_refl) as (Heq & _ & V);
    [by rewrite <- Hf|].
  split; [exact Heq|].
  rewrite V by (vm_compute; discriminate). vm_compute. reflexivity.
Defined.

Lemma accessors_return_witness :
  ∃ fi sb', Example.mapField "count" "Count" = Returned (fi, sb')
    ∧ ∃ v i c, value fi Example.memory 2000%Z = reflect.Val v
               ∧ inline fi Example.memory 2000%Z = reflect.Val i
               ∧ comparableValue fi Example.memory 2000%Z = reflect.Val c.
Proof.
  destruct (mapField_Returned "count" "Count")
    as (fi & sb' & offset & cur & E & Hsel & _);
    [vm_compute; reflexivity|].
  exists fi, sb'. split; [exact E|].
  vm_compute in Hsel. injection Hsel as <- <-.
  refine (accessors_return 8 Example.getComparableType _ _ _ _ _ _
            24%Z (reflect.PtrTo Example.int64) E eq_refl _ _ _).
  vm_compute; discriminate.
Defined.

(** The entity type schema of [*Node] and its first field. *)
Lemma nodeSchema_first_field :
  Example.build 8 Example.nodeMapping = Returned (Example.built 8 Example.nodeMapping)
  ∧ ∃ ts fi, entityTypeAt (Example.built 8 Example.nodeMapping) 0 = Some ts
             ∧ fi ∈ fields ts.
Proof.
  split; [apply built_Returned; vm_compute; reflexivity|].
  assert ((fun ts => length (fields ts))
            <$> entityTypeAt (Example.built 8 Example.nodeMapping) 0 = Some 5) as H
    by (vm_compute; reflexivity).
  destruct (entityTypeAt (Example.built 8 Example.nodeMapping) 0) as [ts|];
    [|discriminate H].
  injection H as H. exists ts.
  destruct (fields ts) as [|fi rest]; [discriminate H|].
  exists fi. split; [reflexivity|]. by left.
Defined.

Lemma fields_sorted_and_grouped_witness :
  ∃ ts, entityTypeAt (Example.built 8 Example.nodeMapping) 0 = Some ts
    ∧ StronglySorted (fun x y => attr x ≤ attr y) (fields ts)
    ∧ ∀ o, attrFields ts !! o
           = match filter (fun f => attr f = o) (fields ts) with
             | [] => None
             | l => Some l
             end.
Proof.
  destruct nodeSchema_first_field as (Hrun & ts & fi & E & _).
  exists ts. split; [exact E|].
  apply (fields_sorted_and_grouped 8 Example.compareTypes Example.getComparableType
           "example" Example.nodeMapping _ ts Hrun).
  left. by exists 0.
Defined.

Lemma field_types_accepted_witness :
  ∃ ts fi, entityTypeAt (Example.built 8 Example.nodeMapping) 0 = Some ts
    ∧ fi ∈ fields ts
    ∧ ∃ a prev,
        getOrdinal (Example.built 8 Example.nodeMapping) a = (attr fi, None)
        ∧ attrs (Example.built 8 Example.nodeMapping) !! attr fi = Some a
        ∧ attrTypes (Example.built 8 Example.nodeMapping) !! attr fi = Some prev
        ∧ typeAccepted (f_typ fi) prev = true.
Proof.
  destruct nodeSchema_first_field as (Hrun & ts & fi & E & F).
  exists ts, fi. split; [exact E|]. split; [exact F|].
  apply (field_types_accepted 8 Example.compareTypes Example.getComparableType
           "example" Example.nodeMapping _ ts fi Hrun); [|exact F].
  left. by exists 0.
Defined.

Lemma fields_resolve_selectors_witness :
  ∃ ts fi, entityTypeAt (Example.built 8 Example.nodeMapping) 0 = Some ts
    ∧ fi ∈ fields ts
    ∧ isStructPointer (typ ts) = true
    ∧ field_resolved Example.getComparableType (typ ts) fi.
Proof.
  destruct nodeSchema_first_field as (Hrun & ts & fi & E & F).
  exists ts, fi. split; [exact E|]. split; [exact F|].
  apply (fields_resolve_selectors 8 Example.compareTypes Example.getComparableType
           "example" Example.nodeMapping _ ts fi Hrun); [|exact F].
  left. by exists 0.
Defined.

Lemma entity_types_follow_mappings_witness :
  Example.build 8 Example.duplicates = Returned (Example.built 8 Example.duplicates)
  ∧ length (entityTypes (Example.built 8 Example.duplicates)) = 3
  ∧ ∀ t, entityTypeSchemaOf (Example.built 8 Example.duplicates) t = None
         ↔ t ∉ em_typ <$> m_entityMappings (mappingsOf Example.duplicates).
Proof.
  assert (Example.build 8 Example.duplicates
          = Returned (Example.built 8 Example.duplicates)) as Hrun
    by (apply built_Returned; vm_compute; reflexivity).
  split; [exact Hrun|].
  pose proof (entity_types_follow_mappings 8 Example.compareTypes
                Example.getComparableType "example" Example.duplicates _ Hrun) as H.
  cbv zeta in H. destruct H as (Hlen & _ & _ & Hnone & _).
  split; [exact Hlen|exact Hnone].
Defined.

Lemma typeRank_is_slice_index_witness :
  Example.build 8 Example.duplicates = Returned (Example.built 8 Example.duplicates)
  ∧ (∀ i ts, entityTypeAt (Example.built 8 Example.duplicates) i = Some ts →
             typID ts = i)
  ∧ (∀ t, is_Some (typeRank (Example.built 8 Example.duplicates) t)
          ↔ t ∈ mappedTypes Example.duplicates).
Proof.
  assert (Example.build 8 Example.duplicates
          = Returned (Example.built 8 Example.duplicates)) as Hrun
    by (apply built_Returned; vm_compute; reflexivity).
  split; [exact Hrun|].
  destruct (typeRank_is_slice_index 8 Example.compareTypes
              Example.getComparableType "example" Example.duplicates _ Hrun)
    as (Hid & Hdom & _).
  split; [exact Hid|exact Hdom].
Defined.

Lemma getOrdinal_of_built_schema_witness :
  (∃ i, getOrdinal (Example.built 8 Example.oneAttr) (UserAttr "x") = (i, None)
        ∧ mustGetOrdinal (Example.built 8 Example.oneAttr) (UserAttr "x") = Returned i
        ∧ attrs (Example.built 8 Example.oneAttr) !! i = Some (UserAttr "x"))
  ∧ getOrdinal (Example.built 8 Example.oneAttr) (UserAttr "y")
    = (0, Some (Errorf_unknown_attribute_in_schema (UserAttr "y") "example")).
Proof.
  assert (Example.build 8 Example.oneAttr
          = Returned (Example.built 8 Example.oneAttr)) as Hrun
    by (apply built_Returned; vm_compute; reflexivity).
  split.
  - refine (proj1 (getOrdinal_of_built_schema 8 Example.compareTypes
                     Example.getComparableType "example" Example.oneAttr _
                     (UserAttr "x") Hrun) _).
    vm_compute. by left.
  - refine (proj1 (proj2 (getOrdinal_of_built_schema 8 Example.compareTypes
                     Example.getComparableType "example" Example.oneAttr _
                     (UserAttr "y") Hrun) _)).
    vm_compute. intros H. apply list_elem_of_In in H. simpl in H.
    destruct H as [H|[H|[H|[]]]]; discriminate H.
Defined.

Lemma Swap_exchanges_and_renumbers_witness :
  let e := Example.built 8 [Example.mapA; Example.mapB] in
  let e' := @sort.Swap Schema (entityTypeSchemaSort Example.compareTypes) e 0 1 in
  heap_inv e'
  ∧ typeRank e (reflect.PtrTo Example.A) = Some 0
  ∧ typeRank e' (reflect.PtrTo Example.A) = Some 1
  ∧ typeRank e' (reflect.PtrTo Example.B) = Some 0.
Proof.
  intros e e'.
  assert (Example.build 8 [Example.mapA; Example.mapB] = Returned e) as Hrun
    by (apply built_Returned; vm_compute; reflexivity).
  assert (heap_inv e) as Hinv.
  { apply buildSchema_Returned in Hrun. apply Hrun. }
  destruct (Swap_exchanges_and_renumbers Example.compareTypes e 0 1 0 1 Hinv)
    as (Hinv' & _ & _ & _ & HA & HB); [vm_compute; reflexivity..|].
  split; [exact Hinv'|]. split; [vm_compute; reflexivity|].
  split; [apply HA|apply HB]; vm_compute; reflexivity.
Defined.

Lemma selector_through_non_struct_witness :
  ∃ msg, getOffsetAndTypeFromSelector (reflect.PtrTo Example.Node) "Next.ID"
         = Panicked (panic_other msg).
Proof.
  unfold Example.Node.
  eapply (selector_through_non_struct _ _ _ _ "Next" "ID"
            (reflect.mkStructField "Next" (reflect.PtrTo Example.Leaf) 32));
    [reflexivity|reflexivity|simpl; discriminate].
Defined.

Lemma NewSchema_error_of_added_mapping_witness :
  let failed := fun added e =>
    NewSchema 8 Example.compareTypes Example.getComparableType "example"
      (Example.oneAttr ++ [added]) = (None, Some e) in
  failed (EntityMapping Example.Node [])
    (Wrap_failed_to_construct_schema
       (Errorf_is_not_a_pointer_to_a_struct Example.Node))
  ∧ failed (EntityMapping (reflect.PtrTo Example.Node)
              [mkAttrMapping (UserAttr "x") ["Weight"]])
      (Wrap_failed_to_construct_schema
         (Errorf_selector_has_unsupported_type "Weight"
            (reflect.PtrTo Example.Node) Example.float64))
  ∧ failed (EntityMapping (reflect.PtrTo Example.Node)
              [mkAttrMapping (UserAttr "x") ["Name"]])
      (Wrap_failed_to_construct_schema
         (typeMismatch (UserAttr "x") Example.string_ Example.int64)).
Proof.
  intros failed.
  assert (Example.build 8 Example.oneAttr
          = Returned (Example.built 8 Example.oneAttr)) as Hrun
    by (apply built_Returned; vm_compute; reflexivity).
  split; [|split].
  - pose proof (NewSchema_error_of_added_mapping 8 Example.compareTypes
                  Example.getComparableType "example" Example.oneAttr _
                  Example.Node Self "" [] [] Hrun) as H.
    cbv zeta in H. destruct H as [H _]. exact (H eq_refl []).
  - pose proof (NewSchema_error_of_added_mapping 8 Example.compareTypes
                  Example.getComparableType "example" Example.oneAttr _
                  (reflect.PtrTo Example.Node) (UserAttr "x") "Weight" [] [] Hrun) as H.
    cbv zeta in H. destruct H as [_ H]. destruct (H eq_refl) as (_ & _ & H3 & _).
    exact (H3 40%Z Example.float64 0%Z eq_refl eq_refl).
  - pose proof (NewSchema_error_of_added_mapping 8 Example.compareTypes
                  Example.getComparableType "example" Example.oneAttr _
                  (reflect.PtrTo Example.Node) (UserAttr "x") "Name" [] [] Hrun) as H.
    cbv zeta in H. destruct H as [_ H]. destruct (H eq_refl) as (_ & _ & _ & H4).
    refine (H4 16%Z (reflect.PtrTo Example.string_) (Z.lor pointerField stringField)
              0 Example.int64 eq_refl eq_refl _ _ _ eq_refl).
    + vm_compute. by left.
    + vm_compute. reflexivity.
    + vm_compute. reflexivity.
Defined.

Lemma reserved_attribute_mapped_to_field_witness :
  ∃ e, NewSchema 8 Example.compareTypes Example.getComparableType "example"
         Example.selfMapped = (None, Some e).
Proof.
  apply (reserved_attribute_mapped_to_field 8 Example.compareTypes
           Example.getComparableType "example" Example.selfMapped Self).
  - by left.
  - vm_compute. intros H. apply list_elem_of_In in H. destruct H.
  - vm_compute. by left.
Defined.

Lemma built_schema_mappings_resolve_witness :
  isStructPointer (reflect.PtrTo Example.Node) = true
  ∧ ∃ offset cur f i prev,
      getOffsetAndTypeFromSelector (reflect.PtrTo Example.Node) "A.B"
      = Returned (offset, cur)
      ∧ makeFieldFlags cur = (f, true)
      ∧ getOrdinal (Example.built 8 Example.nodeMapping) (UserAttr "b") = (i, None)
      ∧ attrTypes (Example.built 8 Example.nodeMapping) !! i = Some prev
      ∧ typeAccepted (if isPtr f && isScalar f then elemOf cur else cur) prev
        = true.
Proof.
  assert (Example.build 8 Example.nodeMapping
          = Returned (Example.built 8 Example.nodeMapping)) as Hrun
    by (apply built_Returned; vm_compute; reflexivity).
  refine (built_schema_mappings_resolve 8 Example.compareTypes
            Example.getComparableType "example" Example.nodeMapping _
            (mkEntityMapping (reflect.PtrTo Example.Node) _) (UserAttr "b") "A.B"
            Hrun _ _).
  - vm_compute. left.
  - vm_compute. right. left.
Defined.
